(** * merge_chapter1.py: heading detection, title matching and assembly

    A shallow embedding of [scripts/merge_chapter1.py] and the properties
    its specification states about it.

    Python values are modelled as follows.
    - [str] is a list of Unicode code points ([N]).
    - The Unicode character database the interpreter consults (decimal
      digits for [\d] and [int()], alphanumerics for [\w] and [\b], and
      [str.lower]) is an interface, [UnicodeDB], with the facts the
      proofs need collected in [UnicodeLaws].  The small fixed sets
      (white space, the punctuation class, the Thai digits) are concrete.
    - Regular expressions are abstract syntax run by a backtracking
      matcher that lists the match ends in the priority order of [re].
    - [difflib.SequenceMatcher] is modelled after CPython's algorithm and
      its ratio is an IEEE binary64 number ([PrimFloat]).
    - The document library and the file system are operations of a
      [Section]; the output document is the list of paragraphs added. *)

From Stdlib Require Import ZArith NArith List Bool Lia String Ascii.
From Stdlib Require Import DecimalString Floats Uint63.
From stdpp Require Import base option list gmap.

Import ListNotations.
#[local] Set Warnings "-inexact-float".
Local Open Scope N_scope.

(** ** Strings as sequences of code points *)

Definition char := N.
Definition str := list char.

Module Utf8.
(** Decoder for the string literals of this file, which are UTF-8. *)
Fixpoint decode (bs : list N) (need : nat) (acc : N) : str :=
  match bs with
  | [] => []
  | b :: bs' =>
      match need with
      | O =>
          if b <? 0x80 then b :: decode bs' 0%nat 0
          else if b <? 0xE0 then decode bs' 1%nat (N.land b 0x1F)
          else if b <? 0xF0 then decode bs' 2%nat (N.land b 0x0F)
          else decode bs' 3%nat (N.land b 0x07)
      | S O => (acc * 64 + N.land b 0x3F) :: decode bs' 0%nat 0
      | S k => decode bs' k (acc * 64 + N.land b 0x3F)
      end
  end.

Definition of_string (s : string) : str :=
  decode (map N_of_ascii (list_ascii_of_string s)) 0%nat 0.
End Utf8.

(** [py "..."] is the Python string written between the quotes. *)
Definition py (s : string) : str := Utf8.of_string s.

Definition SPACE : char := 0x20.
Definition NEWLINE : char := 0x0A.
Definition DOT : char := 0x2E.
Definition HYPHEN : char := 0x2D.
Definition RPAREN : char := 0x29.
Definition UNDERSCORE : char := 0x5F.
Definition SLASH : char := 0x2F.

Definition str_eqb (a b : str) : bool := bool_decide (a = b).

(** ** The Unicode character database *)

(** What the interpreter looks up per character:
    [decimal c] is the value of a decimal digit (category Nd), which is
    what [\d] tests and [int()] reads; [isalnum c] is [str.isalnum], from
    which [\w] and [\b] are defined; [lower] is [str.lower];
    [lowered c] tells that [str.lower] leaves [c] alone. *)
Class UnicodeDB := {
  decimal : char -> option N;
  isalnum : char -> bool;
  lower : str -> str;
  lowered : char -> bool
}.

(** Membership in a list of code point ranges, ends included. *)
Definition in_ranges (rs : list (N * N)) (c : char) : bool :=
  existsb (fun r => (r.1 <=? c) && (c <=? r.2)) rs.

(** White space: the characters of [str.isspace], which is also what [\s],
    [str.strip] and [str.split] use. *)
Definition space_ranges : list (N * N) :=
  [(0x09, 0x0D); (0x1C, 0x20); (0x85, 0x85); (0xA0, 0xA0); (0x1680, 0x1680);
   (0x2000, 0x200A); (0x2028, 0x2029); (0x202F, 0x202F); (0x205F, 0x205F);
   (0x3000, 0x3000)].

Definition isspace (c : char) : bool := in_ranges space_ranges c.

(** The Thai digits U+0E50 .. U+0E59. *)
Definition is_thai_digit (c : char) : bool := (0x0E50 <=? c) && (c <=? 0x0E59).

(** The class [[\-–—•·\(\)\[\]\{\}:;,.]] of [normalize_title]. *)
Definition punctuation : list char :=
  [0x2D; 0x2013; 0x2014; 0x2022; 0xB7; 0x28; 0x29; 0x5B; 0x5D; 0x7B; 0x7D;
   0x3A; 0x3B; 0x2C; 0x2E].

Definition is_punct (c : char) : bool :=
  in_ranges (map (fun p => (p, p)) punctuation) c.

Section Unicode.
Context {U : UnicodeDB}.

Definition is_digit (c : char) : bool :=
  match decimal c with Some _ => true | None => false end.

(** [\w] *)
Definition is_word (c : char) : bool := isalnum c || (c =? UNDERSCORE).

Definition is_word_opt (c : option char) : bool :=
  match c with Some x => is_word x | None => false end.
End Unicode.

(** The facts about the database that the proofs rely on. *)
Class UnicodeLaws (U : UnicodeDB) : Prop := {
  ascii_digit_decimal : forall c, 0x30 <= c <= 0x39 -> decimal c = Some (c - 0x30);
  thai_digit_decimal : forall c, is_thai_digit c = true -> decimal c = Some (c - 0x0E50);
  digit_alnum : forall c, is_digit c = true -> isalnum c = true;
  space_not_alnum : forall c, isspace c = true -> isalnum c = false;
  punct_not_alnum : forall c, is_punct c = true -> isalnum c = false;
  lower_lowered : forall s, forallb lowered (lower s) = true;
  lowered_fixed : forall s, forallb lowered s = true -> lower s = s;
  lowered_space : lowered SPACE = true;
  bo_baimai_not_decimal : decimal 0x0E1A = None
}.

(** A database for texts in ASCII and Thai: the decimal digits are the
    ASCII and the Thai ones, the alphanumerics are those digits, the ASCII
    letters and the Thai consonants and vowels, and only ASCII letters
    have case. *)
Module Basic.
Definition decimal (c : char) : option N :=
  if (0x30 <=? c) && (c <=? 0x39) then Some (c - 0x30)
  else if is_thai_digit c then Some (c - 0x0E50)
  else None.

Definition is_upper (c : char) : bool := (0x41 <=? c) && (c <=? 0x5A).
Definition is_lower (c : char) : bool := (0x61 <=? c) && (c <=? 0x7A).

Definition alnum_ranges : list (N * N) :=
  [(0x30, 0x39); (0x41, 0x5A); (0x61, 0x7A); (0x0E01, 0x0E30);
   (0x0E32, 0x0E33); (0x0E40, 0x0E46); (0x0E50, 0x0E59)].

Definition isalnum (c : char) : bool := in_ranges alnum_ranges c.

Definition lower_char (c : char) : char := if is_upper c then c + 0x20 else c.
Definition lower (s : str) : str := map lower_char s.
Definition lowered (c : char) : bool := negb (is_upper c).
End Basic.

#[export] Instance basic_unicode : UnicodeDB := {|
  decimal := Basic.decimal;
  isalnum := Basic.isalnum;
  lower := Basic.lower;
  lowered := Basic.lowered
|}.

(** ** Python string methods *)

Fixpoint lstrip (s : str) : str :=
  match s with
  | c :: s' => if isspace c then lstrip s' else s
  | [] => []
  end.

Fixpoint rstrip (s : str) : str :=
  match s with
  | [] => []
  | c :: s' =>
      match rstrip s' with
      | [] => if isspace c then [] else [c]
      | t => c :: t
      end
  end.

(** [str.strip()] *)
Definition strip (s : str) : str := rstrip (lstrip s).

(** [str.split()]: the maximal runs of characters that are not white
    space; [cur] is the run being read, last character first. *)
Fixpoint split_go (s : str) (cur : str) : list str :=
  match s with
  | [] => match cur with [] => [] | _ => [rev cur] end
  | c :: s' =>
      if isspace c
      then match cur with [] => split_go s' [] | _ => rev cur :: split_go s' [] end
      else split_go s' (c :: cur)
  end.

Definition split (s : str) : list str := split_go s [].

(** [str.startswith] *)
Fixpoint startswith (s p : str) : bool :=
  match p, s with
  | [], _ => true
  | a :: p', b :: s' => (a =? b) && startswith s' p'
  | _ :: _, [] => false
  end.

(** [p in s] for strings *)
Fixpoint contains (s p : str) : bool :=
  startswith s p || match s with [] => false | _ :: s' => contains s' p end.

(** [str.maketrans(from, to)] and [str.translate] *)
Definition maketrans (from to : str) : list (char * char) := combine from to.

Fixpoint table_get (t : list (char * char)) (c : char) : option char :=
  match t with
  | [] => None
  | (k, v) :: t' => if k =? c then Some v else table_get t' c
  end.

Definition translate (t : list (char * char)) (s : str) : str :=
  map (fun c => default c (table_get t c)) s.

(** [str(n)] for an integer *)
Definition str_of_Z (z : Z) : str := py (NilZero.string_of_int (Z.to_int z)).

Section PyInt.
Context {U : UnicodeDB}.

(** [int(s)] for a run of decimal digits, as a [\d+] match is; [None]
    stands for [ValueError]. *)
Fixpoint int_digits (s : str) (acc : N) : option N :=
  match s with
  | [] => Some acc
  | c :: s' =>
      match decimal c with
      | Some d => int_digits s' (10 * acc + d)
      | None => None
      end
  end.

Definition py_int (s : str) : option Z :=
  match s with
  | [] => None
  | _ => option_map Z.of_N (int_digits s 0)
  end.
End PyInt.

(** ** Regular expressions *)

Module Re.

Inductive regex :=
| Eps
| Cls (p : char -> bool)
| Seq (r1 r2 : regex)
| Star (r : regex)
| Opt (r : regex)
| Bol
| Eol
| WordB.

(** A position in the subject: the character before it and the text
    from it on. *)
Record cursor := Cursor { before : option char; rest : str }.

Definition Chr (c : char) : regex := Cls (N.eqb c).
Definition Plus (r : regex) : regex := Seq r (Star r).
Fixpoint Lit (s : str) : regex :=
  match s with
  | [] => Eps
  | c :: s' => Seq (Chr c) (Lit s')
  end.

(** Greedy iteration: the ends after more rounds come before the ends
    after fewer; a round must consume. *)
Fixpoint star (step : cursor -> list cursor) (fuel : nat) (c : cursor)
  : list cursor :=
  match fuel with
  | O => [c]
  | S n =>
      flat_map
        (fun c' =>
           if (length (rest c') <? length (rest c))%nat
           then star step n c' else [])
        (step c) ++ [c]
  end.

Section Engine.
Context {U : UnicodeDB}.

(** [\b] *)
Definition at_boundary (c : cursor) : bool :=
  xorb (is_word_opt (before c)) (is_word_opt (head (rest c))).

(** [$]: at the end, or before a newline that ends the subject *)
Definition at_end (c : cursor) : bool :=
  match rest c with
  | [] => true
  | [x] => x =? NEWLINE
  | _ => false
  end.

(** The positions at which a match of [r] from [c] can end, in the
    order in which a backtracking matcher tries them. *)
Fixpoint ends (r : regex) (c : cursor) : list cursor :=
  match r with
  | Eps => [c]
  | Cls p =>
      match rest c with
      | x :: s => if p x then [Cursor (Some x) s] else []
      | [] => []
      end
  | Seq r1 r2 => flat_map (ends r2) (ends r1 c)
  | Star r1 => star (ends r1) (length (rest c)) c
  | Opt r1 => ends r1 c ++ [c]
  | Bol => match before c with None => [c] | Some _ => [] end
  | Eol => if at_end c then [c] else []
  | WordB => if at_boundary c then [c] else []
  end.

(** The match found at [c]: its text and where it ends. *)
Definition match_at (r : regex) (c : cursor) : option (str * cursor) :=
  match ends r c with
  | c' :: _ =>
      Some (firstn (length (rest c) - length (rest c')) (rest c), c')
  | [] => None
  end.

Definition advance (c : cursor) : option cursor :=
  match rest c with
  | [] => None
  | x :: s => Some (Cursor (Some x) s)
  end.

(** [re.match]: the match at the start of [s] *)
Definition re_match (r : regex) (s : str) : option str :=
  option_map fst (match_at r (Cursor None s)).

(** [re.search]: the leftmost match *)
Fixpoint search_go (r : regex) (b : option char) (s : str) : option str :=
  match match_at r (Cursor b s) with
  | Some (m, _) => Some m
  | None =>
      match s with
      | [] => None
      | x :: s' => search_go r (Some x) s'
      end
  end.

Definition re_search (r : regex) (s : str) : option str := search_go r None s.

(** [re.sub] and [re.findall] scan from the left; after a match the
    scan goes on where it ended, and one character further when it
    was empty. *)
Fixpoint sub_go (r : regex) (repl : str) (fuel : nat) (c : cursor) : str :=
  match fuel with
  | O => []
  | S n =>
      let skip :=
        match rest c with
        | [] => []
        | x :: s => x :: sub_go r repl n (Cursor (Some x) s)
        end in
      match match_at r c with
      | Some ([], _) => repl ++ skip
      | Some (_ :: _, c') => repl ++ sub_go r repl n c'
      | None => skip
      end
  end.

Definition re_sub (r : regex) (repl s : str) : str :=
  sub_go r repl (S (length s)) (Cursor None s).

Fixpoint findall_go (r : regex) (fuel : nat) (c : cursor) : list str :=
  match fuel with
  | O => []
  | S n =>
      let skip :=
        match rest c with
        | [] => []
        | x :: s => findall_go r n (Cursor (Some x) s)
        end in
      match match_at r c with
      | Some ([], _) => [] :: skip
      | Some (m, c') => m :: findall_go r n c'
      | None => skip
      end
  end.

Definition re_findall (r : regex) (s : str) : list str :=
  findall_go r (S (length s)) (Cursor None s).
End Engine.

Declare Scope regex_scope.
Delimit Scope regex_scope with re.
Bind Scope regex_scope with regex.
Infix "@@" := Seq (at level 60, right associativity) : regex_scope.
End Re.

Import Re.

(** ** The source functions *)

(** [[\.-]] *)
Definition dot_or_hyphen (c : char) : bool := (c =? DOT) || (c =? HYPHEN).

(** [[\.)\s]] *)
Definition is_terminator (c : char) : bool :=
  (c =? DOT) || (c =? RPAREN) || isspace c.

Section Source.
Context {U : UnicodeDB}.

(** [\d+] *)
Definition digits : regex := Plus (Cls is_digit).

(** [\b\d+(?:[\.-]\d+)*\.?\s*] *)
Definition numbering_re : regex :=
  (WordB @@ digits @@ Star (Cls dot_or_hyphen @@ digits)
    @@ Opt (Chr DOT) @@ Star (Cls isspace))%re.

(** [[๐-๙]] *)
Definition thai_digit_re : regex := Cls is_thai_digit.

(** [[\-–—•·\(\)\[\]\{\}:;,.]] *)
Definition punct_re : regex := Cls is_punct.

(** [\s+] *)
Definition spaces_re : regex := Plus (Cls isspace).

Definition normalize_title (text : option str) : str :=
  match text with
  | None => []
  | Some text =>
      let text := strip text in
      let text := lower text in
      let text := re_sub numbering_re [] text in
      let text := re_sub thai_digit_re [] text in
      let text := re_sub punct_re [SPACE] text in
      let text := re_sub spaces_re [SPACE] text in
      strip text
  end.
End Source.

(** ** difflib.SequenceMatcher *)

Module Difflib.

(** The position before [j], as in [j2len.get(j-1, 0)]: no key is
    negative, so position 0 has no predecessor in the table. *)
Definition j2len_prev (j2len : gmap nat nat) (j : nat) : nat :=
  match j with
  | O => O
  | S j' => default O (j2len !! j')
  end.

Definition triple := (nat * nat * nat)%type.
Definition size_of (t : triple) : nat := t.2.

Section Matcher.
Variables a b : str.

Definition indices_of (x : char) : list nat :=
  map fst (filter (fun p => p.2 = x) (combine (seq 0 (length b)) b)).

(** [__chain_b] with [isjunk=None] and [autojunk=True]: in a [b] of
    200 elements or more, an element that occurs more than
    [len(b) // 100 + 1] times is dropped from [b2j]. *)
Definition popular (x : char) : bool :=
  ((200 <=? length b) && (length b / 100 + 1 <? length (indices_of x)))%nat.

Definition b2j (x : char) : list nat :=
  if popular x then [] else indices_of x.

(** The loop over [j] in [find_longest_match]. *)
Fixpoint scan_j (js : list nat) (i blo bhi : nat)
    (j2len newj2len : gmap nat nat) (best : triple)
  : gmap nat nat * triple :=
  match js with
  | [] => (newj2len, best)
  | j :: js' =>
      if (j <? blo)%nat then scan_j js' i blo bhi j2len newj2len best
      else if (bhi <=? j)%nat then (newj2len, best)
      else
        let k := (j2len_prev j2len j + 1)%nat in
        let newj2len := <[j := k]> newj2len in
        let best :=
          if (size_of best <? k)%nat
          then ((i + 1 - k)%nat, (j + 1 - k)%nat, k) else best in
        scan_j js' i blo bhi j2len newj2len best
  end.

Definition scan_i (blo bhi : nat) (st : gmap nat nat * triple) (i : nat)
  : gmap nat nat * triple :=
  scan_j (b2j (nth i a 0)) i blo bhi st.1 ∅ st.2.

Fixpoint extend_left (fuel alo blo : nat) (best : triple) : triple :=
  match fuel with
  | O => best
  | S n =>
      let '(besti, bestj, bestsize) := best in
      if (alo <? besti)%nat && (blo <? bestj)%nat
         && (nth (besti - 1) a 0 =? nth (bestj - 1) b 0)
      then extend_left n alo blo
             ((besti - 1)%nat, (bestj - 1)%nat, (bestsize + 1)%nat)
      else best
  end.

Fixpoint extend_right (fuel ahi bhi : nat) (best : triple) : triple :=
  match fuel with
  | O => best
  | S n =>
      let '(besti, bestj, bestsize) := best in
      if (besti + bestsize <? ahi)%nat && (bestj + bestsize <? bhi)%nat
         && (nth (besti + bestsize) a 0 =? nth (bestj + bestsize) b 0)
      then extend_right n ahi bhi (besti, bestj, (bestsize + 1)%nat)
      else best
  end.

(** No element of [b] is junk, so the two loops that take in junk
    next to the match do nothing and are left out. *)
Definition find_longest_match (alo ahi blo bhi : nat) : triple :=
  let st := fold_left (scan_i blo bhi) (seq alo (ahi - alo)) (∅, (alo, blo, O)) in
  let best := extend_left (length a) alo blo st.2 in
  extend_right (length a) ahi bhi best.

(** [get_matching_blocks]: the stack of regions still to look at. *)
Fixpoint matching_blocks (fuel : nat)
    (queue : list (nat * nat * nat * nat)) (found : list triple)
  : list triple :=
  match fuel, queue with
  | S n, (alo, ahi, blo, bhi) :: queue =>
      let '(i, j, k) := find_longest_match alo ahi blo bhi in
      match k with
      | O => matching_blocks n queue found
      | _ =>
          let queue :=
            if (alo <? i)%nat && (blo <? j)%nat
            then (alo, i, blo, j) :: queue else queue in
          let queue :=
            if (i + k <? ahi)%nat && (j + k <? bhi)%nat
            then ((i + k)%nat, ahi, (j + k)%nat, bhi) :: queue else queue in
          matching_blocks n queue (found ++ [(i, j, k)])
      end
  | _, _ => found
  end.

Definition get_matching_blocks : list triple :=
  matching_blocks (2 * length a + 1) [(O, length a, O, length b)] [].

(** Sorting the blocks, merging adjacent ones and appending the empty
    final block leave the sum of the sizes as it is. *)
Definition matches : nat := list_sum (map size_of get_matching_blocks).
End Matcher.

Definition float_of_nat (n : nat) : float :=
  PrimFloat.of_uint63 (Uint63.of_Z (Z.of_nat n)).

Definition _calculate_ratio (matches length : nat) : float :=
  match length with
  | O => 1.0%float
  | _ => (2.0 * float_of_nat matches / float_of_nat length)%float
  end.

(** [SequenceMatcher(a=a, b=b).ratio()] *)
Definition ratio (a b : str) : float :=
  _calculate_ratio (matches a b) (length a + length b).
End Difflib.

(** ** Documents *)

(** [run.font] with the two attributes the tool copies. *)
Record Font := {
  font_name : option str;
  font_size : option Z
}.

(** A run of text with the formatting the tool copies; [run_font] is
    [None] when [run.font] is [None]. *)
Record Run := {
  run_text : str;
  run_bold : option bool;
  run_italic : option bool;
  run_underline : option bool;
  run_font : option Font
}.

(** The attributes that [copy_run_formatting] assigns, in its order. *)
Inductive attribute :=
| Bold
| Italic
| Underline
| FontName
| FontSize.

(** A paragraph as the document library presents it: the name of its
    style ([None] when [paragraph.style] is [None]), [paragraph.text] and
    [paragraph.runs]. *)
Record Paragraph := {
  par_style : option str;
  par_text : str;
  par_runs : list Run
}.

(** The section records of [parse_sections]. *)
Record Sec := {
  title : str;
  norm_title : str;
  level : Z;
  paragraphs : list Paragraph
}.

(** A [dict] from titles to positions.  Python's dictionaries iterate in
    insertion order and assigning to a present key keeps its place. *)
Definition dict := list (str * nat).

Fixpoint dict_get (d : dict) (k : str) : option nat :=
  match d with
  | [] => None
  | (k', v) :: d' => if str_eqb k' k then Some v else dict_get d' k
  end.

Fixpoint dict_set (d : dict) (k : str) (v : nat) : dict :=
  match d with
  | [] => [(k, v)]
  | (k', v') :: d' =>
      if str_eqb k' k then (k', v) :: d' else (k', v') :: dict_set d' k v
  end.

(** [enumerate] *)
Definition enumerate {A} (l : list A) : list (nat * A) :=
  combine (seq 0 (length l)) l.

Definition CHAPTER : str := Eval vm_compute in py "บทที่".
Definition THAI_HEADING : str := Eval vm_compute in py "หัวเรื่อง".
Definition HEADING : str := Eval vm_compute in py "Heading".
Definition THAI_DIGITS : str := Eval vm_compute in py "๐๑๒๓๔๕๖๗๘๙".
Definition ARABIC_DIGITS : str := Eval vm_compute in py "0123456789".

Section Headings.
Context {U : UnicodeDB}.

Definition thai_to_arabic : list (char * char) :=
  maketrans THAI_DIGITS ARABIC_DIGITS.

(** [^(บทที่)\s*\d+] *)
Definition chapter_re : regex :=
  (Bol @@ Lit CHAPTER @@ Star (Cls isspace) @@ digits)%re.

(** [^(\d+)(?:\.(\d+))*[\.)\s]] *)
Definition numbered_re : regex :=
  (Bol @@ digits @@ Star (Chr DOT @@ digits) @@ Cls is_terminator)%re.

(** [text] is [None] for Python's [None].  The first word exists when
    [numbered_re] matches, so [split()[0]] does not raise. *)
Definition _heading_level_from_text (text : option str) : option Z :=
  match text with
  | None | Some [] => None
  | Some text =>
      let raw := strip text in
      let raw_norm := translate thai_to_arabic raw in
      match re_match chapter_re raw_norm with
      | Some _ => Some 1%Z
      | None =>
          match re_match numbered_re raw_norm with
          | Some _ =>
              let parts := re_findall digits (hd [] (split raw_norm)) in
              match parts with
              | [] => None
              | _ => Some (Z.max 1 (Z.of_nat (length parts)))
              end
          | None => None
          end
      end
  end.

(** [(\d+)$]; its group is the whole match. *)
Definition trailing_number_re : regex := (digits @@ Eol)%re.

Definition get_heading_level (paragraph : Paragraph) : option Z :=
  let style_name := default [] (par_style paragraph) in
  let m := re_search trailing_number_re style_name in
  match (if startswith style_name HEADING then m else None) with
  | Some g => py_int g
  | None =>
      let m2 :=
        if contains style_name THAI_HEADING
        then re_search digits style_name else None in
      match m2 with
      | Some g => py_int g
      | None =>
          match _heading_level_from_text (Some (par_text paragraph)) with
          | Some text_level => Some text_level
          | None => None
          end
      end
  end.

(** [current["paragraphs"].append(p)]: [current] is the record that
    was appended to [sections] last, so the paragraph goes to the last
    section, and nowhere while there is none. *)
Fixpoint append_to_current (sections : list Sec) (p : Paragraph) : list Sec :=
  match sections with
  | [] => []
  | [cur] =>
      [{| title := title cur; norm_title := norm_title cur;
          level := level cur; paragraphs := paragraphs cur ++ [p] |}]
  | s :: rest => s :: append_to_current rest p
  end.

Definition parse_step (sections : list Sec) (p : Paragraph) : list Sec :=
  match get_heading_level p with
  | Some lvl =>
      sections ++ [{| title := strip (par_text p);
                      norm_title := normalize_title (Some (par_text p));
                      level := lvl;
                      paragraphs := [] |}]
  | None => append_to_current sections p
  end.

Definition parse_sections (doc : list Paragraph) : list Sec :=
  fold_left parse_step doc [].

Definition build_title_index (sections : list Sec) : dict :=
  fold_left
    (fun index '(i, sec) =>
       match norm_title sec with
       | [] => index
       | key => dict_set index key i
       end)
    (enumerate sections) [].

Definition best_step (t_key : str) (best : option nat * float)
    (item : str * nat) : option nat * float :=
  let score := Difflib.ratio t_key item.1 in
  if (best.2 <? score)%float then (Some item.2, score) else best.

Definition find_best_match (template_title : str) (source_index : dict)
  : option nat :=
  let t_key := normalize_title (Some template_title) in
  match dict_get source_index t_key with
  | Some i => Some i
  | None =>
      let '(best_idx, best_score) :=
        fold_left (best_step t_key) source_index (None, 0.0%float) in
      if (0.6 <=? best_score)%float then best_idx else None
  end.
End Headings.

(** ** The assembler *)

(** A paragraph of the output document. *)
Record OutParagraph := {
  out_style : option str;
  out_runs : list Run
}.

(** The output document is the sequence of paragraphs added to it. *)
Definition OutDoc := list OutParagraph.

(** The run that [add_run(text)] makes: no formatting of its own, and a
    font with no name and no size. *)
Definition new_run (text : str) : Run :=
  {| run_text := text; run_bold := None; run_italic := None;
     run_underline := None;
     run_font := Some {| font_name := None; font_size := None |} |}.

(** What an assignment does to the run when it does not raise. *)
Definition set_bold (v : option bool) (r : Run) : Run :=
  {| run_text := run_text r; run_bold := v; run_italic := run_italic r;
     run_underline := run_underline r; run_font := run_font r |}.

Definition set_italic (v : option bool) (r : Run) : Run :=
  {| run_text := run_text r; run_bold := run_bold r; run_italic := v;
     run_underline := run_underline r; run_font := run_font r |}.

Definition set_underline (v : option bool) (r : Run) : Run :=
  {| run_text := run_text r; run_bold := run_bold r; run_italic := run_italic r;
     run_underline := v; run_font := run_font r |}.

Definition set_font (f : Font) (r : Run) : Run :=
  {| run_text := run_text r; run_bold := run_bold r; run_italic := run_italic r;
     run_underline := run_underline r; run_font := Some f |}.

Definition out_text (p : OutParagraph) : str :=
  concat (map run_text (out_runs p)).

Record Stats := {
  matched_sections : nat;
  skipped_sections : nat;
  total_template_sections : nat
}.

(** [os.path.splitext] for POSIX paths. *)
Module OsPath.
(** [str.rfind] of a character: its last position, or -1. *)
Fixpoint rfind_go (p : str) (c : char) (i found : Z) : Z :=
  match p with
  | [] => found
  | x :: p' => rfind_go p' c (i + 1)%Z (if x =? c then i else found)
  end.

Definition rfind (p : str) (c : char) : Z := rfind_go p c 0%Z (-1)%Z.

(** The loop over the leading dots of the file name returns at the
    first character that is not a dot. *)
Definition splitext (p : str) : str * str :=
  let sepIndex := rfind p SLASH in
  let dotIndex := rfind p DOT in
  if (sepIndex <? dotIndex)%Z
     && existsb (fun c => negb (c =? DOT))
          (firstn (Z.to_nat (dotIndex - (sepIndex + 1)))
             (skipn (Z.to_nat (sepIndex + 1)) p))
  then (firstn (Z.to_nat dotIndex) p, skipn (Z.to_nat dotIndex) p)
  else (p, []).
End OsPath.

Inductive event :=
| Stdout (line : str)
| Stderr (line : str).

Section Assembler.
Context {U : UnicodeDB}.

(** The document library and the file system.  [E] are the exceptions
    their calls raise; [add_heading] is [None] when it raises;
    [has_style name] tells whether the style table of the output
    document resolves [name]; [raises a src_run dst_run] tells that
    the assignment of attribute [a] of [src_run] to [dst_run] raises. *)
Variable E : Type.
Variable exn_str : E -> str.
Variable FS : Type.
Variable path_exists : FS -> str -> bool.
Variable Document : FS -> str -> E + list Paragraph.
Variable copy2 : FS -> str -> str -> FS * option E.
Variable save : OutDoc -> str -> FS -> FS * option E.
Variable add_heading : OutDoc -> str -> Z -> option OutDoc.
Variable has_style : str -> bool.
Variable raises : attribute -> Run -> Run -> bool.

(** The exceptions [merge_chapter] ends with: the two it raises
    itself, an index out of range, or one that a library call let
    through. *)
Inductive error :=
| FileNotFoundError (msg : str)
| IndexError
| Raised (e : E).

Record outcome := {
  result : error + Stats;
  fs_after : FS;
  output : list event
}.

(** [p.style = styles[name]] inside [try]: an unknown name leaves the
    paragraph without a style. *)
Definition resolve_style (style_name : option str) : option str :=
  match style_name with
  | Some (c :: n) => if has_style (c :: n) then Some (c :: n) else None
  | _ => None
  end.

Definition add_paragraph_with_style (dst_doc : OutDoc) (text : str)
    (style_name : option str) : OutDoc :=
  dst_doc ++
    [{| out_style := resolve_style style_name;
        out_runs := match text with [] => [] | _ => [new_run text] end |}].

(** The heading of a template section: [add_heading], and the styled
    paragraph when it raises. *)
Definition emit_heading (out_doc : OutDoc) (heading_text : str) (lvl : Z)
  : OutDoc :=
  match add_heading out_doc heading_text lvl with
  | Some d => d
  | None =>
      add_paragraph_with_style out_doc heading_text
        (Some (HEADING ++ [SPACE] ++ str_of_Z lvl))
  end.

(** One assignment of [copy_run_formatting], [None] when it raises:
    the attribute of [src_run] is read, then that of [dst_run] is
    set; a run whose font is [None] has no [font.name] and no
    [font.size] to read or to set. *)
Definition assign (a : attribute) (src_run dst_run : Run) : option Run :=
  if raises a src_run dst_run then None
  else
    match a with
    | Bold => Some (set_bold (run_bold src_run) dst_run)
    | Italic => Some (set_italic (run_italic src_run) dst_run)
    | Underline => Some (set_underline (run_underline src_run) dst_run)
    | FontName =>
        match run_font src_run, run_font dst_run with
        | Some sf, Some df =>
            Some (set_font {| font_name := font_name sf;
                              font_size := font_size df |} dst_run)
        | _, _ => None
        end
    | FontSize =>
        match run_font src_run, run_font dst_run with
        | Some sf, Some df =>
            Some (set_font {| font_name := font_name df;
                              font_size := font_size sf |} dst_run)
        | _, _ => None
        end
    end.

(** The [try] block of [copy_run_formatting]: the assignments one
    after the other on [dst_run], which is changed in place; the
    first one that raises ends the block and leaves the run with the
    assignments made before it. *)
Definition copy_run_formatting (src_run dst_run : Run) : Run :=
  match assign Bold src_run dst_run with
  | None => dst_run
  | Some dst_run =>
  match assign Italic src_run dst_run with
  | None => dst_run
  | Some dst_run =>
  match assign Underline src_run dst_run with
  | None => dst_run
  | Some dst_run =>
      match run_font src_run with
      | None => dst_run
      | Some _ =>
          match assign FontName src_run dst_run with
          | None => dst_run
          | Some dst_run =>
              match assign FontSize src_run dst_run with
              | None => dst_run
              | Some dst_run => dst_run
              end
          end
      end
  end
  end
  end.

Definition copy_paragraph (out_doc : OutDoc) (sp : Paragraph) : OutDoc :=
  out_doc ++
    [{| out_style := resolve_style (par_style sp);
        out_runs :=
          match par_runs sp with
          | [] => [new_run (par_text sp)]
          | rs => map (fun r => copy_run_formatting r (new_run (run_text r))) rs
          end |}].

(** The body of the loop over the template sections, on the output
    document and the two counters. *)
Definition merge_section (source_sections : list Sec) (source_index : dict)
    (st : OutDoc * nat * nat) (t_sec : Sec) : error + OutDoc * nat * nat :=
  let '(out_doc, matched, skipped) := st in
  let heading_text := title t_sec in
  let out_doc := emit_heading out_doc heading_text (level t_sec) in
  match find_best_match heading_text source_index with
  | None => inr (out_doc, matched, (skipped + 1)%nat)
  | Some s_idx =>
      match source_sections !! s_idx with
      | None => inl IndexError
      | Some s_sec =>
          inr (fold_left copy_paragraph (paragraphs s_sec) out_doc,
               (matched + 1)%nat, skipped)
      end
  end.

Fixpoint merge_sections (source_sections : list Sec) (source_index : dict)
    (template_sections : list Sec) (st : OutDoc * nat * nat)
  : error + OutDoc * nat * nat :=
  match template_sections with
  | [] => inr st
  | t_sec :: more =>
      match merge_section source_sections source_index st t_sec with
      | inl e => inl e
      | inr st' => merge_sections source_sections source_index more st'
      end
  end.

Definition backup_path_of (target_path : str) : str :=
  let '(base, ext) := OsPath.splitext target_path in
  base ++ py " (backup)" ++ ext.

(** The backup of an existing target: the state of the file system
    after it and what is printed. *)
Definition backup_target (target_path : str) (fs : FS) : FS * list event :=
  if path_exists fs target_path then
    let backup_path := backup_path_of target_path in
    match copy2 fs target_path backup_path with
    | (fs', None) =>
        (fs', [Stdout (py "Backed up existing target to: " ++ backup_path)])
    | (fs', Some e) =>
        (fs', [Stderr (py "Warning: failed to backup target: " ++ exn_str e)])
    end
  else (fs, []).

Definition merge_chapter (template_path source_path target_path : str)
    (fs : FS) : outcome :=
  if negb (path_exists fs template_path) then
    {| result := inl (FileNotFoundError (py "Template not found: " ++ template_path));
       fs_after := fs; output := [] |}
  else if negb (path_exists fs source_path) then
    {| result := inl (FileNotFoundError (py "Source not found: " ++ source_path));
       fs_after := fs; output := [] |}
  else
    match Document fs template_path with
    | inl e => {| result := inl (Raised e); fs_after := fs; output := [] |}
    | inr template_doc =>
    match Document fs source_path with
    | inl e => {| result := inl (Raised e); fs_after := fs; output := [] |}
    | inr source_doc =>
        let template_sections := parse_sections template_doc in
        let source_sections := parse_sections source_doc in
        let source_index := build_title_index source_sections in
        match merge_sections source_sections source_index
                template_sections ([], O, O) with
        | inl e => {| result := inl e; fs_after := fs; output := [] |}
        | inr (out_doc, matched, skipped) =>
            let '(fs1, printed) := backup_target target_path fs in
            match save out_doc target_path fs1 with
            | (fs2, Some e) =>
                {| result := inl (Raised e); fs_after := fs2; output := printed |}
            | (fs2, None) =>
                {| result :=
                     inr {| matched_sections := matched;
                            skipped_sections := skipped;
                            total_template_sections := length template_sections |};
                   fs_after := fs2;
                   output :=
                     printed ++ [Stdout (py "Wrote merged Chapter 1 to: " ++ target_path)] |}
            end
        end
    end
    end.

(** [print("Stats:", stats)]: the dictionary as [repr] writes it. *)
Definition stats_line (stats : Stats) : str :=
  py "Stats: {'matched_sections': "
  ++ str_of_Z (Z.of_nat (matched_sections stats))
  ++ py ", 'skipped_sections': "
  ++ str_of_Z (Z.of_nat (skipped_sections stats))
  ++ py ", 'total_template_sections': "
  ++ str_of_Z (Z.of_nat (total_template_sections stats))
  ++ py "}".

(** How [main] ends: the exception it lets through, if any, the file
    system it leaves and what it printed. *)
Record finished := {
  raised : option error;
  fs_left : FS;
  printed : list event
}.

(** [argv] is [sys.argv], the name of the script first. *)
Definition main (argv : list str) (fs : FS) : finished :=
  let template_path := py "/workspace/Full paper/5. บทที่ 1.docx" in
  let source_path := py "/workspace/ref/ข้อเสนอโครงงาน.docx" in
  let target_path := py "/workspace/5.บทที่ 1.docx" in
  let template_path :=
    if (2 <=? length argv)%nat then nth 1 argv [] else template_path in
  let source_path :=
    if (3 <=? length argv)%nat then nth 2 argv [] else source_path in
  let target_path :=
    if (4 <=? length argv)%nat then nth 3 argv [] else target_path in
  let run := merge_chapter template_path source_path target_path fs in
  match result run with
  | inr stats =>
      {| raised := None; fs_left := fs_after run;
         printed := output run ++ [Stdout (stats_line stats)] |}
  | inl e =>
      {| raised := Some e; fs_left := fs_after run; printed := output run |}
  end.
End Assembler.

Arguments FileNotFoundError {E} msg.
Arguments IndexError {E}.
Arguments Raised {E} e.
Arguments result {E FS} o.
Arguments fs_after {E FS} o.
Arguments output {E FS} o.
Arguments raised {E FS} f.
Arguments fs_left {E FS} f.
Arguments printed {E FS} f.

(** ** A document library and a file system in memory *)

Module Mem.
(** What a path holds: a document to read, or a document the tool
    saved. *)
Inductive file :=
| DocFile (doc : list Paragraph)
| OutFile (doc : OutDoc).

(** The files, and the paths that cannot be written. *)
Record fs := { files : gmap str file; read_only : list str }.

Inductive exn :=
| PackageNotFound
| PermissionError.

Definition exn_str (e : exn) : str :=
  match e with
  | PackageNotFound => py "Package not found"
  | PermissionError => py "Permission denied"
  end.

Definition writable (s : fs) (p : str) : bool :=
  negb (existsb (str_eqb p) (read_only s)).

Definition path_exists (s : fs) (p : str) : bool :=
  match files s !! p with Some _ => true | None => false end.

Definition Document (s : fs) (p : str) : exn + list Paragraph :=
  match files s !! p with
  | Some (DocFile d) => inr d
  | _ => inl PackageNotFound
  end.

Definition write (s : fs) (p : str) (f : file) : fs :=
  {| files := <[p := f]> (files s); read_only := read_only s |}.

Definition copy2 (s : fs) (src dst : str) : fs * option exn :=
  match files s !! src with
  | Some f => if writable s dst then (write s dst f, None) else (s, Some PermissionError)
  | None => (s, Some PackageNotFound)
  end.

Definition save (d : OutDoc) (p : str) (s : fs) : fs * option exn :=
  if writable s p then (write s p (OutFile d), None) else (s, Some PermissionError).

(** [Document.add_heading] of the library: levels 0 to 9, with the
    style [Title] or [Heading n]. *)
Definition add_heading (d : OutDoc) (text : str) (lvl : Z) : option OutDoc :=
  if ((0 <=? lvl) && (lvl <=? 9))%Z then
    Some (d ++
      [{| out_style :=
            Some (if (lvl =? 0)%Z then py "Title"
                  else HEADING ++ [SPACE] ++ str_of_Z lvl);
          out_runs := match text with [] => [] | _ => [new_run text] end |}])
  else None.

(** The styles of the library's default template that matter here. *)
Definition has_style (name : str) : bool :=
  existsb (str_eqb name)
    (py "Normal" :: py "Title" :: py "List Paragraph"
     :: map (fun n => HEADING ++ [SPACE] ++ str_of_Z n) [1; 2; 3; 4; 5; 6; 7; 8; 9]%Z).

(** The library takes any value of a formatting attribute but a
    negative font size. *)
Definition raises (a : attribute) (src_run dst_run : Run) : bool :=
  match a, run_font src_run with
  | FontSize, Some f =>
      match font_size f with
      | Some size => (size <? 0)%Z
      | None => false
      end
  | _, _ => false
  end.

Definition merge_chapter `{UnicodeDB} :=
  merge_chapter exn exn_str fs path_exists Document copy2 save add_heading has_style
    raises.
End Mem.

(** * Vocabulary of the properties *)

(** ** Positions and matches *)

(** [reach c c']: [c'] is [c] moved forward over some characters. *)
Inductive reach : cursor -> cursor -> Prop :=
| reach_here c : reach c c
| reach_step b x s c' :
    reach (Cursor (Some x) s) c' -> reach (Cursor b (x :: s)) c'.

(** The cursor after the longest run of characters in [p]. *)
Fixpoint skip (p : char -> bool) (b : option char) (s : str) : cursor :=
  match s with
  | x :: s' => if p x then skip p (Some x) s' else Cursor b s
  | [] => Cursor b []
  end.

(** The next character is in [p]. *)
Definition before_class (p : char -> bool) (c : cursor) : Prop :=
  exists x, head (rest c) = Some x /\ p x = true.

(** A text that ends with a character outside [p]. *)
Definition ends_outside (p : char -> bool) (u : str) : Prop :=
  forall u0 z, u = u0 ++ [z] -> p z = false.

(** The characters up to the first white space. *)
Fixpoint first_word (s : str) : str :=
  match s with
  | [] => []
  | c :: s' => if isspace c then [] else c :: first_word s'
  end.

Section MatchVocabulary.
Context {U : UnicodeDB}.

(** One round of a greedy iteration. *)
Definition round (r : regex) (c c' : cursor) : list cursor :=
  if (length (rest c') <? length (rest c))%nat then ends (Star r) c' else [].

(** The first end. *)
Definition first (r : regex) (c : cursor) : option cursor := hd_error (ends r c).

(** What a substitution does where nothing matches: it copies a
    character. *)
Definition skipped (r : regex) (repl : str) (n : nat) (c : cursor) : str :=
  match rest c with
  | [] => []
  | x :: s => x :: sub_go r repl n (Cursor (Some x) s)
  end.
End MatchVocabulary.

(** ** Normalized titles *)

Section TitleVocabulary.
Context {U : UnicodeDB}.

(** The parts of [numbering_re] after the first number. *)
Definition group_re : regex := (Cls dot_or_hyphen @@ digits)%re.
Definition tail_re : regex :=
  (Star group_re @@ Opt (Chr DOT) @@ Star (Cls isspace))%re.

(** A position is [settled] when a digit that follows it is at a word
    boundary. *)
Definition settled (c : cursor) : Prop :=
  forall x, head (rest c) = Some x -> is_digit x = true ->
            is_word_opt (before c) = false.

(** A digit stands at [c], at a word boundary. *)
Definition digit_at_boundary (c : cursor) : bool :=
  at_boundary c && match rest c with x :: _ => is_digit x | [] => false end.

(** No digit of [s] is at a word boundary, [b] being the character
    before [s]. *)
Fixpoint no_boundary_digit (b : option char) (s : str) : Prop :=
  match s with
  | [] => True
  | x :: s' =>
      (is_digit x = true -> is_word_opt b = true)
      /\ no_boundary_digit (Some x) s'
  end.

(** Every white space character is a single space between two other
    characters; [a] tells that a space comes just before [s]. *)
Fixpoint collapsed (a : bool) (s : str) : Prop :=
  match s with
  | [] => True
  | x :: s' =>
      (isspace x = true -> x = SPACE /\ a = false) /\ collapsed (isspace x) s'
  end.

(** What holds of a normalized title. *)
Record normal (r : str) : Prop := {
  normal_strip : strip r = r;
  normal_lowered : forallb lowered r = true;
  normal_digits : no_boundary_digit None r;
  normal_thai : Forall (fun x => is_thai_digit x = false) r;
  normal_punct : Forall (fun x => is_punct x = false) r;
  normal_spaces : collapsed false r
}.
End TitleVocabulary.

(** Two lists of ranges with no code point in common. *)
Definition ranges_apart (rs1 rs2 : list (N * N)) : bool :=
  forallb (fun r1 => forallb (fun r2 => (r1.2 <? r2.1) || (r2.2 <? r1.1)) rs2) rs1.

(** ** The index and the matcher *)

(** The body of the loop of [build_title_index]. *)
Definition index_step (index : dict) (item : nat * Sec) : dict :=
  match norm_title item.2 with
  | [] => index
  | key => dict_set index key item.1
  end.

(** What the index holds under a key: the last section with that
    normalized title. *)
Definition last_with (secs : list Sec) (k : str) (i : nat) : Prop :=
  (exists sec, secs !! i = Some sec /\ norm_title sec = k)
  /\ forall j sec, (i < j)%nat -> secs !! j = Some sec -> norm_title sec <> k.

(** The state of the loop of [find_best_match] after the items [seen]:
    no title seen has a greater ratio than the best score, which is 0
    with no position, or the ratio of a title seen, with its position. *)
Definition best_inv (t_key : str) (seen : dict) (st : option nat * float) : Prop :=
  (forall k p, In (k, p) seen -> (st.2 <? Difflib.ratio t_key k)%float = false)
  /\ ((st.1 = None /\ st.2 = 0.0%float)
      \/ exists k p, st.1 = Some p /\ In (k, p) seen
                     /\ st.2 = Difflib.ratio t_key k
                     /\ (0.0 <? st.2)%float = true).

(** The state of the loop of [find_best_match] after the items [seen],
    with the place of the best title: no title before it reaches its
    ratio and no title after it exceeds it. *)
Definition first_best (t_key : str) (seen : dict) (st : option nat * float) : Prop :=
  match st.1 with
  | None =>
      st.2 = 0.0%float
      /\ forall k p, In (k, p) seen -> (0.0 <? Difflib.ratio t_key k)%float = false
  | Some pos =>
      exists earlier k later,
        seen = earlier ++ (k, pos) :: later
        /\ st.2 = Difflib.ratio t_key k
        /\ (forall k' p', In (k', p') earlier ->
              (Difflib.ratio t_key k <=? Difflib.ratio t_key k')%float = false)
        /\ (forall k' p', In (k', p') later ->
              (Difflib.ratio t_key k <? Difflib.ratio t_key k')%float = false)
  end.

(** Case analysis on the comparisons of two binary floats. *)
Ltac cmp_cases :=
  repeat match goal with
  | |- context [Pos.compare_cont Eq ?a ?b] =>
      change (Pos.compare_cont Eq a b) with (Pos.compare a b)
  | H : context [Pos.compare_cont Eq ?a ?b] |- _ =>
      change (Pos.compare_cont Eq a b) with (Pos.compare a b) in H
  end;
  repeat match goal with
  | |- context [Z.compare ?a ?b] => destruct (Z.compare_spec a b)
  | H : context [Z.compare ?a ?b] |- _ => destruct (Z.compare_spec a b)
  | |- context [Pos.compare ?a ?b] => destruct (Pos.compare_spec a b)
  | H : context [Pos.compare ?a ?b] |- _ => destruct (Pos.compare_spec a b)
  end;
  simpl in *; try discriminate; try reflexivity; try lia.

(** ** Headings *)

(** The paragraph with another text. *)
Definition with_text (paragraph : Paragraph) (text : str) : Paragraph :=
  {| par_style := par_style paragraph; par_text := text;
     par_runs := par_runs paragraph |}.

(** The components after the first, each behind its dot. *)
Definition dotted_tail (others : list str) : str :=
  concat (map (cons DOT) others).

(** [d1.d2. ... .dn] *)
Definition dotted (comps : list str) : str :=
  match comps with
  | [] => []
  | d :: others => d ++ dotted_tail others
  end.

(** What [translate] does to a character under [thai_to_arabic]. *)
Definition to_arabic (c : char) : char := default c (table_get thai_to_arabic c).

(** The text as the patterns of [_heading_level_from_text] see it. *)
Definition raw_norm (text : str) : str := translate thai_to_arabic (strip text).

Section HeadingVocabulary.
Context {U : UnicodeDB}.

(** A component: digits, at least one. *)
Definition component (d : str) : Prop :=
  d <> [] /\ Forall (fun x => is_digit x = true) d.

(** [\.(\d+)] *)
Definition dot_group : regex := (Chr DOT @@ digits)%re.

(** The text starts with no digit. *)
Definition no_digit_next (s : str) : Prop :=
  match s with x :: _ => is_digit x = false | [] => True end.

(** [_heading_level_from_text] from [raw_norm] on. *)
Definition level_of_raw (raw : str) : option Z :=
  match re_match chapter_re raw with
  | Some _ => Some 1%Z
  | None =>
      match re_match numbered_re raw with
      | Some _ =>
          let parts := re_findall digits (hd [] (split raw)) in
          match parts with
          | [] => None
          | _ => Some (Z.max 1 (Z.of_nat (length parts)))
          end
      | None => None
      end
  end.

(** *** The text heuristic as the specification words it *)

(** The numeric components of the dotted numeric prefix of [s]:
    digits, then a dot and digits any number of times.  [after_digit]
    tells that the character before [s] is a digit of the prefix. *)
Fixpoint count_components (s : str) (after_digit : bool) : nat :=
  match s with
  | [] => O
  | x :: s' =>
      if is_digit x
      then ((if after_digit then 0 else 1) + count_components s' true)%nat
      else if after_digit && (x =? DOT)
              && match s' with y :: _ => is_digit y | [] => false end
      then count_components s' false
      else O
  end.

(** The chapter marker, then a number. *)
Definition chapter_prefix (s : str) : bool :=
  startswith s CHAPTER
  && match lstrip (skipn (length CHAPTER) s) with
     | d :: _ => is_digit d
     | [] => false
     end.

(** The heading level of a text in the words of the specification: a
    text that begins with the chapter marker and a number has level 1;
    a text that begins with a dotted numeric prefix has the number of
    its numeric components, and at least 1; any other text is no
    heading.  Thai digits are transliterated first. *)
Definition spec_heading_level (text : str) : option Z :=
  let raw_norm := translate thai_to_arabic (strip text) in
  if chapter_prefix raw_norm then Some 1%Z
  else
    match count_components raw_norm false with
    | O => None
    | n => Some (Z.max 1 (Z.of_nat n))
    end.
End HeadingVocabulary.

(** ** Sections *)

Section SectionVocabulary.
Context {U : UnicodeDB}.

(** The paragraph opens a section. *)
Definition is_heading (p : Paragraph) : bool :=
  match get_heading_level p with Some _ => true | None => false end.

(** The record that [parse_sections] makes of a heading paragraph,
    with the paragraphs [body] appended to it since. *)
Definition section_of (p : Paragraph) (lvl : Z) (body : list Paragraph) : Sec :=
  {| title := strip (par_text p);
     norm_title := normalize_title (Some (par_text p));
     level := lvl;
     paragraphs := body |}.

(** The paragraph opens no section: it goes to the current one. *)
Definition body_paragraph (p : Paragraph) : Prop := get_heading_level p = None.

(** The document is empty or starts with a heading. *)
Definition at_heading (doc : list Paragraph) : Prop :=
  match doc with
  | [] => True
  | p :: _ => is_heading p = true
  end.
End SectionVocabulary.

(** The section with other paragraphs. *)
Definition with_paragraphs (sec : Sec) (body : list Paragraph) : Sec :=
  {| title := title sec; norm_title := norm_title sec; level := level sec;
     paragraphs := body |}.

(** ** The assembled document *)

Section AssemblyVocabulary.
Context {U : UnicodeDB}.
Variable has_style : str -> bool.
Variable raises : attribute -> Run -> Run -> bool.

(** The template section finds a source section. *)
Definition has_match (source_index : dict) (t_sec : Sec) : bool :=
  match find_best_match (title t_sec) source_index with
  | Some _ => true
  | None => false
  end.

(** The normalized title is empty. *)
Definition no_key (sec : Sec) : bool :=
  match norm_title sec with [] => true | _ => false end.

(** The output paragraph that the loop over the body makes of a
    paragraph of the source: a new run for each of its runs, with the
    text and, as far as the assignments go, the formatting, or one
    plain run with its text when it has no run; its style when the
    output document has it. *)
Definition copy_of (sp : Paragraph) : OutParagraph :=
  {| out_style := resolve_style has_style (par_style sp);
     out_runs :=
       match par_runs sp with
       | [] => [new_run (par_text sp)]
       | rs => map (fun r => copy_run_formatting raises r (new_run (run_text r))) rs
       end |}.

(** What follows the heading of a template section in the output: the
    copies of the body of the source section it matches. *)
Definition body_of (source_sections : list Sec) (source_index : dict)
    (t_sec : Sec) : list OutParagraph :=
  match find_best_match (title t_sec) source_index with
  | Some s_idx =>
      match source_sections !! s_idx with
      | Some s_sec => map copy_of (paragraphs s_sec)
      | None => []
      end
  | None => []
  end.
End AssemblyVocabulary.

(** The run [copy] has the formatting of the run [r]: its bold, italic
    and underline and, when [r] has a font, the name and the size of
    that font. *)
Definition same_formatting (r copy : Run) : Prop :=
  run_bold copy = run_bold r
  /\ run_italic copy = run_italic r
  /\ run_underline copy = run_underline r
  /\ match run_font r with
     | Some f => run_font copy = Some f
     | None => True
     end.

(** The directory part of a path: up to its last slash. *)
Definition directory (p : str) : str :=
  firstn (Z.to_nat (OsPath.rfind p SLASH + 1)) p.

(** ** Exceptions *)

(** The exception is a [FileNotFoundError]: the one that
    [merge_chapter] raises itself, or one that a library call let
    through and that [file_not_found] tells to be one. *)
Definition is_file_not_found {E} (file_not_found : E -> bool) (e : error E) : bool :=
  match e with
  | FileNotFoundError _ => true
  | IndexError => false
  | Raised e' => file_not_found e'
  end.

(** The run ends with a [FileNotFoundError]. *)
Definition raises_file_not_found {E FS} (file_not_found : E -> bool)
    (run : outcome E FS) : Prop :=
  exists e, result run = inl e /\ is_file_not_found file_not_found e = true.

(** ** A file system with directories *)

Module Disk.
(** The files and the directories, each with its final slash. *)
Record fs := { files : gmap str Mem.file; directories : list str }.

(** [NoSuchFile] is the [FileNotFoundError] of opening a file whose
    directory does not exist. *)
Inductive exn :=
| PackageNotFoundError
| NoSuchFile.

Definition file_not_found (e : exn) : bool :=
  match e with
  | NoSuchFile => true
  | PackageNotFoundError => false
  end.

Definition exn_str (e : exn) : str :=
  match e with
  | PackageNotFoundError => py "Package not found"
  | NoSuchFile => py "No such file or directory"
  end.

Definition has_directory (s : fs) (p : str) : bool :=
  existsb (str_eqb (directory p)) (directories s).

Definition path_exists (s : fs) (p : str) : bool :=
  match files s !! p with
  | Some _ => true
  | None => existsb (str_eqb p) (directories s)
  end.

Definition Document (s : fs) (p : str) : exn + list Paragraph :=
  match files s !! p with
  | Some (Mem.DocFile d) => inr d
  | _ => inl PackageNotFoundError
  end.

Definition write (s : fs) (p : str) (f : Mem.file) : fs :=
  {| files := <[p := f]> (files s); directories := directories s |}.

Definition copy2 (s : fs) (src dst : str) : fs * option exn :=
  match files s !! src with
  | Some f => if has_directory s dst then (write s dst f, None) else (s, Some NoSuchFile)
  | None => (s, Some NoSuchFile)
  end.

(** Writing the document opens the target for writing. *)
Definition save (d : OutDoc) (p : str) (s : fs) : fs * option exn :=
  if has_directory s p then (write s p (Mem.OutFile d), None)
  else (s, Some NoSuchFile).

Definition merge_chapter `{UnicodeDB} :=
  merge_chapter exn exn_str fs path_exists Document copy2 save Mem.add_heading
    Mem.has_style Mem.raises.
End Disk.

(** * Examples of inputs *)

(** An index with titles close to [background]. *)
Definition decoy_index : dict :=
  [(py "background of the study", 0%nat); (py "background", 1%nat);
   (py "backgrounds", 2%nat)].

Definition repeat_char (n : nat) (c : string) : str := concat (repeat (py c) n).

(** A paragraph whose style and text disagree on the level. *)
Definition styled_heading : Paragraph :=
  {| par_style := Some (py "Heading 2"); par_text := py "1.1.1 Deep";
     par_runs := [] |}.

(** A template, a source and a file system to run the tool on. *)
Module Demo.
Definition para (style_name text : string) : Paragraph :=
  {| par_style := Some (py style_name); par_text := py text;
     par_runs := [new_run (py text)] |}.

Definition template_doc : list Paragraph :=
  [para "Heading 1" "Introduction";
   para "Normal" "Write the introduction here.";
   para "Heading 2" "1.1 Background"].

Definition source_doc : list Paragraph :=
  [para "Title" "Project proposal";
   para "Heading 1" "1. Introduction";
   para "Normal" "This project merges documents.";
   para "Heading 2" "Background";
   para "Normal" "Earlier work.";
   {| par_style := Some (py "No Such Style"); par_text := py "Plain text.";
      par_runs := [] |}].

Definition template_path : str := py "/w/template.docx".
Definition source_path : str := py "/w/source.docx".
Definition target_path : str := py "/w/out/chapter 1.docx".
Definition backup_path : str := py "/w/out/chapter 1 (backup).docx".

Definition fs0 : Mem.fs :=
  {| Mem.files :=
       <[template_path := Mem.DocFile template_doc]>
         (<[source_path := Mem.DocFile source_doc]> ∅);
     Mem.read_only := [] |}.

Definition heading (lvl : Z) (text : string) : OutParagraph :=
  {| out_style := Some (HEADING ++ [SPACE] ++ str_of_Z lvl);
     out_runs := [new_run (py text)] |}.

Definition body (style_name : option string) (text : string) : OutParagraph :=
  {| out_style := option_map py style_name; out_runs := [new_run (py text)] |}.

Definition merged : OutDoc :=
  [heading 1 "Introduction";
   body (Some "Normal"%string) "This project merges documents.";
   heading 2 "1.1 Background";
   body (Some "Normal"%string) "Earlier work.";
   body None "Plain text."].

Definition first_run := Mem.merge_chapter template_path source_path target_path fs0.
Definition second_run :=
  Mem.merge_chapter template_path source_path target_path (fs_after first_run).

(** A template with a heading that the source has nothing for. *)
Definition conclusion : Sec :=
  {| title := py "Conclusion"; norm_title := py "conclusion"; level := 1;
     paragraphs := [] |}.

(** The paragraphs of the source: what stands before the first
    heading, the first heading, its body, and the rest. *)
Definition cover : list Paragraph := [para "Title" "Project proposal"].
Definition introduction : Paragraph := para "Heading 1" "1. Introduction".
Definition introduction_body : list Paragraph :=
  [para "Normal" "This project merges documents."].
Definition background : list Paragraph :=
  [para "Heading 2" "Background";
   para "Normal" "Earlier work.";
   {| par_style := Some (py "No Such Style"); par_text := py "Plain text.";
      par_runs := [] |}].

(** Two titles as close to [abcde] as each other. *)
Definition tied_index : dict := [(py "abcxy", 7%nat); (py "abcxz", 8%nat)].

(** A command line. *)
Definition argv : list str :=
  [py "merge_chapter1.py"; template_path; source_path; target_path].

(** The two documents on a disk with the one directory [/w/], and a
    target in a directory that does not exist. *)
Definition disk : Disk.fs :=
  {| Disk.files :=
       <[template_path := Mem.DocFile template_doc]>
         (<[source_path := Mem.DocFile source_doc]> ∅);
     Disk.directories := [py "/w/"] |}.

Definition stray_target : str := py "/w/missing/chapter 1.docx".

(** A run with formatting, and one whose font size the library
    refuses. *)
Definition bold_run : Run :=
  {| run_text := py "Important"; run_bold := Some true; run_italic := None;
     run_underline := Some false;
     run_font := Some {| font_name := Some (py "Sarabun"); font_size := Some 177800%Z |} |}.

Definition odd_run : Run :=
  {| run_text := py "Odd"; run_bold := Some true; run_italic := Some true;
     run_underline := None;
     run_font := Some {| font_name := Some (py "Sarabun"); font_size := Some (-1)%Z |} |}.

(** A source section whose body has both runs. *)
Definition formatted_sections : list Sec :=
  [{| title := py "1. Introduction"; norm_title := py "introduction"; level := 1;
      paragraphs :=
        [{| par_style := Some (py "Normal"); par_text := py "ImportantOdd";
            par_runs := [bold_run; odd_run] |}] |}].


(** The file system after the first run, with the backup path
    protected from writing. *)
Definition fs_protected : Mem.fs :=
  {| Mem.files := Mem.files (fs_after first_run); Mem.read_only := [backup_path] |}.
End Demo.

(** * Properties *)

(** ** Values checked against the interpreter *)

Example normalize_title_example :
  normalize_title (Some (py "  1.2.3  Hello, World—(x) ๑๒ a1 ")) = py "hello world x a1".
Proof. vm_compute. reflexivity. Qed.

Example matches_moved_block :
  Difflib.matches (py "introduction background") (py "background and introduction") = 12%nat.
Proof. vm_compute. reflexivity. Qed.

Example matches_one_insertion :
  Difflib.matches (py "abxcd") (py "abcd") = 4%nat.
Proof. vm_compute. reflexivity. Qed.

Example matches_leading_blank :
  Difflib.matches (py " abcd") (py "abcd abcd") = 5%nat.
Proof. vm_compute. reflexivity. Qed.

Example matches_two_blocks :
  Difflib.matches (py "qabxcd") (py "abycdf") = 4%nat.
Proof. vm_compute. reflexivity. Qed.

Example matches_long_line :
  Difflib.matches (py "private Thread currentThread;") (py "private volatile Thread currentThread;") = 29%nat.
Proof. vm_compute. reflexivity. Qed.

Example ratio_three_of_five :
  PrimFloat.leb 0.6 (Difflib.ratio (py "abcde") (py "abcxy")) = true.
Proof. vm_compute. reflexivity. Qed.

Example level_three_components :
  _heading_level_from_text (Some (py "1.2.3 Something")) = Some 3%Z.
Proof. vm_compute. reflexivity. Qed.

Example level_one_component :
  _heading_level_from_text (Some (py "1 Something")) = Some 1%Z.
Proof. vm_compute. reflexivity. Qed.

Example level_chapter_marker :
  _heading_level_from_text (Some (py "บทที่ ๑๒ บทนำ")) = Some 1%Z.
Proof. vm_compute. reflexivity. Qed.

Example level_thai_digits :
  _heading_level_from_text (Some (py "๑.๒ ความเป็นมา")) = Some 2%Z.
Proof. vm_compute. reflexivity. Qed.

Example level_no_terminator :
  _heading_level_from_text (Some (py "1abc")) = None.
Proof. vm_compute. reflexivity. Qed.

Example level_digit_in_word :
  _heading_level_from_text (Some (py "1.a2 Title")) = Some 2%Z.
Proof. vm_compute. reflexivity. Qed.

Example level_number_alone :
  _heading_level_from_text (Some (py "1.2.3")) = Some 3%Z.
Proof. vm_compute. reflexivity. Qed.

Example level_year_alone :
  _heading_level_from_text (Some (py "2024")) = None.
Proof. vm_compute. reflexivity. Qed.

Lemma str_eqb_eq (a b : str) : str_eqb a b = true <-> a = b.
Proof. unfold str_eqb. apply bool_decide_eq_true. Qed.

Lemma str_eqb_neq (a b : str) : str_eqb a b = false <-> a <> b.
Proof. unfold str_eqb. apply bool_decide_eq_false. Qed.

Lemma dict_get_set (d : dict) (k k' : str) (v : nat) :
  dict_get (dict_set d k v) k' = if str_eqb k k' then Some v else dict_get d k'.
Proof.
  induction d as [|[k0 v0] d IH]; simpl; [reflexivity|].
  destruct (str_eqb k0 k) eqn:E0; simpl.
  - apply str_eqb_eq in E0. subst k0. destruct (str_eqb k k'); reflexivity.
  - rewrite IH. destruct (str_eqb k0 k') eqn:E1, (str_eqb k k') eqn:E2; try reflexivity.
    apply str_eqb_eq in E1, E2. apply str_eqb_neq in E0. congruence.
Qed.

Lemma dict_get_In (d : dict) (k : str) (v : nat) :
  dict_get d k = Some v -> In (k, v) d.
Proof.
  induction d as [|[k0 v0] d IH]; simpl; [discriminate|].
  destruct (str_eqb k0 k) eqn:E0.
  - apply str_eqb_eq in E0. intros [= ->]. left. congruence.
  - intros Hd. right. auto.
Qed.

Lemma dict_set_In (d : dict) (k k' : str) (v v' : nat) :
  In (k', v') (dict_set d k v) -> (k' = k /\ v' = v) \/ In (k', v') d.
Proof.
  induction d as [|[k0 v0] d IH]; simpl.
  - intros [[= <- <-]|[]]. left; auto.
  - destruct (str_eqb k0 k) eqn:E0; simpl.
    + apply str_eqb_eq in E0. subst k0. intros [[= <- <-]|Hin]; auto.
    + intros [Heq|Hin]; auto. destruct (IH Hin); auto.
Qed.

Lemma dict_set_keys (d : dict) (k : str) (v : nat) :
  forall k', In k' (map fst (dict_set d k v)) <-> k' = k \/ In k' (map fst d).
Proof.
  induction d as [|[k0 v0] d IH]; simpl; intros k'.
  - intuition.
  - destruct (str_eqb k0 k) eqn:E0; simpl.
    + apply str_eqb_eq in E0. subst k0. intuition.
    + rewrite IH. intuition.
Qed.

Lemma dict_set_NoDup (d : dict) (k : str) (v : nat) :
  List.NoDup (map fst d) -> List.NoDup (map fst (dict_set d k v)).
Proof.
  induction d as [|[k0 v0] d IH]; simpl; intros Hnd.
  - constructor; [intros []|constructor].
  - inversion Hnd as [|? ? Hnotin Hnd']; subst.
    destruct (str_eqb k0 k) eqn:E0; simpl.
    + constructor; assumption.
    + constructor; [|auto].
      rewrite dict_set_keys. intros [->|Hin]; [|contradiction].
      apply str_eqb_neq in E0. congruence.
Qed.

Lemma dict_get_NoDup (d : dict) (k : str) (v : nat) :
  List.NoDup (map fst d) -> In (k, v) d -> dict_get d k = Some v.
Proof.
  induction d as [|[k0 v0] d IH]; simpl; intros Hnd Hin; [contradiction|].
  inversion Hnd as [|? ? Hnotin Hnd']; subst.
  destruct Hin as [[= -> ->]|Hin].
  - replace (str_eqb k k) with true; [reflexivity|].
    symmetry. apply str_eqb_eq. reflexivity.
  - destruct (str_eqb k0 k) eqn:E0; [|auto].
    apply str_eqb_eq in E0. subst k0. exfalso. apply Hnotin.
    change k with (fst (k, v)). apply in_map. assumption.
Qed.

Lemma combine_seq_snoc {A} (l : list A) (x : A) (n : nat) :
  combine (seq n (length (l ++ [x]))) (l ++ [x])
  = combine (seq n (length l)) l ++ [((n + length l)%nat, x)].
Proof.
  revert n. induction l as [|y l IH]; intros n; simpl.
  - rewrite Nat.add_0_r. reflexivity.
  - rewrite IH. rewrite Nat.add_succ_r. reflexivity.
Qed.

Lemma enumerate_snoc {A} (l : list A) (x : A) :
  enumerate (l ++ [x]) = enumerate l ++ [(length l, x)].
Proof. unfold enumerate. rewrite combine_seq_snoc. reflexivity. Qed.

Section Index.
Context {U : UnicodeDB}.

Lemma build_title_index_snoc (secs : list Sec) (sec : Sec) :
  build_title_index (secs ++ [sec])
  = index_step (build_title_index secs) (length secs, sec).
Proof.
  unfold build_title_index. rewrite enumerate_snoc, fold_left_app. simpl.
  unfold index_step. simpl. reflexivity.
Qed.

Lemma build_title_index_NoDup (secs : list Sec) :
  List.NoDup (map fst (build_title_index secs)).
Proof.
  induction secs as [|sec secs IH] using rev_ind.
  - constructor.
  - rewrite build_title_index_snoc. unfold index_step. simpl.
    destruct (norm_title sec); [assumption|]. apply dict_set_NoDup, IH.
Qed.

Lemma build_title_index_get (secs : list Sec) (k : str) (i : nat) :
  dict_get (build_title_index secs) k = Some i ->
  k <> [] /\ last_with secs k i.
Proof.
  revert i. induction secs as [|sec secs IH] using rev_ind; intros i.
  - discriminate.
  - rewrite build_title_index_snoc. unfold index_step. simpl.
    destruct (norm_title sec) as [|c key] eqn:Hkey.
    + intros Hget. destruct (IH _ Hget) as (Hk & (sec0 & Hi & Hn) & Hlast).
      split; [assumption|]. split.
      * exists sec0. split; [|assumption].
        rewrite lookup_app_l; [assumption|]. eapply lookup_lt_Some; eassumption.
      * intros j sec' Hlt Hj.
        destruct (decide (j < length secs)%nat) as [Hjl|Hjl].
        -- rewrite lookup_app_l in Hj by assumption. eauto.
        -- rewrite lookup_app_r in Hj by lia.
           destruct (j - length secs)%nat; [|discriminate].
           injection Hj as <-. congruence.
    + rewrite dict_get_set. destruct (str_eqb (c :: key) k) eqn:Ek.
      * apply str_eqb_eq in Ek. intros [= <-]. subst k.
        split; [discriminate|]. split.
        -- exists sec. split; [|assumption]. apply list_lookup_middle. reflexivity.
        -- intros j sec' Hlt Hj. apply lookup_lt_Some in Hj.
           rewrite length_app in Hj. simpl in Hj. lia.
      * apply str_eqb_neq in Ek.
        intros Hget. destruct (IH _ Hget) as (Hk & (sec0 & Hi & Hn) & Hlast).
        split; [assumption|]. split.
        -- exists sec0. split; [|assumption].
           rewrite lookup_app_l; [assumption|]. eapply lookup_lt_Some; eassumption.
        -- intros j sec' Hlt Hj.
           destruct (decide (j < length secs)%nat) as [Hjl|Hjl].
           ++ rewrite lookup_app_l in Hj by assumption. eauto.
           ++ rewrite lookup_app_r in Hj by lia.
              destruct (j - length secs)%nat; [|discriminate].
              injection Hj as <-. congruence.
Qed.

Lemma build_title_index_present (secs : list Sec) (k : str) (j : nat) (sec : Sec) :
  k <> [] -> secs !! j = Some sec -> norm_title sec = k ->
  exists i, dict_get (build_title_index secs) k = Some i.
Proof.
  revert j sec. induction secs as [|sec0 secs IH] using rev_ind; intros j sec Hk Hj Hn.
  - discriminate.
  - rewrite build_title_index_snoc. unfold index_step. simpl.
    destruct (decide (j < length secs)%nat) as [Hjl|Hjl].
    + rewrite lookup_app_l in Hj by assumption.
      destruct (IH _ _ Hk Hj Hn) as [i Hi].
      destruct (norm_title sec0) as [|c key]; [eauto|].
      rewrite dict_get_set. destruct (str_eqb (c :: key) k); eauto.
    + rewrite lookup_app_r in Hj by lia.
      destruct (j - length secs)%nat; [|discriminate].
      injection Hj as <-. rewrite Hn.
      destruct k as [|c key]; [congruence|].
      rewrite dict_get_set.
      replace (str_eqb (c :: key) (c :: key)) with true; [eauto|].
      symmetry. apply str_eqb_eq. reflexivity.
Qed.

Lemma build_title_index_In (secs : list Sec) (k : str) (i : nat) :
  In (k, i) (build_title_index secs) ->
  k <> [] /\ last_with secs k i.
Proof.
  intros Hin. apply build_title_index_get.
  apply dict_get_NoDup; [apply build_title_index_NoDup|assumption].
Qed.
End Index.

Module FloatOrder.
Import SpecFloat.

Lemma SFltb_irrefl x : SFltb x x = false.
Proof.
  destruct x as [s|s| |s m e]; try destruct s; simpl; try reflexivity.
  all: unfold SFltb; simpl; rewrite Z.compare_refl;
    change (Pos.compare_cont Eq m m) with (Pos.compare m m);
    rewrite Pos.compare_refl; reflexivity.
Qed.

Lemma SFltb_trans x y z :
  SFltb x y = true -> SFltb y z = true -> SFltb x z = true.
Proof.
  unfold SFltb.
  destruct x as [s1|s1| |s1 m1 e1], y as [s2|s2| |s2 m2 e2], z as [s3|s3| |s3 m3 e3];
    try destruct s1; try destruct s2; try destruct s3; simpl;
    try discriminate; try reflexivity; intros H1 H2; cmp_cases.
Qed.

(** [y <= x < z] leaves no room for [z < y]. *)
Lemma SFltb_between x y z :
  SFltb x y = false -> SFltb x z = true -> SFltb z y = false.
Proof.
  unfold SFltb.
  destruct x as [s1|s1| |s1 m1 e1], y as [s2|s2| |s2 m2 e2], z as [s3|s3| |s3 m3 e3];
    try destruct s1; try destruct s2; try destruct s3; simpl;
    try discriminate; try reflexivity; intros H1 H2; cmp_cases.
Qed.

(** [c <= r], not [b < r] and [b] a number give [c <= b]. *)
Lemma SFleb_upper c r b :
  SFleb c r = true -> SFltb b r = false -> SFleb b b = true -> SFleb c b = true.
Proof.
  unfold SFltb, SFleb.
  destruct c as [s1|s1| |s1 m1 e1], r as [s2|s2| |s2 m2 e2], b as [s3|s3| |s3 m3 e3];
    try destruct s1; try destruct s2; try destruct s3; simpl;
    try discriminate; try reflexivity; intros H1 H2 H3; cmp_cases.
Qed.

Lemma SFleb_ltb_trans c b r :
  SFleb c b = true -> SFltb b r = true -> SFleb c r = true.
Proof.
  unfold SFltb, SFleb.
  destruct c as [s1|s1| |s1 m1 e1], r as [s2|s2| |s2 m2 e2], b as [s3|s3| |s3 m3 e3];
    try destruct s1; try destruct s2; try destruct s3; simpl;
    try discriminate; try reflexivity; intros H1 H2; cmp_cases.
Qed.

Lemma SFltb_number x y : SFltb x y = true -> SFleb y y = true.
Proof.
  unfold SFltb, SFleb.
  destruct x as [s1|s1| |s1 m1 e1], y as [s2|s2| |s2 m2 e2];
    try destruct s1; try destruct s2; simpl;
    try discriminate; try reflexivity; intros H1; cmp_cases.
Qed.
End FloatOrder.

Lemma ltb_irrefl (x : float) : (x <? x)%float = false.
Proof. rewrite FloatAxioms.ltb_spec. apply FloatOrder.SFltb_irrefl. Qed.

Lemma ltb_trans (x y z : float) :
  (x <? y)%float = true -> (y <? z)%float = true -> (x <? z)%float = true.
Proof. rewrite !FloatAxioms.ltb_spec. apply FloatOrder.SFltb_trans. Qed.

Lemma ltb_between (x y z : float) :
  (x <? y)%float = false -> (x <? z)%float = true -> (z <? y)%float = false.
Proof. rewrite !FloatAxioms.ltb_spec. apply FloatOrder.SFltb_between. Qed.

Lemma leb_upper (c r b : float) :
  (c <=? r)%float = true -> (b <? r)%float = false -> (b <=? b)%float = true ->
  (c <=? b)%float = true.
Proof. rewrite !FloatAxioms.ltb_spec, !FloatAxioms.leb_spec. apply FloatOrder.SFleb_upper. Qed.

Lemma leb_ltb_trans (c b r : float) :
  (c <=? b)%float = true -> (b <? r)%float = true -> (c <=? r)%float = true.
Proof. rewrite !FloatAxioms.ltb_spec, !FloatAxioms.leb_spec. apply FloatOrder.SFleb_ltb_trans. Qed.

Lemma ltb_number (x y : float) : (x <? y)%float = true -> (y <=? y)%float = true.
Proof. rewrite !FloatAxioms.ltb_spec, !FloatAxioms.leb_spec. apply FloatOrder.SFltb_number. Qed.

Section Fuzzy.
Context {U : UnicodeDB}.
Variable t_key : str.

Lemma best_step_inv (seen : dict) (st : option nat * float) (item : str * nat) :
  best_inv t_key seen st -> best_inv t_key (seen ++ [item]) (best_step t_key st item).
Proof.
  destruct st as [bi bs], item as [k p]. intros [Hub Hbest].
  unfold best_step. cbn [fst snd] in *.
  destruct (bs <? Difflib.ratio t_key k)%float eqn:Hlt; split; cbn [fst snd].
  - intros k' p' Hin. apply in_app_or in Hin as [Hin|[[= <- <-]|[]]].
    + eapply ltb_between; [apply (Hub _ _ Hin)|exact Hlt].
    + apply ltb_irrefl.
  - right. exists k, p. repeat split; [apply in_or_app; right; left; reflexivity|].
    destruct Hbest as [[_ ->]|(k0 & p0 & _ & _ & _ & H0)]; [exact Hlt|].
    eapply ltb_trans; eassumption.
  - intros k' p' Hin. apply in_app_or in Hin as [Hin|[[= <- <-]|[]]]; eauto.
  - destruct Hbest as [?|(k0 & p0 & ? & ? & ? & ?)]; [left; assumption|].
    right. exists k0, p0. repeat split; try assumption.
    apply in_or_app. left. assumption.
Qed.

Lemma best_fold_inv (items seen : dict) (st : option nat * float) :
  best_inv t_key seen st ->
  best_inv t_key (seen ++ items) (fold_left (best_step t_key) items st).
Proof.
  revert seen st. induction items as [|item items IH]; intros seen st Hinv; simpl.
  - rewrite app_nil_r. assumption.
  - replace (seen ++ item :: items) with ((seen ++ [item]) ++ items)
      by (rewrite <- app_assoc; reflexivity).
    apply IH, best_step_inv, Hinv.
Qed.

Lemma best_loop (index : dict) :
  best_inv t_key index (fold_left (best_step t_key) index (None, 0.0%float)).
Proof.
  apply (best_fold_inv index []).
  split; cbn [fst snd]; [intros ? ? []|left; split; reflexivity].
Qed.

Lemma best_number (seen : dict) (st : option nat * float) :
  best_inv t_key seen st -> (st.2 <=? st.2)%float = true.
Proof.
  intros [_ [[_ ->]|(k & p & _ & _ & _ & H0)]]; [reflexivity|].
  eapply ltb_number, H0.
Qed.
End Fuzzy.

Section Matcher.
Context {U : UnicodeDB}.

Lemma find_best_match_fuzzy_accept (title : str) (index : dict) (pos : nat) :
  dict_get index (normalize_title (Some title)) = None ->
  find_best_match title index = Some pos ->
  exists k, In (k, pos) index
    /\ (0.6 <=? Difflib.ratio (normalize_title (Some title)) k)%float = true
    /\ forall k' p', In (k', p') index ->
         (Difflib.ratio (normalize_title (Some title)) k
          <? Difflib.ratio (normalize_title (Some title)) k')%float = false.
Proof.
  unfold find_best_match. generalize (normalize_title (Some title)) as t_key.
  intros t_key Hget. rewrite Hget.
  pose proof (best_loop t_key index) as Hinv.
  destruct (fold_left _ index _) as [bi bs].
  destruct (0.6 <=? bs)%float eqn:Hacc; [|discriminate].
  intros ->. destruct Hinv as [Hub [[Hnone _]|(k & p & Hp & Hin & Hbs & _)]];
    cbn [fst snd] in *; [discriminate|].
  injection Hp as <-. subst bs. exists k. auto.
Qed.

Lemma find_best_match_fuzzy_reject (title : str) (index : dict) :
  dict_get index (normalize_title (Some title)) = None ->
  find_best_match title index = None ->
  forall k p, In (k, p) index ->
    (0.6 <=? Difflib.ratio (normalize_title (Some title)) k)%float = false.
Proof.
  unfold find_best_match. generalize (normalize_title (Some title)) as t_key.
  intros t_key Hget. rewrite Hget.
  pose proof (best_loop t_key index) as Hinv.
  pose proof (best_number _ _ _ Hinv) as Hnum.
  destruct (fold_left _ index _) as [bi bs].
  destruct Hinv as [Hub Hbest]. cbn [fst snd] in *.
  destruct (0.6 <=? bs)%float eqn:Hacc.
  - intros ->. destruct Hbest as [[_ ->]|(k & p & Hp & _)]; [|discriminate].
    vm_compute in Hacc. discriminate.
  - intros _ k p Hin.
    destruct (0.6 <=? Difflib.ratio t_key k)%float eqn:Hk; [|reflexivity].
    rewrite (leb_upper _ _ _ Hk (Hub _ _ Hin) Hnum) in Hacc. discriminate.
Qed.

Lemma find_best_match_In (title : str) (index : dict) (pos : nat) :
  find_best_match title index = Some pos -> exists k, In (k, pos) index.
Proof.
  destruct (dict_get index (normalize_title (Some title))) as [i|] eqn:Hget.
  - unfold find_best_match. rewrite Hget. intros [= <-].
    eexists. eapply dict_get_In, Hget.
  - intros Hm. destruct (find_best_match_fuzzy_accept _ _ _ Hget Hm) as (k & Hin & _).
    eauto.
Qed.
End Matcher.

(** ** The matcher *)

Create HintDb re.
#[export] Hint Constructors reach : re.

Lemma reach_trans c1 c2 c3 : reach c1 c2 -> reach c2 c3 -> reach c1 c3.
Proof. induction 1; eauto with re. Qed.

Lemma reach_length c c' : reach c c' -> (length (rest c') <= length (rest c))%nat.
Proof. induction 1; simpl in *; lia. Qed.

Lemma reach_Forall (Q : char -> Prop) c c' :
  reach c c' -> Forall Q (rest c) -> Forall Q (rest c').
Proof.
  induction 1; simpl in *; [auto|].
  intros HQ. inversion HQ; subst. auto.
Qed.

(** A cursor that is reached without consuming is the same cursor. *)
Lemma reach_same_length c c' :
  reach c c' -> length (rest c') = length (rest c) -> c' = c.
Proof.
  induction 1; [reflexivity|]. simpl. intros Hlen.
  apply reach_length in H. simpl in H. lia.
Qed.

Lemma flat_map_nil {A B} (f : A -> list B) (l : list A) :
  (forall x, In x l -> f x = []) -> flat_map f l = [].
Proof.
  induction l as [|x l IH]; simpl; intros Hf; [reflexivity|].
  rewrite Hf by auto. rewrite IH by auto. reflexivity.
Qed.

Lemma star_fuel (step : cursor -> list cursor) (f f' : nat) (c : cursor) :
  (length (rest c) <= f)%nat -> (length (rest c) <= f')%nat ->
  star step f c = star step f' c.
Proof.
  revert f' c. induction f as [|f IH]; intros f' c Hf Hf'.
  - destruct f' as [|f']; simpl; [reflexivity|].
    rewrite flat_map_nil; [reflexivity|].
    intros c' _. destruct (Nat.ltb_spec (length (rest c')) (length (rest c)));
      [lia|reflexivity].
  - destruct f' as [|f']; simpl.
    + rewrite flat_map_nil; [reflexivity|].
      intros c' _. destruct (Nat.ltb_spec (length (rest c')) (length (rest c)));
        [lia|reflexivity].
    + f_equal. apply flat_map_ext. intros c'.
      destruct (Nat.ltb_spec (length (rest c')) (length (rest c)));
        [|reflexivity].
      apply IH; lia.
Qed.

Section Facts.
Context {U : UnicodeDB}.

Lemma ends_star (r : regex) (c : cursor) :
  ends (Star r) c = flat_map (round r c) (ends r c) ++ [c].
Proof.
  simpl. destruct (length (rest c)) as [|n] eqn:Hlen; simpl.
  - rewrite flat_map_nil; [reflexivity|].
    intros c' _. unfold round. rewrite Hlen.
    destruct (Nat.ltb_spec (length (rest c')) 0); [lia|reflexivity].
  - f_equal. apply flat_map_ext. intros c'. unfold round. rewrite Hlen.
    destruct (Nat.ltb_spec (length (rest c')) (S n)); [|reflexivity].
    simpl. apply star_fuel; lia.
Qed.

Lemma ends_star_nonempty (r : regex) (c : cursor) : ends (Star r) c <> [].
Proof. rewrite ends_star. destruct (flat_map _ _); discriminate. Qed.

Lemma ends_reach (r : regex) : forall c c', In c' (ends r c) -> reach c c'.
Proof.
  induction r as [|p|r1 IH1 r2 IH2|r IH|r IH| | |]; intros c c'.
  - simpl. intros [<-|[]]. constructor.
  - destruct c as [b [|x s]]; simpl; [intros []|].
    destruct (p x); [|intros []]. intros [<-|[]]. repeat constructor.
  - simpl. rewrite in_flat_map. intros (c1 & H1 & H2).
    eapply reach_trans; eauto.
  - remember (length (rest c)) as n eqn:Hn. revert c c' Hn.
    induction n as [n IHn] using lt_wf_ind. intros c c' Hn.
    rewrite ends_star, in_app_iff, in_flat_map.
    intros [(c1 & H1 & H2)|[<-|[]]]; [|constructor].
    unfold round in H2.
    destruct (Nat.ltb_spec (length (rest c1)) (length (rest c))); [|destruct H2].
    eapply reach_trans; [apply IH, H1|].
    eapply (IHn (length (rest c1))); [lia|reflexivity|exact H2].
  - simpl. rewrite in_app_iff. intros [H|[<-|[]]]; [auto|constructor].
  - simpl. destruct (before c); [intros []|intros [<-|[]]; constructor].
  - simpl. destruct (at_end c); [intros [<-|[]]; constructor|intros []].
  - simpl. destruct (at_boundary c); [intros [<-|[]]; constructor|intros []].
Qed.

Lemma first_reach (r : regex) (c c' : cursor) : first r c = Some c' -> reach c c'.
Proof.
  unfold first. intros H. apply ends_reach with r.
  destruct (ends r c); [discriminate|]. injection H as ->. left. reflexivity.
Qed.

Lemma match_at_first (r : regex) (c : cursor) :
  match_at r c
  = option_map
      (fun c' => (firstn (length (rest c) - length (rest c')) (rest c), c'))
      (first r c).
Proof. unfold match_at, first. destruct (ends r c); reflexivity. Qed.

Lemma hd_flat_map {A B} (f : A -> list B) (x : A) (l : list A) :
  f x <> [] -> hd_error (flat_map f (x :: l)) = hd_error (f x).
Proof. simpl. destruct (f x); [congruence|reflexivity]. Qed.

(** With a second part that always matches, the first end of a
    sequence is the first end of the second part after the first end
    of the first part. *)
Lemma first_seq_total (r1 r2 : regex) (c : cursor) :
  (forall c1, ends r2 c1 <> []) ->
  first (r1 @@ r2) c =
    match first r1 c with
    | Some c1 => first r2 c1
    | None => None
    end.
Proof.
  intros Htot. unfold first. simpl.
  destruct (ends r1 c) as [|c1 l]; [reflexivity|].
  apply hd_flat_map, Htot.
Qed.

Lemma ends_seq_nonempty (r1 r2 : regex) :
  (forall c, ends r1 c <> []) -> (forall c, ends r2 c <> []) ->
  forall c, ends (r1 @@ r2) c <> [].
Proof.
  intros H1 H2 c. simpl. destruct (ends r1 c) as [|c1 l] eqn:E1.
  - destruct (H1 c E1).
  - simpl. specialize (H2 c1). destruct (ends r2 c1); [congruence|discriminate].
Qed.

Lemma ends_opt_nonempty (r : regex) (c : cursor) : ends (Opt r) c <> [].
Proof. simpl. destruct (ends r c); discriminate. Qed.

Lemma ends_seq (r1 r2 : regex) (c : cursor) :
  ends (r1 @@ r2) c = flat_map (ends r2) (ends r1 c).
Proof. reflexivity. Qed.

Lemma ends_opt (r : regex) (c : cursor) : ends (Opt r) c = ends r c ++ [c].
Proof. reflexivity. Qed.

Lemma ends_cls_nil (p : char -> bool) (b : option char) :
  ends (Cls p) (Cursor b []) = [].
Proof. reflexivity. Qed.

Lemma ends_cls_cons (p : char -> bool) (b : option char) (x : char) (s : str) :
  ends (Cls p) (Cursor b (x :: s)) = if p x then [Cursor (Some x) s] else [].
Proof. reflexivity. Qed.

Lemma first_opt (r : regex) (c : cursor) :
  first (Opt r) c = Some (match first r c with Some c1 => c1 | None => c end).
Proof. unfold first. rewrite ends_opt. destruct (ends r c); reflexivity. Qed.

Lemma first_cls (p : char -> bool) (c : cursor) :
  first (Cls p) c =
    match rest c with
    | x :: s => if p x then Some (Cursor (Some x) s) else None
    | [] => None
    end.
Proof.
  unfold first. destruct c as [b [|x s]]; [reflexivity|].
  rewrite ends_cls_cons. cbn [rest]. destruct (p x); reflexivity.
Qed.

Lemma round_step (r : regex) (b : option char) (x : char) (s : str) (c' : cursor) :
  (length (rest c') <= length s)%nat ->
  round r (Cursor b (x :: s)) c' = ends (Star r) c'.
Proof.
  intros Hlen. unfold round. cbn [rest length].
  replace (length (rest c') <? S (length s))%nat with true; [reflexivity|].
  symmetry. apply Nat.ltb_lt. lia.
Qed.

Lemma first_star_cls (p : char -> bool) (b : option char) (s : str) :
  first (Star (Cls p)) (Cursor b s) = Some (skip p b s).
Proof.
  revert b. induction s as [|x s IH]; intros b.
  - reflexivity.
  - unfold first in *. rewrite ends_star, ends_cls_cons. cbn [skip].
    destruct (p x); [|reflexivity]. cbn [flat_map]. rewrite app_nil_r.
    rewrite round_step by (simpl; lia).
    specialize (IH (Some x)).
    destruct (ends (Star (Cls p)) (Cursor (Some x) s)) eqn:E; [discriminate|].
    exact IH.
Qed.

Lemma first_plus_cls (p : char -> bool) (b : option char) (s : str) :
  first (Plus (Cls p)) (Cursor b s) =
    match s with
    | x :: _ => if p x then Some (skip p b s) else None
    | [] => None
    end.
Proof.
  unfold Plus. rewrite first_seq_total by apply ends_star_nonempty.
  destruct s as [|x s]; [reflexivity|]. unfold first at 1.
  rewrite ends_cls_cons. cbn [skip].
  destruct (p x); [|reflexivity]. cbn [hd_error]. apply first_star_cls.
Qed.

Lemma skip_reach (p : char -> bool) (b : option char) (s : str) :
  reach (Cursor b s) (skip p b s).
Proof.
  revert b. induction s as [|x s IH]; intros b; simpl; [constructor|].
  destruct (p x); [constructor; apply IH|constructor].
Qed.

(** After the run, the next character is not in [p]. *)
Lemma skip_stops (p : char -> bool) (b : option char) (s : str) (x : char) :
  head (rest (skip p b s)) = Some x -> p x = false.
Proof.
  revert b. induction s as [|y s IH]; intros b; simpl; [discriminate|].
  destruct (p y) eqn:E; [apply IH|]. simpl. intros [= <-]. assumption.
Qed.

(** Either nothing was consumed, or the last character consumed is
    in [p]. *)
Lemma skip_before (p : char -> bool) (b : option char) (s : str) :
  skip p b s = Cursor b s
  \/ exists x, before (skip p b s) = Some x /\ p x = true.
Proof.
  revert b. induction s as [|y s IH]; intros b; simpl; [left; reflexivity|].
  destruct (p y) eqn:E; [|left; reflexivity]. right.
  destruct (IH (Some y)) as [->|Hx]; [|assumption].
  simpl. eauto.
Qed.
End Facts.

(** ** Character classes *)

Section Classes.
Context {U : UnicodeDB} {L : UnicodeLaws U}.

Lemma digit_word (x : char) : is_digit x = true -> is_word x = true.
Proof. intros H. unfold is_word. rewrite (digit_alnum _ H). reflexivity. Qed.

Lemma space_not_word (x : char) : isspace x = true -> is_word x = false.
Proof.
  intros H. unfold is_word. rewrite (space_not_alnum _ H). simpl.
  apply N.eqb_neq. intros ->. vm_compute in H. discriminate.
Qed.

Lemma punct_not_word (x : char) : is_punct x = true -> is_word x = false.
Proof.
  intros H. unfold is_word. rewrite (punct_not_alnum _ H). simpl.
  apply N.eqb_neq. intros ->. vm_compute in H. discriminate.
Qed.

Lemma space_not_digit (x : char) : isspace x = true -> is_digit x = false.
Proof.
  intros H. destruct (is_digit x) eqn:E; [|reflexivity].
  pose proof (digit_alnum _ E). pose proof (space_not_alnum _ H). congruence.
Qed.

Lemma punct_not_digit (x : char) : is_punct x = true -> is_digit x = false.
Proof.
  intros H. destruct (is_digit x) eqn:E; [|reflexivity].
  pose proof (digit_alnum _ E). pose proof (punct_not_alnum _ H). congruence.
Qed.

Lemma thai_digit_digit (x : char) : is_thai_digit x = true -> is_digit x = true.
Proof. intros H. unfold is_digit. rewrite (thai_digit_decimal _ H). reflexivity. Qed.
End Classes.

(** ** The numbering pattern of [normalize_title] *)

Section Numbering.
Context {U : UnicodeDB} {L : UnicodeLaws U}.

Lemma numbering_re_eq : numbering_re = (WordB @@ digits @@ tail_re)%re.
Proof. reflexivity. Qed.

Lemma tail_re_total (c : cursor) : ends tail_re c <> [].
Proof.
  apply ends_seq_nonempty; [apply ends_star_nonempty|].
  apply ends_seq_nonempty; [apply ends_opt_nonempty|apply ends_star_nonempty].
Qed.

Lemma first_digits (b : option char) (s : str) :
  first digits (Cursor b s) =
    match s with
    | x :: _ => if is_digit x then Some (skip is_digit b s) else None
    | [] => None
    end.
Proof. apply first_plus_cls. Qed.

Lemma skip_digits_settled (b : option char) (s : str) :
  settled (skip is_digit b s).
Proof.
  intros x Hx Hd. rewrite (skip_stops _ _ _ _ Hx) in Hd. discriminate.
Qed.

Lemma skip_space_settled (b : option char) (s : str) :
  settled (Cursor b s) -> settled (skip isspace b s).
Proof.
  intros Hs. destruct (skip_before isspace b s) as [->|(x & Hb & Hx)]; [assumption|].
  intros y _ _. rewrite Hb. simpl. apply space_not_word, Hx.
Qed.

Lemma first_star_progress (r : regex) (c : cursor) :
  (forall c1, In c1 (ends r c) -> (length (rest c1) < length (rest c))%nat) ->
  first (Star r) c =
    match first r c with
    | Some c1 => first (Star r) c1
    | None => Some c
    end.
Proof.
  intros Hprog. unfold first. rewrite ends_star.
  destruct (ends r c) as [|c1 l]; [reflexivity|].
  cbn [flat_map hd_error]. unfold round at 1.
  replace (length (rest c1) <? length (rest c))%nat with true
    by (symmetry; apply Nat.ltb_lt, Hprog; left; reflexivity).
  pose proof (ends_star_nonempty r c1) as Hne.
  destruct (ends (Star r) c1); [congruence|reflexivity].
Qed.

Lemma first_group (c : cursor) :
  first group_re c =
    match rest c with
    | x :: s => if dot_or_hyphen x then first digits (Cursor (Some x) s) else None
    | [] => None
    end.
Proof.
  unfold first, group_re. rewrite ends_seq. destruct c as [b [|x s]]; [reflexivity|].
  rewrite ends_cls_cons. cbn [rest]. destruct (dot_or_hyphen x); [|reflexivity].
  cbn [flat_map]. rewrite app_nil_r. reflexivity.
Qed.

Lemma group_progress (c c1 : cursor) :
  In c1 (ends group_re c) -> (length (rest c1) < length (rest c))%nat.
Proof.
  unfold group_re. rewrite ends_seq, in_flat_map. intros (c0 & H0 & H1).
  destruct c as [b [|x s]]; [destruct H0|]. rewrite ends_cls_cons in H0.
  destruct (dot_or_hyphen x); [|destruct H0]. destruct H0 as [<-|[]].
  apply ends_reach, reach_length in H1. simpl in *. lia.
Qed.

Lemma first_star_group_settled (n : nat) :
  forall c, (length (rest c) <= n)%nat -> settled c ->
  exists c', first (Star group_re) c = Some c' /\ settled c'.
Proof.
  induction n as [|n IH]; intros c Hlen Hs.
  - rewrite first_star_progress by apply group_progress. rewrite first_group.
    destruct c as [b [|x s]]; simpl in *; [eauto|lia].
  - rewrite first_star_progress by apply group_progress. rewrite first_group.
    destruct c as [b [|x s]]; cbn [rest]; [eauto|].
    destruct (dot_or_hyphen x); [|eauto]. rewrite first_digits.
    destruct s as [|y s]; [eauto|]. destruct (is_digit y) eqn:Hy; [|eauto].
    apply IH; [|apply skip_digits_settled].
    pose proof (reach_length _ _ (skip_reach is_digit (Some x) (y :: s))).
    simpl in *. lia.
Qed.

Lemma first_opt_dot_spaces_settled (c : cursor) :
  settled c ->
  exists c', first (Opt (Chr DOT) @@ Star (Cls isspace)) c = Some c' /\ settled c'.
Proof.
  intros Hs. rewrite first_seq_total by apply ends_star_nonempty.
  rewrite first_opt. unfold Chr. rewrite first_cls.
  destruct c as [b [|x s]]; cbn [rest].
  - rewrite first_star_cls. eauto.
  - destruct (DOT =? x) eqn:Hx; rewrite first_star_cls.
    + eexists. split; [reflexivity|]. apply skip_space_settled.
      intros y _ _. simpl. apply N.eqb_eq in Hx. subst x.
      apply punct_not_word. reflexivity.
    + eexists. split; [reflexivity|]. apply skip_space_settled, Hs.
Qed.

Lemma first_tail_settled (c : cursor) :
  settled c -> exists c', first tail_re c = Some c' /\ settled c'.
Proof.
  intros Hs. unfold tail_re.
  rewrite first_seq_total
    by (apply ends_seq_nonempty; [apply ends_opt_nonempty|apply ends_star_nonempty]).
  destruct (first_star_group_settled _ c (Nat.le_refl _) Hs) as (c1 & -> & H1).
  apply first_opt_dot_spaces_settled, H1.
Qed.

Lemma first_numbering (c : cursor) :
  first numbering_re c =
    if digit_at_boundary c
    then first tail_re (skip is_digit (before c) (rest c))
    else None.
Proof.
  rewrite numbering_re_eq. unfold digit_at_boundary, first at 1.
  rewrite ends_seq. change (ends WordB c) with (if at_boundary c then [c] else []).
  destruct (at_boundary c); [|reflexivity].
  cbn [flat_map andb]. rewrite app_nil_r.
  change (first (digits @@ tail_re) c = 
    if match rest c with [] => false | x :: _ => is_digit x end
    then first tail_re (skip is_digit (before c) (rest c)) else None).
  rewrite first_seq_total by apply tail_re_total.
  destruct c as [b s]. rewrite first_digits. cbn [rest before].
  destruct s as [|x s]; [reflexivity|]. destruct (is_digit x); reflexivity.
Qed.

(** Where the pattern does not match. *)
Lemma match_at_numbering_none (c : cursor) :
  digit_at_boundary c = false -> match_at numbering_re c = None.
Proof. intros H. rewrite match_at_first, first_numbering, H. reflexivity. Qed.

(** Where it matches, the match is not empty and ends at a settled
    position. *)
Lemma match_at_numbering_some (c : cursor) :
  digit_at_boundary c = true ->
  exists m c', match_at numbering_re c = Some (m, c')
    /\ m <> [] /\ reach c c' /\ (length (rest c') < length (rest c))%nat
    /\ settled c'.
Proof.
  intros H. rewrite match_at_first, first_numbering, H.
  destruct (first_tail_settled _ (skip_digits_settled (before c) (rest c)))
    as (c' & Hc' & Hs).
  rewrite Hc'. cbn [option_map].
  assert (Hr : reach c c').
  { eapply reach_trans; [|eapply first_reach, Hc'].
    destruct c. apply skip_reach. }
  assert (Hlen : (length (rest c') < length (rest c))%nat).
  { apply first_reach, reach_length in Hc'.
    unfold digit_at_boundary in H. apply andb_prop in H as [_ H].
    destruct c as [b [|x s]]; [discriminate|]. cbn [rest before skip] in *.
    rewrite H in Hc'.
    pose proof (reach_length _ _ (skip_reach is_digit (Some x) s)).
    simpl in *. lia. }
  eexists _, c'. split; [reflexivity|]. repeat split; try assumption.
  destruct (rest c) as [|x s]; [simpl in Hlen; lia|].
  destruct (length (x :: s) - length (rest c'))%nat eqn:E; [simpl in *; lia|].
  discriminate.
Qed.
End Numbering.

(** ** Substitution *)

Section Sub.
Context {U : UnicodeDB}.

Lemma sub_go_S (r : regex) (repl : str) (n : nat) (c : cursor) :
  sub_go r repl (S n) c =
    match match_at r c with
    | Some ([], _) => repl ++ skipped r repl n c
    | Some (_ :: _, c') => repl ++ sub_go r repl n c'
    | None => skipped r repl n c
    end.
Proof. reflexivity. Qed.

Lemma match_at_reach (r : regex) (c c' : cursor) (m : str) :
  match_at r c = Some (m, c') -> reach c c'.
Proof.
  rewrite match_at_first. destruct (first r c) as [c1|] eqn:E; [|discriminate].
  intros [= _ <-]. eapply first_reach, E.
Qed.

Lemma match_at_length (r : regex) (c c' : cursor) (m : str) :
  match_at r c = Some (m, c') ->
  m <> [] -> (length (rest c') < length (rest c))%nat.
Proof.
  intros H Hm. pose proof (reach_length _ _ (match_at_reach _ _ _ _ H)) as Hle.
  rewrite match_at_first in H. destruct (first r c); [|discriminate].
  injection H as <- <-.
  destruct (Nat.eq_dec (length (rest c0)) (length (rest c))) as [E|E]; [|lia].
  rewrite E, Nat.sub_diag in Hm. exfalso. apply Hm. reflexivity.
Qed.

(** What a substitution returns is made of characters of the subject
    and of the replacement. *)
Lemma sub_go_Forall (Q : char -> Prop) (r : regex) (repl : str) (n : nat) :
  Forall Q repl ->
  forall c, Forall Q (rest c) -> Forall Q (sub_go r repl n c).
Proof.
  intros Hrepl. induction n as [|n IH]; intros c Hc; [constructor|].
  rewrite sub_go_S.
  assert (Hskip : Forall Q (skipped r repl n c)).
  { unfold skipped. destruct c as [b [|x s]]; simpl in *; [constructor|].
    inversion Hc; subst. constructor; [assumption|]. apply IH. assumption. }
  destruct (match_at r c) as [[[|y m] c']|] eqn:E.
  - apply Forall_app_2; assumption.
  - apply Forall_app_2; [assumption|]. apply IH.
    eapply reach_Forall; [eapply match_at_reach, E|assumption].
  - assumption.
Qed.

Lemma re_sub_Forall (Q : char -> Prop) (r : regex) (repl s : str) :
  Forall Q repl -> Forall Q s -> Forall Q (re_sub r repl s).
Proof. intros. apply sub_go_Forall; assumption. Qed.

(** Substituting for a character class works character by character. *)
Lemma sub_go_cls (p : char -> bool) (repl : str) (n : nat) :
  forall b s, (length s < n)%nat ->
  sub_go (Cls p) repl n (Cursor b s)
  = flat_map (fun x => if p x then repl else [x]) s.
Proof.
  induction n as [|n IH]; intros b s Hlen; [lia|].
  rewrite sub_go_S, match_at_first, first_cls. unfold skipped. cbn [rest].
  destruct s as [|x s]; [reflexivity|]. cbn [flat_map].
  simpl in Hlen. destruct (p x); cbn [option_map rest].
  - replace (length (x :: s) - length s)%nat with 1%nat by (simpl; lia).
    cbn [firstn]. rewrite IH by lia. reflexivity.
  - rewrite IH by lia. reflexivity.
Qed.

Lemma re_sub_cls (p : char -> bool) (repl s : str) :
  re_sub (Cls p) repl s = flat_map (fun x => if p x then repl else [x]) s.
Proof. apply sub_go_cls. lia. Qed.

Lemma flat_map_id_on (p : char -> bool) (repl s : str) :
  Forall (fun x => p x = false) s ->
  flat_map (fun x => if p x then repl else [x]) s = s.
Proof.
  induction 1 as [|x s Hx _ IH]; [reflexivity|].
  cbn [flat_map]. rewrite Hx, IH. reflexivity.
Qed.
End Sub.

(** ** Title normalization *)

Section Normalize.
Context {U : UnicodeDB} {L : UnicodeLaws U}.

Lemma nbd_weaken (b1 b2 : option char) (s : str) :
  (is_word_opt b1 = true -> is_word_opt b2 = true) ->
  no_boundary_digit b1 s -> no_boundary_digit b2 s.
Proof. destruct s; simpl; intuition. Qed.

Lemma nbd_reach (c c' : cursor) :
  reach c c' -> no_boundary_digit (before c) (rest c) ->
  no_boundary_digit (before c') (rest c').
Proof. induction 1; simpl in *; intuition. Qed.

Lemma nbd_not_at_boundary (b : option char) (s : str) :
  no_boundary_digit b s -> digit_at_boundary (Cursor b s) = false.
Proof.
  unfold digit_at_boundary, at_boundary. destruct s as [|x s]; simpl.
  - intros _. apply andb_false_r.
  - intros [Hx _]. destruct (is_digit x) eqn:E; [|apply andb_false_r].
    rewrite (Hx eq_refl), (digit_word _ E). reflexivity.
Qed.

(** Step 3 leaves no digit at a word boundary; [q] is the last
    character written. *)
Lemma sub_numbering_nbd (n : nat) :
  forall c q, (length (rest c) < n)%nat ->
  (forall x, head (rest c) = Some x -> is_digit x = true ->
             is_word_opt (before c) = true -> is_word_opt q = true) ->
  no_boundary_digit q (sub_go numbering_re [] n c).
Proof.
  induction n as [|n IH]; intros c q Hlen Hq; [lia|].
  rewrite sub_go_S. destruct (digit_at_boundary c) eqn:Hb.
  - destruct (match_at_numbering_some c Hb) as (m & c' & -> & Hm & _ & Hlt & Hs).
    destruct m as [|y m]; [congruence|]. cbn [app].
    apply IH; [lia|]. intros x Hx Hd Hw. rewrite (Hs x Hx Hd) in Hw. discriminate.
  - rewrite (match_at_numbering_none c Hb). unfold skipped.
    destruct c as [b [|x s]]; cbn [rest before] in *; [exact I|].
    split.
    + intros Hd. apply (Hq x eq_refl Hd).
      unfold digit_at_boundary, at_boundary in Hb. cbn [rest before head] in Hb.
      simpl in Hb. rewrite Hd, (digit_word _ Hd), andb_true_r in Hb.
      destruct (is_word_opt b); [reflexivity|discriminate].
    + apply IH; [simpl in *; lia|]. intros; assumption.
Qed.

Lemma sub_numbering_id (n : nat) :
  forall b s, (length s < n)%nat -> no_boundary_digit b s ->
  sub_go numbering_re [] n (Cursor b s) = s.
Proof.
  induction n as [|n IH]; intros b s Hlen Hs; [lia|].
  rewrite sub_go_S, (match_at_numbering_none _ (nbd_not_at_boundary _ _ Hs)).
  unfold skipped. cbn [rest]. destruct s as [|x s]; [reflexivity|].
  destruct Hs as [_ Hs]. rewrite IH; [reflexivity|simpl in *; lia|assumption].
Qed.

Lemma nbd_drop_thai (b : option char) (s : str) :
  no_boundary_digit b s ->
  no_boundary_digit b (flat_map (fun x => if is_thai_digit x then [] else [x]) s).
Proof.
  revert b. induction s as [|x s IH]; intros b; [trivial|].
  intros [Hx Hs]. cbn [flat_map]. destruct (is_thai_digit x) eqn:E.
  - cbn [app]. apply IH. eapply nbd_weaken; [|exact Hs].
    intros _. apply Hx, thai_digit_digit, E.
  - cbn [app]. split; [assumption|]. apply IH, Hs.
Qed.

Lemma nbd_punct (b : option char) (s : str) :
  no_boundary_digit b s ->
  no_boundary_digit b (flat_map (fun x => if is_punct x then [SPACE] else [x]) s).
Proof.
  revert b. induction s as [|x s IH]; intros b; [trivial|].
  intros [Hx Hs]. cbn [flat_map]. destruct (is_punct x) eqn:E; cbn [app].
  - split.
    + rewrite (space_not_digit SPACE eq_refl). discriminate.
    + apply IH. eapply nbd_weaken; [|exact Hs].
      simpl. rewrite (punct_not_word _ E). discriminate.
  - split; [assumption|]. apply IH, Hs.
Qed.

Lemma nbd_lstrip (b : option char) (s : str) :
  no_boundary_digit b s -> no_boundary_digit b (lstrip s).
Proof.
  revert b. induction s as [|x s IH]; intros b; [trivial|].
  intros Hs. cbn [lstrip]. destruct (isspace x) eqn:E; [|assumption].
  apply IH. destruct Hs as [_ Hs]. eapply nbd_weaken; [|exact Hs].
  simpl. rewrite (space_not_word _ E). discriminate.
Qed.

Lemma nbd_rstrip (b : option char) (s : str) :
  no_boundary_digit b s -> no_boundary_digit b (rstrip s).
Proof.
  revert b. induction s as [|x s IH]; intros b; [trivial|].
  intros [Hx Hs]. cbn [rstrip]. specialize (IH _ Hs).
  destruct (rstrip s) as [|y t].
  - destruct (isspace x); simpl; auto.
  - split; assumption.
Qed.

(** ** White space *)

Lemma first_spaces (b : option char) (s : str) :
  first spaces_re (Cursor b s) =
    match s with
    | x :: _ => if isspace x then Some (skip isspace b s) else None
    | [] => None
    end.
Proof. apply first_plus_cls. Qed.

Lemma collapsed_after_space (a : bool) (s : str) :
  collapsed true s -> collapsed a s.
Proof.
  destruct s as [|x s]; simpl; [trivial|]. intros [Hx Hs]. split; [|assumption].
  intros E. destruct (Hx E) as [_ ?]. discriminate.
Qed.

Lemma match_at_spaces (b : option char) (x : char) (s : str) :
  isspace x = true ->
  exists m, match_at spaces_re (Cursor b (x :: s))
            = Some (x :: m, skip isspace (Some x) s).
Proof.
  intros Hx. rewrite match_at_first, first_spaces, Hx. cbn [skip option_map rest].
  rewrite Hx.
  pose proof (reach_length _ _ (skip_reach isspace (Some x) s)) as Hle.
  cbn [rest] in Hle.
  destruct (length (x :: s) - length (rest (skip isspace (Some x) s)))%nat eqn:E;
    [simpl in *; lia|].
  cbn [firstn]. eauto.
Qed.

Lemma match_at_spaces_none (b : option char) (s : str) :
  match s with x :: _ => isspace x = false | [] => True end ->
  match_at spaces_re (Cursor b s) = None.
Proof.
  intros H. rewrite match_at_first, first_spaces.
  destruct s as [|x s]; [reflexivity|]. rewrite H. reflexivity.
Qed.

Lemma sub_spaces_collapsed (n : nat) :
  forall c a, (length (rest c) < n)%nat ->
  (a = true -> forall x, head (rest c) = Some x -> isspace x = false) ->
  collapsed a (sub_go spaces_re [SPACE] n c).
Proof.
  induction n as [|n IH]; intros [b s] a Hlen Ha; [lia|].
  rewrite sub_go_S. destruct s as [|x s].
  - rewrite match_at_spaces_none by exact I. exact I.
  - destruct (isspace x) eqn:Hx.
    + destruct (match_at_spaces b x s Hx) as [m ->]. cbn [app].
      split.
      * intros _. split; [reflexivity|]. destruct a; [|reflexivity].
        rewrite (Ha eq_refl x eq_refl) in Hx. discriminate.
      * replace (isspace SPACE) with true by reflexivity. apply IH.
        -- pose proof (reach_length _ _ (skip_reach isspace (Some x) s)).
           simpl in *. lia.
        -- intros _ y Hy. eapply skip_stops, Hy.
    + rewrite match_at_spaces_none by exact Hx. unfold skipped. cbn [rest].
      split; [rewrite Hx; discriminate|]. rewrite Hx.
      apply IH; [simpl in *; lia|]. discriminate.
Qed.

Lemma sub_spaces_id (n : nat) :
  forall b s a, (length s < n)%nat -> collapsed a s ->
  sub_go spaces_re [SPACE] n (Cursor b s) = s.
Proof.
  induction n as [|n IH]; intros b s a Hlen Hs; [lia|].
  rewrite sub_go_S. destruct s as [|x s].
  - rewrite match_at_spaces_none by exact I. reflexivity.
  - destruct Hs as [Hx Hs]. destruct (isspace x) eqn:E.
    + destruct (Hx eq_refl) as [-> _].
      assert (Hskip : skip isspace (Some SPACE) s = Cursor (Some SPACE) s).
      { destruct s as [|y s]; [reflexivity|]. cbn [skip].
        destruct Hs as [Hy _]. destruct (isspace y); [|reflexivity].
        destruct (Hy eq_refl) as [_ ?]. discriminate. }
      rewrite match_at_first, first_spaces, E. cbn [skip]. rewrite E, Hskip.
      cbn [option_map rest].
      replace (length (SPACE :: s) - length s)%nat with 1%nat by (simpl; lia).
      cbn [firstn app]. rewrite (IH _ _ true); [reflexivity|simpl in *; lia|assumption].
    + rewrite match_at_spaces_none by exact E. unfold skipped. cbn [rest].
      rewrite (IH _ _ false); [reflexivity|simpl in *; lia|assumption].
Qed.

Lemma sub_spaces_nbd (n : nat) :
  forall c q, (length (rest c) < n)%nat ->
  no_boundary_digit (before c) (rest c) ->
  (is_word_opt (before c) = true -> is_word_opt q = true) ->
  no_boundary_digit q (sub_go spaces_re [SPACE] n c).
Proof.
  induction n as [|n IH]; intros [b s] q Hlen Hs Hq; [lia|].
  rewrite sub_go_S. cbn [rest before] in *. destruct s as [|x s].
  - rewrite match_at_spaces_none by exact I. exact I.
  - destruct (isspace x) eqn:Hx.
    + destruct (match_at_spaces b x s Hx) as [m ->]. cbn [app].
      split; [rewrite (space_not_digit SPACE eq_refl); discriminate|].
      pose proof (skip_reach isspace (Some x) s) as Hr.
      apply IH.
      * apply reach_length in Hr. simpl in *. lia.
      * apply (nbd_reach _ _ Hr). apply Hs.
      * destruct (skip_before isspace (Some x) s) as [->|(y & -> & Hy)]; simpl.
        -- rewrite (space_not_word _ Hx). discriminate.
        -- rewrite (space_not_word _ Hy). discriminate.
    + rewrite match_at_spaces_none by exact Hx. unfold skipped. cbn [rest].
      destruct Hs as [Hd Hs]. split; [auto|].
      apply IH; [simpl in *; lia|assumption|trivial].
Qed.

Lemma collapsed_lstrip (a : bool) (s : str) :
  collapsed a s -> collapsed a (lstrip s).
Proof.
  revert a. induction s as [|x s IH]; intros a; [trivial|].
  intros Hs. cbn [lstrip]. destruct (isspace x) eqn:E; [|assumption].
  apply IH. destruct Hs as [_ Hs]. rewrite E in Hs.
  apply collapsed_after_space, Hs.
Qed.

Lemma collapsed_rstrip (a : bool) (s : str) :
  collapsed a s -> collapsed a (rstrip s).
Proof.
  revert a. induction s as [|x s IH]; intros a; [trivial|].
  intros [Hx Hs]. cbn [rstrip]. specialize (IH _ Hs).
  destruct (rstrip s) as [|y t].
  - destruct (isspace x) eqn:E; simpl; [trivial|]. rewrite E. auto.
  - split; assumption.
Qed.

(** ** Stripping *)

Lemma Forall_lstrip (Q : char -> Prop) (s : str) :
  Forall Q s -> Forall Q (lstrip s).
Proof.
  induction 1 as [|x s Hx Hs IH]; [constructor|].
  cbn [lstrip]. destruct (isspace x); [assumption|constructor; assumption].
Qed.

Lemma Forall_rstrip (Q : char -> Prop) (s : str) :
  Forall Q s -> Forall Q (rstrip s).
Proof.
  induction 1 as [|x s Hx Hs IH]; [constructor|].
  cbn [rstrip]. destruct (rstrip s).
  - destruct (isspace x); repeat constructor; assumption.
  - constructor; assumption.
Qed.

Lemma rstrip_idem (s : str) : rstrip (rstrip s) = rstrip s.
Proof.
  induction s as [|x s IH]; [reflexivity|]. cbn [rstrip].
  destruct (rstrip s) as [|y t] eqn:E.
  - destruct (isspace x) eqn:Hx; [reflexivity|]. cbn [rstrip]. rewrite Hx. reflexivity.
  - cbn [rstrip] in *. rewrite IH. reflexivity.
Qed.

Lemma rstrip_head (x : char) (s : str) :
  isspace x = false -> exists t, rstrip (x :: s) = x :: t.
Proof.
  intros Hx. cbn [rstrip]. destruct (rstrip s); [rewrite Hx|]; eauto.
Qed.

Lemma lstrip_head (s : str) :
  match lstrip s with x :: _ => isspace x = false | [] => True end.
Proof.
  induction s as [|x s IH]; [exact I|]. cbn [lstrip].
  destruct (isspace x) eqn:E; [assumption|exact E].
Qed.

Lemma lstrip_strip (s : str) : lstrip (strip s) = strip s.
Proof.
  unfold strip. pose proof (lstrip_head s) as H.
  destruct (lstrip s) as [|x t]; [reflexivity|].
  destruct (rstrip_head x t H) as [t' ->]. cbn [lstrip]. rewrite H. reflexivity.
Qed.

Lemma strip_strip (s : str) : strip (strip s) = strip s.
Proof.
  unfold strip at 1. rewrite lstrip_strip. unfold strip. apply rstrip_idem.
Qed.
End Normalize.

(** ** The database for ASCII and Thai satisfies the laws *)

Lemma in_ranges_apart (rs1 rs2 : list (N * N)) (c : char) :
  ranges_apart rs1 rs2 = true -> in_ranges rs1 c = true -> in_ranges rs2 c = false.
Proof.
  unfold ranges_apart, in_ranges. rewrite forallb_forall, existsb_exists.
  intros Hap (r1 & Hin1 & Hc1).
  destruct (existsb _ rs2) eqn:E; [|reflexivity].
  apply existsb_exists in E as (r2 & Hin2 & Hc2).
  specialize (Hap r1 Hin1). rewrite forallb_forall in Hap. specialize (Hap r2 Hin2).
  apply andb_prop in Hc1 as [H1 H2]. apply andb_prop in Hc2 as [H3 H4].
  apply N.leb_le in H1, H2, H3, H4.
  apply orb_prop in Hap as [H|H]; apply N.ltb_lt in H; lia.
Qed.

Lemma basic_lower_lowered (s : str) : forallb Basic.lowered (Basic.lower s) = true.
Proof.
  induction s as [|x s IH]; [reflexivity|]. cbn [Basic.lower map forallb].
  fold (Basic.lower s). rewrite IH, andb_true_r.
  unfold Basic.lowered, Basic.lower_char, Basic.is_upper.
  destruct ((0x41 <=? x) && (x <=? 0x5A)) eqn:E.
  - apply andb_prop in E as [H1 H2]. apply N.leb_le in H1, H2.
    apply negb_true_iff, andb_false_iff. right. apply N.leb_gt. lia.
  - rewrite E. reflexivity.
Qed.

Lemma basic_lowered_fixed (s : str) :
  forallb Basic.lowered s = true -> Basic.lower s = s.
Proof.
  induction s as [|x s IH]; [reflexivity|]. cbn [forallb Basic.lower map].
  intros H. apply andb_prop in H as [Hx Hs]. fold (Basic.lower s). rewrite (IH Hs).
  unfold Basic.lowered in Hx. unfold Basic.lower_char.
  apply negb_true_iff in Hx. rewrite Hx. reflexivity.
Qed.

Lemma basic_laws : UnicodeLaws basic_unicode.
Proof.
  constructor; cbn [decimal isalnum lower lowered basic_unicode].
  - intros c [H1 H2]. unfold Basic.decimal.
    apply N.leb_le in H1, H2. rewrite H1, H2. reflexivity.
  - intros c H. unfold Basic.decimal. rewrite H.
    unfold is_thai_digit in H. apply andb_prop in H as [H1 H2]. apply N.leb_le in H1.
    replace (0x30 <=? c) with true by (symmetry; apply N.leb_le; lia).
    replace (c <=? 0x39) with false by (symmetry; apply N.leb_gt; lia).
    reflexivity.
  - intros c. unfold is_digit. cbn [decimal basic_unicode]. unfold Basic.decimal.
    unfold Basic.isalnum, in_ranges, Basic.alnum_ranges. cbn [existsb fst snd].
    destruct ((0x30 <=? c) && (c <=? 0x39)); [reflexivity|].
    unfold is_thai_digit. destruct ((0x0E50 <=? c) && (c <=? 0x0E59)); [|discriminate].
    intros _. rewrite !orb_true_r. reflexivity.
  - intros c. apply in_ranges_apart. reflexivity.
  - intros c. apply in_ranges_apart. reflexivity.
  - apply basic_lower_lowered.
  - apply basic_lowered_fixed.
  - reflexivity.
  - reflexivity.
Qed.

#[export] Existing Instance basic_laws.

(** ** Normalization is idempotent *)

Section Idempotent.
Context {U : UnicodeDB} {L : UnicodeLaws U}.

Lemma Forall_strip (Q : char -> Prop) (s : str) : Forall Q s -> Forall Q (strip s).
Proof. intros. apply Forall_rstrip, Forall_lstrip. assumption. Qed.

Lemma drop_class_Forall (p : char -> bool) (repl s : str) :
  Forall (fun x => p x = false) repl ->
  Forall (fun x => p x = false) (flat_map (fun x => if p x then repl else [x]) s).
Proof.
  intros Hrepl. induction s as [|x s IH]; [constructor|]. cbn [flat_map].
  apply Forall_app_2; [|assumption].
  destruct (p x) eqn:E; [assumption|]. repeat constructor. assumption.
Qed.

Lemma forallb_Forall (p : char -> bool) (s : str) :
  forallb p s = true <-> Forall (fun x => p x = true) s.
Proof. rewrite forallb_forall, List.Forall_forall. reflexivity. Qed.

Lemma normalize_title_normal (text : option str) : normal (normalize_title text).
Proof.
  destruct text as [text|]; cbn [normalize_title].
  2:{ split; try constructor; reflexivity. }
  set (x := lower (strip text)).
  set (r1 := re_sub numbering_re [] x).
  set (r2 := re_sub thai_digit_re [] r1).
  set (r3 := re_sub punct_re [SPACE] r2).
  set (r4 := re_sub spaces_re [SPACE] r3).
  assert (Hsp : Forall (fun c => lowered c = true) [SPACE])
    by (repeat constructor; apply lowered_space).
  split.
  - apply strip_strip.
  - apply forallb_Forall, Forall_strip. unfold r4, r3, r2, r1.
    do 2 (apply re_sub_Forall; [assumption|]).
    do 2 (apply re_sub_Forall; [constructor|]).
    apply forallb_Forall, lower_lowered.
  - apply nbd_rstrip, nbd_lstrip. unfold r4, re_sub.
    apply sub_spaces_nbd; cbn [rest before]; [lia| |trivial].
    unfold r3, r2, punct_re, thai_digit_re. rewrite !re_sub_cls.
    apply nbd_punct, nbd_drop_thai. unfold r1, re_sub.
    apply sub_numbering_nbd; cbn [rest before]; [lia|].
    intros ? _ _ ?. discriminate.
  - apply Forall_strip. unfold r4, r3.
    do 2 (apply re_sub_Forall; [repeat constructor|]).
    unfold r2, thai_digit_re. rewrite re_sub_cls. apply drop_class_Forall. constructor.
  - apply Forall_strip. unfold r4.
    apply re_sub_Forall; [repeat constructor|].
    unfold r3, punct_re. rewrite re_sub_cls. apply drop_class_Forall.
    repeat constructor.
  - apply collapsed_rstrip, collapsed_lstrip. unfold r4, re_sub.
    apply sub_spaces_collapsed; [cbn [rest]; lia|]. discriminate.
Qed.

Lemma normalize_title_fixed (r : str) : normal r -> normalize_title (Some r) = r.
Proof.
  intros [Hstrip Hlow Hdig Hthai Hpunct Hspaces]. cbn [normalize_title].
  rewrite Hstrip, (lowered_fixed _ Hlow).
  unfold re_sub at 4. rewrite sub_numbering_id by (lia || assumption).
  unfold thai_digit_re, punct_re. rewrite !re_sub_cls.
  rewrite (flat_map_id_on is_thai_digit) by assumption.
  rewrite (flat_map_id_on is_punct) by assumption.
  unfold re_sub. rewrite (sub_spaces_id _ _ _ false) by (lia || assumption).
  assumption.
Qed.
End Idempotent.

(** C3. Title normalization is idempotent: normalizing a normalized title
    returns it unchanged, for every input, [None] included. *)
Theorem normalize_title_idempotent {U : UnicodeDB} (L : UnicodeLaws U) (text : option str) :
  normalize_title (Some (normalize_title text)) = normalize_title text.
Proof. apply normalize_title_fixed, normalize_title_normal. Qed.

Lemma normalize_title_idempotent_witness :
  normalize_title (Some (normalize_title (Some (py "1.2 Hello, World (๑)"))))
  = normalize_title (Some (py "1.2 Hello, World (๑)")).
Proof. apply (normalize_title_idempotent basic_laws). Defined.

(** ** The title matcher *)

(** C1. When the normalized template title is a key of the source index,
    [find_best_match] returns the position stored under it, whatever
    else the index holds. *)
Theorem find_best_match_exact {U : UnicodeDB}
    (template_title : str) (source_index : dict) (pos : nat) :
  dict_get source_index (normalize_title (Some template_title)) = Some pos ->
  find_best_match template_title source_index = Some pos.
Proof. intros Hget. unfold find_best_match. rewrite Hget. reflexivity. Qed.

Lemma find_best_match_exact_witness :
  find_best_match (py "1.1 Background") decoy_index = Some 1%nat.
Proof. apply find_best_match_exact. vm_compute. reflexivity. Defined.

(** C2. When the normalized template title is not a key of the index,
    [find_best_match] returns a position exactly when some indexed title
    has a ratio of at least 0.6 with it, and the position returned
    belongs to a title whose ratio is at least 0.6 and is exceeded by no
    other indexed title. *)
Theorem find_best_match_fuzzy {U : UnicodeDB}
    (template_title : str) (source_index : dict) :
  let t_key := normalize_title (Some template_title) in
  let score := Difflib.ratio t_key in
  dict_get source_index t_key = None ->
  (forall pos, find_best_match template_title source_index = Some pos ->
     exists s_key, In (s_key, pos) source_index
       /\ (0.6 <=? score s_key)%float = true
       /\ forall k p, In (k, p) source_index ->
            (score s_key <? score k)%float = false)
  /\ ((exists pos, find_best_match template_title source_index = Some pos)
      <-> exists k p, In (k, p) source_index /\ (0.6 <=? score k)%float = true).
Proof.
  intros t_key score Hget. split.
  - intros pos Hm. exact (find_best_match_fuzzy_accept _ _ _ Hget Hm).
  - split.
    + intros [pos Hm].
      destruct (find_best_match_fuzzy_accept _ _ _ Hget Hm) as (k & Hin & Hk & _).
      eauto.
    + intros (k & p & Hin & Hk).
      destruct (find_best_match template_title source_index) as [pos|] eqn:Hm; [eauto|].
      pose proof (find_best_match_fuzzy_reject _ _ Hget Hm k p Hin) as Hrej.
      fold t_key in Hrej. fold score in Hrej. congruence.
Qed.

Lemma find_best_match_fuzzy_witness :
  (exists pos, find_best_match (py "abcde") [(py "abcxy", 7%nat)] = Some pos)
  <-> exists k p, In (k, p) [(py "abcxy", 7%nat)]
        /\ (0.6 <=? Difflib.ratio (normalize_title (Some (py "abcde"))) k)%float = true.
Proof.
  apply (find_best_match_fuzzy (py "abcde") [(py "abcxy", 7%nat)]).
  vm_compute. reflexivity.
Defined.

(** The boundary: a ratio of exactly 0.6 is accepted, 0.59 is not and
    0.61 is. *)
Example ratio_at_threshold :
  Difflib.matches (py "abcde") (py "abcxy") = 3%nat
  /\ find_best_match (py "abcde") [(py "abcxy", 7%nat)] = Some 7%nat.
Proof. vm_compute. split; reflexivity. Qed.

Example ratio_below_threshold :
  let a := repeat_char 59 "a" ++ repeat_char 41 "b" in
  let b := repeat_char 59 "a" ++ repeat_char 41 "c" in
  Difflib.matches a b = 59%nat /\ find_best_match a [(b, 0%nat)] = None.
Proof. vm_compute. split; reflexivity. Qed.

Example ratio_above_threshold :
  let a := repeat_char 61 "a" ++ repeat_char 39 "b" in
  let b := repeat_char 61 "a" ++ repeat_char 39 "c" in
  Difflib.matches a b = 61%nat /\ find_best_match a [(b, 0%nat)] = Some 0%nat.
Proof. vm_compute. split; reflexivity. Qed.

(** ** The title index *)

(** C10. The index has no entry for the empty normalized title, so a
    section with an empty normalized title is never returned by
    [find_best_match]; every section with a normalized title that is
    not empty has that title as a key of the index, which maps it to
    the last section with that normalized title, at its own position
    or after it; a key maps to the last section with that normalized
    title; every position stored is a position of the section list. *)
Theorem build_title_index_spec {U : UnicodeDB} (sections : list Sec) :
  dict_get (build_title_index sections) [] = None
  /\ (forall template_title pos,
        find_best_match template_title (build_title_index sections) = Some pos ->
        exists sec, sections !! pos = Some sec /\ norm_title sec <> [])
  /\ (forall j sec,
        sections !! j = Some sec -> norm_title sec <> [] ->
        exists pos,
          dict_get (build_title_index sections) (norm_title sec) = Some pos
          /\ last_with sections (norm_title sec) pos
          /\ (j <= pos)%nat)
  /\ (forall key pos,
        dict_get (build_title_index sections) key = Some pos ->
        last_with sections key pos)
  /\ (forall key pos,
        In (key, pos) (build_title_index sections) -> (pos < length sections)%nat).
Proof.
  split; [|split; [|split; [|split]]].
  - destruct (dict_get (build_title_index sections) []) as [i|] eqn:E; [|reflexivity].
    apply build_title_index_get in E as [Hne _]. congruence.
  - intros template_title pos Hm. apply find_best_match_In in Hm as [k Hin].
    apply build_title_index_In in Hin as (Hk & (sec & Hsec & Hn) & _).
    exists sec. split; [assumption|]. congruence.
  - intros j sec Hj Hkey.
    destruct (build_title_index_present sections (norm_title sec) j sec Hkey Hj eq_refl)
      as [pos Hpos].
    exists pos. split; [exact Hpos|].
    apply build_title_index_get in Hpos as [_ Hlast]. split; [exact Hlast|].
    destruct Hlast as [_ Hafter].
    destruct (le_lt_dec j pos) as [Hle|Hlt]; [exact Hle|].
    exfalso. exact (Hafter j sec Hlt Hj eq_refl).
  - intros key pos H. apply build_title_index_get in H as [_ H]. exact H.
  - intros key pos H. apply build_title_index_In in H as (_ & (sec & Hsec & _) & _).
    eapply lookup_lt_Some, Hsec.
Qed.

(** Of two sections with the same normalized title the index keeps the
    second, in the place of the first. *)
Example index_keeps_last :
  let section_at (text : string) :=
    {| title := py text; norm_title := normalize_title (Some (py text)); level := 1;
       paragraphs := [] |} in
  build_title_index
    [section_at "1. Scope"%string; section_at "2. Method"%string;
     section_at "3. Scope"%string; section_at "4."%string]
  = [(py "scope", 2%nat); (py "method", 1%nat)].
Proof. vm_compute. reflexivity. Qed.

(** ** The assembler *)

Section AssemblerFacts.
Context {U : UnicodeDB}.
Variable E : Type.
Variable exn_str : E -> str.
Variable FS : Type.
Variable path_exists : FS -> str -> bool.
Variable Document : FS -> str -> E + list Paragraph.
Variable copy2 : FS -> str -> str -> FS * option E.
Variable save : OutDoc -> str -> FS -> FS * option E.
Variable add_heading : OutDoc -> str -> Z -> option OutDoc.
Variable has_style : str -> bool.
Variable raises : attribute -> Run -> Run -> bool.
Variable file_not_found : E -> bool.

Local Abbreviation merge_section' := (merge_section E add_heading has_style raises).
Local Abbreviation merge_sections' := (merge_sections E add_heading has_style raises).
Local Abbreviation merge_chapter' :=
  (merge_chapter E exn_str FS path_exists Document copy2 save add_heading has_style raises).

Lemma merge_section_count (source_sections : list Sec) (source_index : dict)
    (t_sec : Sec) (st st' : OutDoc * nat * nat) :
  merge_section' source_sections source_index st t_sec = inr st' ->
  (st'.1.2 + st'.2 = st.1.2 + st.2 + 1)%nat.
Proof.
  destruct st as [[out_doc matched] skipped]. unfold merge_section.
  destruct (find_best_match _ _) as [s_idx|].
  - destruct (source_sections !! s_idx); [|discriminate].
    intros [= <-]. simpl. lia.
  - intros [= <-]. simpl. lia.
Qed.

Lemma merge_sections_count (source_sections : list Sec) (source_index : dict)
    (template_sections : list Sec) :
  forall st st',
  merge_sections' source_sections source_index template_sections st = inr st' ->
  (st'.1.2 + st'.2 = st.1.2 + st.2 + length template_sections)%nat.
Proof.
  induction template_sections as [|t_sec more IH]; intros st st'; simpl.
  - intros [= <-]. lia.
  - destruct (merge_section' _ _ st t_sec) as [e|st1] eqn:E1; [discriminate|].
    intros H. apply IH in H. apply merge_section_count in E1. lia.
Qed.

Lemma merge_sections_error (source_sections : list Sec) (source_index : dict)
    (template_sections : list Sec) :
  forall st e,
  merge_sections' source_sections source_index template_sections st = inl e ->
  e = IndexError.
Proof.
  induction template_sections as [|t_sec more IH]; intros st e; simpl; [discriminate|].
  destruct (merge_section' _ _ st t_sec) as [e1|st1] eqn:E1.
  - intros [= <-]. destruct st as [[out_doc matched] skipped].
    unfold merge_section in E1.
    destruct (find_best_match _ _) as [s_idx|]; [|discriminate].
    destruct (source_sections !! s_idx); [discriminate|]. congruence.
  - apply IH.
Qed.

(** A position found in the index of the source sections is a position
    of the source sections, so the loop does not fail. *)
Lemma merge_sections_total (source_sections template_sections : list Sec) :
  forall st, exists st',
  merge_sections' source_sections (build_title_index source_sections)
    template_sections st = inr st'.
Proof.
  induction template_sections as [|t_sec more IH]; intros st; simpl; [eauto|].
  destruct st as [[out_doc matched] skipped]. unfold merge_section.
  destruct (find_best_match _ _) as [s_idx|] eqn:Hm; [|apply IH].
  apply find_best_match_In in Hm as [k Hin].
  apply build_title_index_In in Hin as (_ & (sec & Hsec & _) & _).
  rewrite Hsec. apply IH.
Qed.

(** C8. A template section without a match gets its heading, with the
    title and level recorded for it, no paragraph after it, and one
    more skipped section; nothing is raised. *)
Theorem unmatched_section_skipped (source_sections : list Sec) (source_index : dict)
    (out_doc : OutDoc) (matched skipped : nat) (t_sec : Sec) :
  find_best_match (title t_sec) source_index = None ->
  merge_section' source_sections source_index (out_doc, matched, skipped) t_sec
  = inr (emit_heading add_heading has_style out_doc (title t_sec) (level t_sec),
         matched, S skipped)
  /\ (forall d, add_heading out_doc (title t_sec) (level t_sec) = Some d ->
        emit_heading add_heading has_style out_doc (title t_sec) (level t_sec) = d)
  /\ (add_heading out_doc (title t_sec) (level t_sec) = None ->
        emit_heading add_heading has_style out_doc (title t_sec) (level t_sec)
        = out_doc ++
            [{| out_style :=
                  resolve_style has_style
                    (Some (HEADING ++ [SPACE] ++ str_of_Z (level t_sec)));
                out_runs :=
                  match title t_sec with
                  | [] => []
                  | _ => [new_run (title t_sec)]
                  end |}]).
Proof.
  intros Hm. split; [|split].
  - unfold merge_section. rewrite Hm. rewrite Nat.add_1_r. reflexivity.
  - intros d Hd. unfold emit_heading. rewrite Hd. reflexivity.
  - intros Hd. unfold emit_heading. rewrite Hd. reflexivity.
Qed.

(** C9. The statistics of a run that completes add up: matched plus
    skipped is the number of sections parsed from the template. *)
Theorem merge_chapter_counts (template_path source_path target_path : str)
    (fs : FS) (stats : Stats) :
  result (merge_chapter' template_path source_path target_path fs) = inr stats ->
  (matched_sections stats + skipped_sections stats
   = total_template_sections stats)%nat
  /\ exists template_doc,
       Document fs template_path = inr template_doc
       /\ total_template_sections stats = length (parse_sections template_doc).
Proof.
  unfold merge_chapter.
  destruct (path_exists fs template_path); [|discriminate].
  destruct (path_exists fs source_path); [|discriminate]. cbn [negb].
  destruct (Document fs template_path) as [e|template_doc]; [discriminate|].
  destruct (Document fs source_path) as [e|source_doc]; [discriminate|].
  destruct (merge_sections' _ _ _ _) as [e|[[out_doc matched] skipped]] eqn:Hloop;
    [discriminate|].
  destruct (backup_target _ _ _ _ _ _ _) as [fs1 printed].
  destruct (save out_doc target_path fs1) as [fs2 [e|]]; [discriminate|].
  cbn [result]. intros [= <-]. cbn.
  apply merge_sections_count in Hloop. cbn in Hloop.
  split; [lia|eauto].
Qed.

(** C6, amended.  [merge_chapter] raises its own [FileNotFoundError]
    exactly when the template or the source is missing; it names the
    template when that is missing and the source otherwise, and then
    nothing was printed and the file system is as it was: no copy, no
    save.  With both inputs present a [FileNotFoundError] can only
    come out of a library call: opening one of the two documents, or
    saving the target. *)
Theorem merge_chapter_missing_input_amended
    (template_path source_path target_path : str) (fs : FS) :
  let run := merge_chapter' template_path source_path target_path fs in
  ((exists msg, result run = inl (FileNotFoundError msg))
   <-> path_exists fs template_path = false \/ path_exists fs source_path = false)
  /\ (path_exists fs template_path = false \/ path_exists fs source_path = false ->
      result run
      = inl (FileNotFoundError
               (if path_exists fs template_path
                then py "Source not found: " ++ source_path
                else py "Template not found: " ++ template_path))
      /\ fs_after run = fs /\ output run = [])
  /\ (path_exists fs template_path = true -> path_exists fs source_path = true ->
      forall e, result run = inl e ->
      is_file_not_found file_not_found e = true ->
      exists e',
        e = Raised e' /\ file_not_found e' = true
        /\ (Document fs template_path = inl e'
            \/ Document fs source_path = inl e'
            \/ exists out_doc fs1,
                 save out_doc target_path fs1 = (fs_after run, Some e'))).
Proof.
  unfold merge_chapter.
  destruct (path_exists fs template_path) eqn:Ht; cbn [negb].
  2:{ split; [split; eauto|]. split; [|intros; discriminate].
      intros _. repeat split. }
  destruct (path_exists fs source_path) eqn:Hs; cbn [negb].
  2:{ split; [split; eauto|]. split; [|intros; discriminate].
      intros _. repeat split. }
  split; [|split; [intros [?|?]; discriminate|]].
  - split; [|intros [?|?]; discriminate].
    intros [msg H]. exfalso. revert H.
    destruct (Document fs template_path) as [e|template_doc]; [discriminate|].
    destruct (Document fs source_path) as [e|source_doc]; [discriminate|].
    destruct (merge_sections' _ _ _ _) as [e|[[out_doc matched] skipped]] eqn:Hloop.
    + apply merge_sections_error in Hloop. subst e. discriminate.
    + destruct (backup_target _ _ _ _ _ _ _) as [fs1 printed].
      destruct (save out_doc target_path fs1) as [fs2 [e|]]; discriminate.
  - intros _ _ e.
    destruct (Document fs template_path) as [e1|template_doc].
    { cbn [result]. intros [= <-] Hnf. exists e1. auto. }
    destruct (Document fs source_path) as [e1|source_doc].
    { cbn [result]. intros [= <-] Hnf. exists e1. auto. }
    destruct (merge_sections' _ _ _ _) as [e1|[[out_doc matched] skipped]] eqn:Hloop.
    { apply merge_sections_error in Hloop. subst e1.
      cbn [result]. intros [= <-] Hnf. discriminate. }
    destruct (backup_target _ _ _ _ _ _ _) as [fs1 printed].
    destruct (save out_doc target_path fs1) as [fs2 [e1|]] eqn:Hsave; [|discriminate].
    cbn [result fs_after]. intros [= <-] Hnf. exists e1.
    split; [reflexivity|]. split; [exact Hnf|]. right. right. eauto.
Qed.
End AssemblerFacts.

(** ** Paths *)

Lemma rfind_go_spec (c : char) (p : str) :
  forall i found,
  let r := OsPath.rfind_go p c i found in
  (r = found /\ Forall (fun x => x <> c) p)
  \/ ((i <= r < i + Z.of_nat (length p))%Z
      /\ nth_error p (Z.to_nat (r - i)) = Some c
      /\ Forall (fun x => x <> c) (skipn (S (Z.to_nat (r - i))) p)).
Proof.
  induction p as [|x p IH]; intros i found; cbn [OsPath.rfind_go].
  - left. split; [reflexivity|constructor].
  - destruct (IH (i + 1)%Z (if x =? c then i else found)) as [[Hr Hall]|(Hr & Hnth & Hall)].
    + cbn zeta in Hr. rewrite Hr. destruct (N.eqb_spec x c) as [->|Hne].
      * right. rewrite Z.sub_diag. cbn [length Z.to_nat nth_error skipn].
        split; [lia|]. split; [reflexivity|assumption].
      * left. split; [reflexivity|]. constructor; assumption.
    + right. cbn zeta in Hr, Hnth, Hall.
      set (r := OsPath.rfind_go p c (i + 1) (if x =? c then i else found)) in *.
      replace (Z.to_nat (r - i)) with (S (Z.to_nat (r - (i + 1)))) by lia.
      cbn [length nth_error skipn]. split; [lia|]. split; assumption.
Qed.

Lemma Forall_skipn_le {A} (Q : A -> Prop) (n m : nat) (l : list A) :
  (n <= m)%nat -> Forall Q (skipn n l) -> Forall Q (skipn m l).
Proof.
  intros Hle H. replace m with ((m - n) + n)%nat by lia.
  rewrite <- skipn_skipn. apply Forall_drop. exact H.
Qed.

(** [splitext] cuts the path in two; the extension is empty or starts
    with a dot, and has no slash: the file stays in its directory. *)
Lemma splitext_spec (p : str) :
  (OsPath.splitext p).1 ++ (OsPath.splitext p).2 = p
  /\ Forall (fun x => x <> SLASH) (OsPath.splitext p).2
  /\ ((OsPath.splitext p).2 = [] \/ head (OsPath.splitext p).2 = Some DOT).
Proof.
  unfold OsPath.splitext.
  destruct ((OsPath.rfind p SLASH <? OsPath.rfind p DOT)%Z && _) eqn:Hc; cbn [fst snd].
  2:{ rewrite app_nil_r. split; [reflexivity|]. split; [constructor|left; reflexivity]. }
  apply andb_prop in Hc as [Hlt _]. apply Z.ltb_lt in Hlt.
  split; [apply firstn_skipn|]. unfold OsPath.rfind in *.
  destruct (rfind_go_spec DOT p 0 (-1)) as [[Hd _]|(Hd & Hnth & _)];
    cbn zeta in *.
  { destruct (rfind_go_spec SLASH p 0 (-1)) as [[Hs _]|(Hs & _)]; cbn zeta in *; lia. }
  rewrite Z.sub_0_r in Hnth. split.
  - destruct (rfind_go_spec SLASH p 0 (-1)) as [[_ Hall]|(Hs & _ & Hall)];
      cbn zeta in *.
    + apply Forall_drop. exact Hall.
    + rewrite Z.sub_0_r in Hall. eapply Forall_skipn_le; [|exact Hall]. lia.
  - right. revert Hnth. generalize (Z.to_nat (OsPath.rfind_go p DOT 0 (-1))).
    clear. induction p as [|x p IH]; intros [|n]; cbn; try discriminate.
    + intros [= ->]. reflexivity.
    + apply IH.
Qed.

(** ** Backup and save *)

Section BackupFacts.
Context {U : UnicodeDB}.
Variable E : Type.
Variable exn_str : E -> str.
Variable FS : Type.
Variable path_exists : FS -> str -> bool.
Variable Document : FS -> str -> E + list Paragraph.
Variable copy2 : FS -> str -> str -> FS * option E.
Variable save : OutDoc -> str -> FS -> FS * option E.
Variable add_heading : OutDoc -> str -> Z -> option OutDoc.
Variable has_style : str -> bool.
Variable raises : attribute -> Run -> Run -> bool.

Local Abbreviation merge_chapter' :=
  (merge_chapter E exn_str FS path_exists Document copy2 save add_heading has_style raises).

(** C7. With the inputs readable and the target present, the target
    is copied to the backup path (the marker goes between the path
    without its extension and the extension) in the file system as it
    was, and the document is saved to the target in the file system
    the copy left; a copy that fails is reported on the error stream
    and the save takes place all the same. *)
Theorem backup_before_overwrite (template_path source_path target_path : str)
    (fs : FS) (template_doc source_doc : list Paragraph) :
  path_exists fs template_path = true ->
  path_exists fs source_path = true ->
  Document fs template_path = inr template_doc ->
  Document fs source_path = inr source_doc ->
  path_exists fs target_path = true ->
  let run := merge_chapter' template_path source_path target_path fs in
  let base := (OsPath.splitext target_path).1 in
  let ext := (OsPath.splitext target_path).2 in
  let backup_path := base ++ py " (backup)" ++ ext in
  let copied := copy2 fs target_path backup_path in
  exists out_doc : OutDoc,
    let saved := save out_doc target_path copied.1 in
    base ++ ext = target_path
    /\ fs_after run = saved.1
    /\ output run =
         match copied.2 with
         | None => Stdout (py "Backed up existing target to: " ++ backup_path)
         | Some e => Stderr (py "Warning: failed to backup target: " ++ exn_str e)
         end
         :: match saved.2 with
            | None => [Stdout (py "Wrote merged Chapter 1 to: " ++ target_path)]
            | Some _ => []
            end
    /\ match saved.2 with
       | None => exists stats, result run = inr stats
       | Some e => result run = inl (Raised e)
       end.
Proof.
  intros Ht Hs Htd Hsd Htarget run base ext backup_path copied.
  unfold run, merge_chapter. rewrite Ht, Hs, Htd, Hsd. cbn [negb].
  destruct (merge_sections_total E add_heading has_style raises
              (parse_sections source_doc) (parse_sections template_doc) ([], O, O))
    as [[[out_doc matched] skipped] Hloop].
  rewrite Hloop. exists out_doc.
  unfold backup_target, backup_path_of. rewrite Htarget.
  destruct (OsPath.splitext target_path) as [base' ext'] eqn:Hsplit.
  pose proof (splitext_spec target_path) as (Hcat & _). rewrite Hsplit in Hcat.
  subst base ext backup_path copied. cbn [fst snd] in *.
  destruct (copy2 fs target_path _) as [fs1 [e|]]; cbn [fst snd];
    destruct (save out_doc target_path fs1) as [fs2 [e'|]];
    cbn [fst snd result fs_after output app];
    repeat split; eauto.
Qed.
End BackupFacts.

(** ** A run in memory *)

(** Both headings of the template come out in order, each followed by
    the body of its source section; both count as matched. *)
Example end_to_end :
  result Demo.first_run
  = inr {| matched_sections := 2; skipped_sections := 0; total_template_sections := 2 |}
  /\ Mem.files (fs_after Demo.first_run) !! Demo.target_path
     = Some (Mem.OutFile Demo.merged)
  /\ Mem.files (fs_after Demo.first_run) !! Demo.backup_path = None.
Proof. vm_compute. repeat split; reflexivity. Qed.

(** The second run copies the output of the first to the backup path
    before it writes the target again. *)
Example second_run_backs_up :
  Mem.files (fs_after Demo.second_run) !! Demo.backup_path
  = Some (Mem.OutFile Demo.merged)
  /\ Mem.files (fs_after Demo.second_run) !! Demo.target_path
     = Some (Mem.OutFile Demo.merged)
  /\ output Demo.second_run
     = [Stdout (py "Backed up existing target to: /w/out/chapter 1 (backup).docx");
        Stdout (py "Wrote merged Chapter 1 to: /w/out/chapter 1.docx")].
Proof. vm_compute. repeat split; reflexivity. Qed.

(** A backup that cannot be written is a warning; the target is written. *)
Example failed_backup_is_a_warning :
  let run :=
    Mem.merge_chapter Demo.template_path Demo.source_path Demo.target_path
      Demo.fs_protected in
  output run
  = [Stderr (py "Warning: failed to backup target: Permission denied");
     Stdout (py "Wrote merged Chapter 1 to: /w/out/chapter 1.docx")]
  /\ Mem.files (fs_after run) !! Demo.target_path = Some (Mem.OutFile Demo.merged)
  /\ Mem.files (fs_after run) !! Demo.backup_path = None
  /\ exists stats, result run = inr stats.
Proof. vm_compute. repeat split; try reflexivity. eexists. reflexivity. Qed.

Lemma merge_chapter_counts_witness :
  (2 + 0 = 2)%nat
  /\ exists template_doc,
       Mem.Document Demo.fs0 Demo.template_path = inr template_doc
       /\ 2%nat = length (parse_sections template_doc).
Proof.
  apply (merge_chapter_counts Mem.exn Mem.exn_str Mem.fs Mem.path_exists Mem.Document
           Mem.copy2 Mem.save Mem.add_heading Mem.has_style Mem.raises
           Demo.template_path Demo.source_path Demo.target_path Demo.fs0
           {| matched_sections := 2; skipped_sections := 0;
              total_template_sections := 2 |}).
  vm_compute. reflexivity.
Defined.

Lemma unmatched_section_skipped_witness :
  merge_section Mem.exn Mem.add_heading Mem.has_style Mem.raises
    (parse_sections Demo.source_doc)
    (build_title_index (parse_sections Demo.source_doc))
    (Demo.merged, 2%nat, 0%nat) Demo.conclusion
  = inr (Demo.merged ++ [Demo.heading 1 "Conclusion"], 2%nat, 1%nat).
Proof.
  destruct (unmatched_section_skipped Mem.exn Mem.add_heading Mem.has_style Mem.raises
              (parse_sections Demo.source_doc)
              (build_title_index (parse_sections Demo.source_doc))
              Demo.merged 2%nat 0%nat Demo.conclusion) as (Hstep & Hok & _).
  - vm_compute. reflexivity.
  - rewrite Hstep. rewrite (Hok (Demo.merged ++ [Demo.heading 1 "Conclusion"])).
    + reflexivity.
    + vm_compute. reflexivity.
Defined.

Lemma backup_before_overwrite_witness :
  exists out_doc : OutDoc,
    fs_after Demo.second_run
    = (Mem.save out_doc Demo.target_path
         (Mem.copy2 (fs_after Demo.first_run) Demo.target_path Demo.backup_path).1).1
    /\ Mem.files (Mem.copy2 (fs_after Demo.first_run) Demo.target_path
                    Demo.backup_path).1 !! Demo.backup_path
       = Mem.files (fs_after Demo.first_run) !! Demo.target_path.
Proof.
  destruct (backup_before_overwrite Mem.exn Mem.exn_str Mem.fs Mem.path_exists
              Mem.Document Mem.copy2 Mem.save Mem.add_heading Mem.has_style Mem.raises
              Demo.template_path Demo.source_path Demo.target_path
              (fs_after Demo.first_run) Demo.template_doc Demo.source_doc)
    as (out_doc & _ & Hfs & _); try (vm_compute; reflexivity).
  exists out_doc. split.
  - exact Hfs.
  - vm_compute. reflexivity.
Defined.

(** C6 as stated fails: with the template and the source in place and
    the directory of the target missing, the run ends with the
    [FileNotFoundError] that saving the document raises. *)
Lemma merge_chapter_missing_input_counterexample :
  let run :=
    Disk.merge_chapter Demo.template_path Demo.source_path Demo.stray_target Demo.disk in
  Disk.path_exists Demo.disk Demo.template_path = true
  /\ Disk.path_exists Demo.disk Demo.source_path = true
  /\ result run = inl (Raised Disk.NoSuchFile)
  /\ ~ (raises_file_not_found Disk.file_not_found run
        <-> Disk.path_exists Demo.disk Demo.template_path = false
            \/ Disk.path_exists Demo.disk Demo.source_path = false).
Proof.
  intros run.
  assert (Ht : Disk.path_exists Demo.disk Demo.template_path = true)
    by (vm_compute; reflexivity).
  assert (Hs : Disk.path_exists Demo.disk Demo.source_path = true)
    by (vm_compute; reflexivity).
  assert (Hrun : result run = inl (Raised Disk.NoSuchFile))
    by (vm_compute; reflexivity).
  repeat split; try assumption.
  intros [Hmissing _].
  destruct Hmissing as [H|H]; [|congruence..].
  exists (Raised Disk.NoSuchFile). split; [exact Hrun|reflexivity].
Qed.

(** ** Runs of a character class *)

Section Runs.
Context {U : UnicodeDB}.
Variable p : char -> bool.

Lemma ends_star_cls_shape (s : str) :
  forall b, exists l,
    ends (Star (Cls p)) (Cursor b s) = skip p b s :: l /\ Forall (before_class p) l.
Proof.
  induction s as [|x s IH]; intros b.
  - exists []. split; [reflexivity|constructor].
  - rewrite ends_star, ends_cls_cons. cbn [skip]. destruct (p x) eqn:Hx.
    + cbn [flat_map]. rewrite app_nil_r, round_step by (simpl; lia).
      destruct (IH (Some x)) as (l & -> & Hl).
      exists (l ++ [Cursor b (x :: s)]). split; [reflexivity|].
      apply Forall_app_2; [assumption|]. repeat constructor.
      exists x. split; [reflexivity|assumption].
    + exists []. split; [reflexivity|constructor].
Qed.

Lemma ends_plus_cls_shape (b : option char) (x : char) (s : str) :
  p x = true ->
  exists l, ends (Plus (Cls p)) (Cursor b (x :: s)) = skip p (Some x) s :: l
            /\ Forall (before_class p) l.
Proof.
  intros Hx. unfold Plus. rewrite ends_seq, ends_cls_cons, Hx.
  cbn [flat_map]. rewrite app_nil_r. apply ends_star_cls_shape.
Qed.

Lemma ends_plus_cls_none (b : option char) (s : str) :
  match s with x :: _ => p x = false | [] => True end ->
  ends (Plus (Cls p)) (Cursor b s) = [].
Proof.
  intros H. unfold Plus. rewrite ends_seq. destruct s as [|x s]; [reflexivity|].
  rewrite ends_cls_cons, H. reflexivity.
Qed.

Lemma skip_rest_all (s : str) :
  forall b, Forall (fun x => p x = true) s -> rest (skip p b s) = [].
Proof.
  induction s as [|x s IH]; intros b H; [reflexivity|].
  inversion H; subst. cbn [skip]. rewrite H2. apply IH. assumption.
Qed.

Lemma skip_rest_app (ds t : str) :
  forall b, Forall (fun x => p x = true) ds ->
  match t with x :: _ => p x = false | [] => True end ->
  rest (skip p b (ds ++ t)) = t.
Proof.
  induction ds as [|x ds IH]; intros b H Ht.
  - destruct t as [|y t]; [reflexivity|]. cbn [app skip]. rewrite Ht. reflexivity.
  - inversion H; subst. cbn [app skip]. rewrite H2. apply IH; assumption.
Qed.

Lemma ends_outside_tail (y : char) (u : str) :
  ends_outside p (y :: u) -> ends_outside p u.
Proof. intros H u0 z ->. apply (H (y :: u0) z). reflexivity. Qed.

Lemma skip_keeps (u ds : str) :
  forall b, u <> [] -> ends_outside p u ->
  exists w, w <> [] /\ rest (skip p b (u ++ ds)) = w ++ ds.
Proof.
  induction u as [|y u IH]; intros b Hne Hout; [congruence|].
  cbn [app skip]. destruct (p y) eqn:Hy.
  - apply IH; [|eapply ends_outside_tail, Hout].
    intros ->. rewrite (Hout [] y eq_refl) in Hy. discriminate.
  - exists (y :: u). split; [discriminate|reflexivity].
Qed.
End Runs.

(** ** Searching a style name for its number *)

Section Search.
Context {U : UnicodeDB} {L : UnicodeLaws U}.

Lemma search_go_eq (r : regex) (b : option char) (s : str) :
  search_go r b s =
    match match_at r (Cursor b s) with
    | Some (m, _) => Some m
    | None =>
        match s with
        | [] => None
        | x :: s' => search_go r (Some x) s'
        end
    end.
Proof. destruct s; reflexivity. Qed.

Lemma at_end_before_digit (c : cursor) :
  before_class is_digit c -> at_end c = false.
Proof.
  intros (x & Hx & Hd). unfold at_end. destruct (rest c) as [|y [|z t]];
    [discriminate| |reflexivity].
  injection Hx as ->. apply N.eqb_neq. intros ->.
  rewrite (space_not_digit NEWLINE eq_refl) in Hd. discriminate.
Qed.

Lemma first_trailing (b : option char) (s : str) :
  first trailing_number_re (Cursor b s) =
    match s with
    | x :: s' =>
        if is_digit x && at_end (skip is_digit (Some x) s')
        then Some (skip is_digit (Some x) s') else None
    | [] => None
    end.
Proof.
  unfold first, trailing_number_re. rewrite ends_seq.
  destruct s as [|x s]; [reflexivity|]. destruct (is_digit x) eqn:Hx.
  - destruct (ends_plus_cls_shape is_digit b x s Hx) as (l & Hl & Hall).
    unfold digits. rewrite Hl. cbn [flat_map andb].
    replace (flat_map (ends Eol) l) with (@nil cursor).
    + rewrite app_nil_r. cbn [ends].
      destruct (at_end (skip is_digit (Some x) s)); reflexivity.
    + symmetry. apply flat_map_nil. intros c Hc. cbn [ends].
      rewrite at_end_before_digit; [reflexivity|].
      rewrite List.Forall_forall in Hall. apply Hall, Hc.
  - unfold digits. rewrite ends_plus_cls_none by exact Hx. reflexivity.
Qed.

Lemma firstn_length_app (ds t : str) :
  firstn (length (ds ++ t) - length t) (ds ++ t) = ds.
Proof.
  rewrite length_app. replace (length ds + length t - length t)%nat
    with (length ds) by lia.
  rewrite firstn_app, Nat.sub_diag, firstn_all. cbn [firstn]. apply app_nil_r.
Qed.

(** [(\d+)$] finds the digits a name ends with. *)
Lemma search_trailing (u ds : str) :
  forall b, ends_outside is_digit u -> ds <> [] ->
  Forall (fun x => is_digit x = true) ds ->
  search_go trailing_number_re b (u ++ ds) = Some ds.
Proof.
  induction u as [|y u IH]; intros b Hout Hne Hds; rewrite search_go_eq.
  - rewrite match_at_first, first_trailing. cbn [app].
    destruct ds as [|x ds]; [congruence|]. inversion Hds; subst.
    rewrite H1. cbn [andb].
    pose proof (skip_rest_all is_digit ds (Some x) H2) as Hrest.
    unfold at_end. rewrite Hrest. cbn [option_map]. rewrite Hrest.
    cbn [rest length]. rewrite Nat.sub_0_r.
    change (S (length ds)) with (length (x :: ds)). rewrite firstn_all. reflexivity.
  - replace (match_at trailing_number_re (Cursor b ((y :: u) ++ ds))) with
      (@None (str * cursor)).
    + cbn [app]. apply IH; [eapply ends_outside_tail, Hout|assumption|assumption].
    + symmetry. rewrite match_at_first, first_trailing. cbn [app].
      destruct (is_digit y) eqn:Hy; [|reflexivity]. cbn [andb].
      assert (Hu : u <> []).
      { intros ->. rewrite (Hout [] y eq_refl) in Hy. discriminate. }
      destruct (skip_keeps is_digit u ds (Some y) Hu (ends_outside_tail _ _ _ Hout))
        as (w & Hw & Hrest).
      unfold at_end. rewrite Hrest.
      destruct w as [|w1 w]; [congruence|]. destruct ds as [|d1 ds]; [congruence|].
      destruct w; reflexivity.
Qed.

(** [(\d+)] finds the first digits of a name. *)
Lemma search_first_digits (pre ds post : str) :
  forall b, Forall (fun x => is_digit x = false) pre -> ds <> [] ->
  Forall (fun x => is_digit x = true) ds ->
  match post with x :: _ => is_digit x = false | [] => True end ->
  search_go digits b (pre ++ ds ++ post) = Some ds.
Proof.
  induction pre as [|y pre IH]; intros b Hpre Hne Hds Hpost; rewrite search_go_eq.
  - rewrite match_at_first, first_digits. cbn [app].
    destruct ds as [|x ds]; [congruence|]. inversion Hds; subst. cbn [app].
    rewrite H1. cbn [option_map skip]. rewrite H1.
    rewrite (skip_rest_app is_digit ds post (Some x) H2 Hpost).
    cbn [rest]. f_equal. apply (firstn_length_app (x :: ds) post).
  - inversion Hpre; subst. rewrite match_at_first, first_digits. cbn [app].
    rewrite H1. cbn [option_map]. apply IH; assumption.
Qed.

Lemma int_digits_some (s : str) :
  forall acc, Forall (fun x => is_digit x = true) s ->
  exists n, int_digits s acc = Some n.
Proof.
  induction s as [|x s IH]; intros acc H; cbn [int_digits]; [eauto|].
  inversion H; subst. unfold is_digit in H2.
  destruct (decimal x); [|discriminate]. apply IH. assumption.
Qed.

Lemma py_int_some (s : str) :
  s <> [] -> Forall (fun x => is_digit x = true) s ->
  exists n, py_int s = Some n /\ (0 <= n)%Z.
Proof.
  intros Hne H. destruct (int_digits_some s 0 H) as [n Hn].
  unfold py_int. destruct s; [congruence|]. rewrite Hn.
  exists (Z.of_N n). split; [reflexivity|lia].
Qed.
End Search.

(** ** The heading classifier *)

(** C5. The style name is looked at before the text.  A style name that
    starts with [Heading] and ends with digits gives the number those
    digits write; otherwise a style name that contains the Thai word for
    heading gives the number its first digits write; in both cases the
    text of the paragraph plays no part, and the text heuristic decides
    only when the style name gives no number. *)
Theorem style_before_text {U : UnicodeDB} (L : UnicodeLaws U) (paragraph : Paragraph) :
  let style_name := default [] (par_style paragraph) in
  let latin :=
    startswith style_name HEADING = true
    /\ re_search trailing_number_re style_name <> None in
  let localized :=
    contains style_name THAI_HEADING = true
    /\ re_search digits style_name <> None in
  (forall pre ds,
      style_name = pre ++ ds ->
      startswith style_name HEADING = true ->
      ends_outside is_digit pre -> ds <> [] ->
      Forall (fun x => is_digit x = true) ds ->
      exists n, py_int ds = Some n /\ get_heading_level paragraph = Some n)
  /\ (forall pre ds post,
      style_name = pre ++ ds ++ post ->
      ~ latin ->
      contains style_name THAI_HEADING = true ->
      Forall (fun x => is_digit x = false) pre -> ds <> [] ->
      Forall (fun x => is_digit x = true) ds ->
      match post with x :: _ => is_digit x = false | [] => True end ->
      exists n, py_int ds = Some n /\ get_heading_level paragraph = Some n)
  /\ (forall other_text,
      latin \/ localized ->
      get_heading_level (with_text paragraph other_text)
      = get_heading_level paragraph)
  /\ (~ latin -> ~ localized ->
      get_heading_level paragraph
      = _heading_level_from_text (Some (par_text paragraph))).
Proof.
  intros style_name latin localized. subst latin localized.
  unfold get_heading_level, with_text. cbn [par_style par_text].
  fold style_name. unfold re_search.
  split; [|split; [|split]].
  - intros pre ds Hname Hstart Hpre Hne Hds.
    destruct (py_int_some ds Hne Hds) as (n & Hn & _). exists n. split; [exact Hn|].
    assert (Hs : search_go trailing_number_re None style_name = Some ds)
      by (rewrite Hname; apply search_trailing; assumption).
    rewrite Hstart, Hs. exact Hn.
  - intros pre ds post Hname Hlatin Hthai Hpre Hne Hds Hpost.
    destruct (py_int_some ds Hne Hds) as (n & Hn & _). exists n. split; [exact Hn|].
    assert (Hs : search_go digits None style_name = Some ds)
      by (rewrite Hname; apply search_first_digits; assumption).
    rewrite Hthai, Hs.
    destruct (startswith style_name HEADING) eqn:Hstart; [|exact Hn].
    destruct (search_go trailing_number_re None style_name) eqn:Hm; [|exact Hn].
    exfalso. apply Hlatin. split; [reflexivity|discriminate].
  - intros other_text [[Hstart Hm]|[Hthai Hm]].
    + rewrite Hstart.
      destruct (search_go trailing_number_re None style_name); [reflexivity|congruence].
    + rewrite Hthai.
      destruct (if startswith style_name HEADING then _ else None); [reflexivity|].
      destruct (search_go digits None style_name); [reflexivity|congruence].
  - intros Hlatin Hlocal.
    assert (H1 : (if startswith style_name HEADING
                  then search_go trailing_number_re None style_name else None) = None).
    { destruct (startswith style_name HEADING); [|reflexivity].
      destruct (search_go trailing_number_re None style_name) eqn:Hm; [|reflexivity].
      exfalso. apply Hlatin. split; [reflexivity|discriminate]. }
    assert (H2 : (if contains style_name THAI_HEADING
                  then search_go digits None style_name else None) = None).
    { destruct (contains style_name THAI_HEADING); [|reflexivity].
      destruct (search_go digits None style_name) eqn:Hm; [|reflexivity].
      exfalso. apply Hlocal. split; [reflexivity|discriminate]. }
    rewrite H1, H2.
    destruct (_heading_level_from_text (Some (par_text paragraph))); reflexivity.
Qed.

Lemma style_before_text_witness :
  get_heading_level styled_heading = Some 2%Z
  /\ _heading_level_from_text (Some (par_text styled_heading)) = Some 3%Z.
Proof.
  split; [|vm_compute; reflexivity].
  destruct (style_before_text basic_laws styled_heading) as (Hlatin & _).
  destruct (Hlatin (py "Heading ") (py "2")) as (n & Hn & Hlevel).
  - vm_compute. reflexivity.
  - vm_compute. reflexivity.
  - intros u0 z Hu. apply (f_equal (@rev char)) in Hu.
    rewrite rev_app_distr in Hu. cbn [rev app] in Hu.
    assert (Hz : head (rev (py "Heading ")) = Some z) by (rewrite Hu; reflexivity).
    vm_compute in Hz. injection Hz as <-. reflexivity.
  - discriminate.
  - repeat constructor.
  - vm_compute in Hn. injection Hn as <-. exact Hlevel.
Defined.

Example localized_style :
  get_heading_level
    {| par_style := Some (py "หัวเรื่อง ๓"); par_text := py "1.1 x"; par_runs := [] |}
  = Some 3%Z.
Proof. vm_compute. reflexivity. Qed.

(** ** Words and literals *)

Lemma split_go_hd (s : str) :
  forall cur,
  cur <> [] \/ match s with x :: _ => isspace x = false | [] => False end ->
  hd [] (split_go s cur) = rev cur ++ first_word s.
Proof.
  induction s as [|c s IH]; intros cur H; cbn [split_go first_word].
  - destruct H as [H|[]]. destruct cur; [congruence|].
    cbn [hd]. rewrite app_nil_r. reflexivity.
  - destruct (isspace c) eqn:Hc.
    + destruct H as [H|H]; [|congruence]. destruct cur; [congruence|].
      cbn [hd]. rewrite app_nil_r. reflexivity.
    + rewrite IH by (left; discriminate). cbn [rev]. rewrite <- app_assoc. reflexivity.
Qed.

Lemma split_hd (x : char) (s : str) :
  isspace x = false -> hd [] (split (x :: s)) = first_word (x :: s).
Proof. intros Hx. unfold split. rewrite split_go_hd by (right; exact Hx). reflexivity. Qed.

Lemma first_word_app (u v : str) :
  Forall (fun x => isspace x = false) u -> first_word (u ++ v) = u ++ first_word v.
Proof.
  induction 1 as [|x u Hx _ IH]; [reflexivity|].
  cbn [app first_word]. rewrite Hx, IH. reflexivity.
Qed.

Section Literals.
Context {U : UnicodeDB}.

Lemma ends_lit_app (s t : str) :
  forall b, exists b', ends (Lit s) (Cursor b (s ++ t)) = [Cursor b' t].
Proof.
  induction s as [|x s IH]; intros b; cbn [Lit app].
  - exists b. reflexivity.
  - rewrite ends_seq. unfold Chr. rewrite ends_cls_cons, N.eqb_refl.
    cbn [flat_map]. rewrite app_nil_r. apply IH.
Qed.

Lemma ends_lit_none (lit : str) :
  forall b s, startswith s lit = false -> ends (Lit lit) (Cursor b s) = [].
Proof.
  induction lit as [|x lit IH]; intros b s H.
  - destruct s; discriminate.
  - cbn [Lit]. rewrite ends_seq. unfold Chr. destruct s as [|y s]; [reflexivity|].
    rewrite ends_cls_cons. cbn [startswith] in H.
    destruct (x =? y); [|reflexivity]. cbn [flat_map andb] in *.
    rewrite app_nil_r. apply IH, H.
Qed.

Lemma first_in (r : regex) (c c' : cursor) :
  first r c = Some c' -> In c' (ends r c).
Proof.
  unfold first. destruct (ends r c); [discriminate|]. intros [= ->]. left. reflexivity.
Qed.

Lemma in_ends_seq (r1 r2 : regex) (c c1 c2 : cursor) :
  In c1 (ends r1 c) -> In c2 (ends r2 c1) -> In c2 (ends (r1 @@ r2) c).
Proof. intros H1 H2. rewrite ends_seq, in_flat_map. eauto. Qed.

Lemma in_ends_star_refl (r : regex) (c : cursor) : In c (ends (Star r) c).
Proof. rewrite ends_star, in_app_iff. right. left. reflexivity. Qed.

Lemma in_ends_star_step (r : regex) (c c1 c2 : cursor) :
  In c1 (ends r c) -> (length (rest c1) < length (rest c))%nat ->
  In c2 (ends (Star r) c1) -> In c2 (ends (Star r) c).
Proof.
  intros H1 Hlt H2. rewrite ends_star, in_app_iff. left.
  rewrite in_flat_map. exists c1. split; [assumption|]. unfold round.
  replace (length (rest c1) <? length (rest c))%nat with true; [assumption|].
  symmetry. apply Nat.ltb_lt, Hlt.
Qed.

Lemma re_match_none (r : regex) (s : str) :
  ends r (Cursor None s) = [] -> re_match r s = None.
Proof. intros H. unfold re_match, match_at. rewrite H. reflexivity. Qed.

Lemma re_match_some (r : regex) (s : str) (c : cursor) :
  In c (ends r (Cursor None s)) -> exists m, re_match r s = Some m.
Proof.
  intros H. unfold re_match, match_at.
  destruct (ends r (Cursor None s)); [destruct H|]. cbn. eauto.
Qed.

Lemma ends_bol (r : regex) (s : str) :
  ends (Bol @@ r) (Cursor None s) = ends r (Cursor None s).
Proof. rewrite ends_seq. cbn [ends before flat_map]. apply app_nil_r. Qed.
End Literals.

(** ** Numbered headings *)

Section Numbered.
Context {U : UnicodeDB} {L : UnicodeLaws U}.

Lemma numbered_re_eq :
  numbered_re = (Bol @@ digits @@ Star dot_group @@ Cls is_terminator)%re.
Proof. reflexivity. Qed.

Lemma terminator_not_digit (x : char) : is_terminator x = true -> is_digit x = false.
Proof.
  unfold is_terminator. intros H.
  apply orb_prop in H as [H|H]; [apply orb_prop in H as [H|H]|].
  - apply N.eqb_eq in H. subst x. apply punct_not_digit. reflexivity.
  - apply N.eqb_eq in H. subst x. apply punct_not_digit. reflexivity.
  - apply space_not_digit, H.
Qed.

Lemma digit_not_terminator (x : char) : is_digit x = true -> is_terminator x = false.
Proof.
  intros H. destruct (is_terminator x) eqn:E; [|reflexivity].
  rewrite (terminator_not_digit _ E) in H. discriminate.
Qed.

Lemma digit_not_space (x : char) : is_digit x = true -> isspace x = false.
Proof.
  intros H. destruct (isspace x) eqn:E; [|reflexivity].
  rewrite (space_not_digit _ E) in H. discriminate.
Qed.

Lemma dot_not_digit : is_digit DOT = false.
Proof. apply punct_not_digit. reflexivity. Qed.

Lemma dotted_tail_next (others : list str) (s : str) :
  no_digit_next s -> no_digit_next (dotted_tail others ++ s).
Proof. destruct others; [trivial|]. intros _. exact dot_not_digit. Qed.

Lemma ends_digits_first (b : option char) (d s : str) :
  component d -> no_digit_next s ->
  exists b', In (Cursor b' s) (ends digits (Cursor b (d ++ s))).
Proof.
  intros [Hne Hd] Hs. destruct d as [|x d]; [congruence|]. inversion Hd; subst.
  pose proof (first_digits b ((x :: d) ++ s)) as Hf. cbn [app] in Hf.
  rewrite H1 in Hf. apply first_in in Hf. cbn [skip] in Hf. rewrite H1 in Hf.
  pose proof (skip_rest_app is_digit d s (Some x) H2 Hs) as Hrest.
  destruct (skip is_digit (Some x) (d ++ s)) as [b' s']. cbn [rest] in Hrest.
  subst s'. eauto.
Qed.

Lemma ends_dot_group (b : option char) (d s : str) :
  component d -> no_digit_next s ->
  exists b', In (Cursor b' s) (ends dot_group (Cursor b (DOT :: d ++ s))).
Proof.
  intros Hd Hs. destruct (ends_digits_first (Some DOT) d s Hd Hs) as [b' Hin].
  exists b'. eapply in_ends_seq; [|exact Hin].
  unfold Chr. rewrite ends_cls_cons, N.eqb_refl. left. reflexivity.
Qed.

Lemma ends_star_dot_groups (others : list str) (s : str) :
  Forall component others -> no_digit_next s ->
  forall b, exists b',
    In (Cursor b' s) (ends (Star dot_group) (Cursor b (dotted_tail others ++ s))).
Proof.
  intros Hall Hs. induction Hall as [|d others Hd _ IH]; intros b.
  - exists b. apply in_ends_star_refl.
  - unfold dotted_tail. cbn [map concat]. fold (dotted_tail others).
    rewrite <- !app_assoc. cbn [app].
    destruct (ends_dot_group b d (dotted_tail others ++ s) Hd
                (dotted_tail_next _ _ Hs)) as [b1 H1].
    destruct (IH b1) as [b' H2]. exists b'.
    eapply in_ends_star_step; [exact H1| |exact H2].
    cbn [rest length]. rewrite !length_app. lia.
Qed.

(** The pattern matches a dotted number that a terminator follows. *)
Lemma numbered_matches (comps : list str) (t : char) (tail : str) :
  comps <> [] -> Forall component comps -> is_terminator t = true ->
  exists m, re_match numbered_re (dotted comps ++ t :: tail) = Some m.
Proof.
  intros Hne Hall Ht. destruct comps as [|d others]; [congruence|].
  inversion Hall; subst. cbn [dotted]. rewrite <- app_assoc.
  assert (Hnext : no_digit_next (t :: tail)) by (apply terminator_not_digit, Ht).
  destruct (ends_digits_first None d (dotted_tail others ++ t :: tail) H1
              (dotted_tail_next _ _ Hnext)) as [b1 Hin1].
  destruct (ends_star_dot_groups others (t :: tail) H2 Hnext b1) as [b2 Hin2].
  eapply re_match_some. rewrite numbered_re_eq, ends_bol.
  eapply in_ends_seq; [exact Hin1|]. eapply in_ends_seq; [exact Hin2|].
  rewrite ends_cls_cons, Ht. left. reflexivity.
Qed.

(** Where no terminator stands, the rest of the pattern fails. *)
Lemma ends_groups_terminator_none (c : cursor) :
  match rest c with x :: _ => is_terminator x = false | [] => True end ->
  ends (Star dot_group @@ Cls is_terminator) c = [].
Proof.
  intros H. rewrite ends_seq, ends_star.
  assert (Hg : ends dot_group c = []).
  { unfold dot_group. rewrite ends_seq. unfold Chr.
    destruct c as [b [|x s]]; [reflexivity|]. rewrite ends_cls_cons.
    cbn [rest] in H. unfold is_terminator in H.
    destruct (N.eqb_spec DOT x) as [<-|_]; [discriminate|reflexivity]. }
  rewrite Hg. cbn [flat_map app]. rewrite app_nil_r.
  destruct c as [b [|x s]]; [reflexivity|]. rewrite ends_cls_cons.
  cbn [rest] in H. rewrite H. reflexivity.
Qed.

Lemma numbered_no_digit (s : str) :
  no_digit_next s -> re_match numbered_re s = None.
Proof.
  intros H. apply re_match_none. rewrite numbered_re_eq, ends_bol, ends_seq.
  unfold digits. rewrite ends_plus_cls_none; [reflexivity|].
  destruct s; [exact I|exact H].
Qed.

Lemma numbered_unterminated (ds tail : str) :
  component ds ->
  match tail with
  | x :: _ => is_digit x = false /\ is_terminator x = false
  | [] => True
  end ->
  re_match numbered_re (ds ++ tail) = None.
Proof.
  intros [Hne Hds] Htail. apply re_match_none.
  rewrite numbered_re_eq, ends_bol, ends_seq.
  destruct ds as [|x ds]; [congruence|]. inversion Hds; subst. cbn [app].
  destruct (ends_plus_cls_shape is_digit None x (ds ++ tail) H1) as (l & Hl & Hall).
  unfold digits. rewrite Hl. cbn [flat_map].
  rewrite ends_groups_terminator_none.
  - cbn [app]. apply flat_map_nil. intros c Hc.
    rewrite List.Forall_forall in Hall. destruct (Hall c Hc) as (y & Hy & Hd).
    apply ends_groups_terminator_none. destruct (rest c); [exact I|].
    injection Hy as ->. apply digit_not_terminator, Hd.
  - rewrite (skip_rest_app is_digit ds tail (Some x) H2).
    + destruct tail; [exact I|]. apply Htail.
    + destruct tail; [exact I|]. apply Htail.
Qed.

(** ** Counting the numbers of a word *)

Lemma findall_go_S (r : regex) (n : nat) (c : cursor) :
  findall_go r (S n) c =
    match match_at r c with
    | Some ([], _) =>
        [] :: match rest c with
              | [] => []
              | x :: s => findall_go r n (Cursor (Some x) s)
              end
    | Some (m, c') => m :: findall_go r n c'
    | None =>
        match rest c with
        | [] => []
        | x :: s => findall_go r n (Cursor (Some x) s)
        end
    end.
Proof. reflexivity. Qed.

Lemma findall_no_digits (w : str) :
  Forall (fun x => is_digit x = false) w ->
  forall n b, findall_go digits n (Cursor b w) = [].
Proof.
  induction 1 as [|x w Hx _ IH]; intros [|n] b; [reflexivity| |reflexivity|].
  - rewrite findall_go_S, match_at_first, first_digits. reflexivity.
  - rewrite findall_go_S, match_at_first, first_digits, Hx. cbn [option_map rest].
    apply IH.
Qed.

(** A run of digits is one match, and the scan goes on after it. *)
Lemma findall_component (d s : str) (n : nat) (b : option char) :
  component d -> no_digit_next s ->
  exists b', findall_go digits (S n) (Cursor b (d ++ s))
             = d :: findall_go digits n (Cursor b' s).
Proof.
  intros [Hne Hd] Hs. destruct d as [|x d]; [congruence|]. inversion Hd; subst.
  rewrite findall_go_S, match_at_first, first_digits. cbn [app].
  rewrite H1. cbn [option_map skip rest]. rewrite H1.
  pose proof (skip_rest_app is_digit d s (Some x) H2 Hs) as Hrest.
  destruct (skip is_digit (Some x) (d ++ s)) as [b' s']. cbn [rest] in *. subst s'.
  exists b'.
  replace (firstn (length (x :: d ++ s) - length s) (x :: d ++ s)) with (x :: d).
  - reflexivity.
  - symmetry. apply (firstn_length_app (x :: d) s).
Qed.

Lemma findall_dotted_tail (others : list str) (w : str) :
  Forall component others -> Forall (fun x => is_digit x = false) w ->
  forall n b, (length (dotted_tail others ++ w) < n)%nat ->
  length (findall_go digits n (Cursor b (dotted_tail others ++ w))) = length others.
Proof.
  intros Hall Hw. induction Hall as [|d others Hd _ IH]; intros n b Hlen.
  - cbn [dotted_tail map concat app]. rewrite findall_no_digits by assumption.
    reflexivity.
  - unfold dotted_tail in *. cbn [map concat] in *. fold (dotted_tail others) in *.
    rewrite <- !app_assoc in *. cbn [app] in *.
    destruct n as [|[|n]]; [simpl in Hlen; lia|simpl in Hlen; lia|].
    rewrite findall_go_S, match_at_first, first_digits, dot_not_digit.
    cbn [option_map rest].
    assert (Hnext : no_digit_next (dotted_tail others ++ w)).
    { destruct others; [|exact dot_not_digit].
      cbn [dotted_tail map concat app]. destruct Hw; [exact I|assumption]. }
    destruct (findall_component d (dotted_tail others ++ w) n (Some DOT) Hd Hnext)
      as [b' ->].
    cbn [length]. f_equal. apply IH.
    destruct Hd as [Hne _]. destruct d; [congruence|].
    simpl in Hlen. rewrite length_app in Hlen. lia.
Qed.

Lemma findall_dotted (comps : list str) (w : str) :
  comps <> [] -> Forall component comps ->
  Forall (fun x => is_digit x = false) w ->
  length (re_findall digits (dotted comps ++ w)) = length comps.
Proof.
  intros Hne Hall Hw. destruct comps as [|d others]; [congruence|].
  inversion Hall; subst. cbn [dotted]. rewrite <- app_assoc. unfold re_findall.
  assert (Hnext : no_digit_next (dotted_tail others ++ w)).
  { destruct others; [|exact dot_not_digit].
    cbn [dotted_tail map concat app]. destruct Hw; [exact I|assumption]. }
  destruct (findall_component d (dotted_tail others ++ w)
              (length (d ++ dotted_tail others ++ w)) None H1 Hnext) as [b' ->].
  cbn [length]. f_equal. apply findall_dotted_tail; [assumption|assumption|].
  destruct H1 as [Hd _]. destruct d; [congruence|].
  simpl. rewrite !length_app. lia.
Qed.

Lemma dotted_no_space (comps : list str) :
  Forall component comps -> Forall (fun x => isspace x = false) (dotted comps).
Proof.
  assert (Hc : forall d, component d -> Forall (fun x => isspace x = false) d).
  { intros d [_ Hd]. eapply List.Forall_impl; [|exact Hd].
    intros x Hx. apply digit_not_space, Hx. }
  assert (Ht : forall others, Forall component others ->
               Forall (fun x => isspace x = false) (dotted_tail others)).
  { induction 1 as [|d others Hd _ IH]; [constructor|].
    unfold dotted_tail. cbn [map concat]. constructor; [reflexivity|].
    apply Forall_app_2; [apply Hc, Hd|exact IH]. }
  intros H. destruct H as [|d others Hd Hall]; [constructor|].
  cbn [dotted]. apply Forall_app_2; [apply Hc, Hd|apply Ht, Hall].
Qed.
End Numbered.

(** ** Chapter headings *)

Section Chapter.
Context {U : UnicodeDB} {L : UnicodeLaws U}.

Lemma chapter_matches (ws : str) (d : char) (tail : str) :
  Forall (fun x => isspace x = true) ws -> is_digit d = true ->
  exists m, re_match chapter_re (CHAPTER ++ ws ++ d :: tail) = Some m.
Proof.
  intros Hws Hd. unfold chapter_re.
  destruct (ends_lit_app CHAPTER (ws ++ d :: tail) None) as [b1 Hlit].
  pose proof (first_in _ _ _ (first_star_cls isspace b1 (ws ++ d :: tail))) as Hsp.
  pose proof (skip_rest_app isspace ws (d :: tail) b1 Hws (digit_not_space d Hd))
    as Hrest.
  destruct (skip isspace b1 (ws ++ d :: tail)) as [b2 s2]. cbn [rest] in Hrest.
  subst s2.
  destruct (ends_plus_cls_shape is_digit b2 d tail Hd) as (l & Hl & _).
  eapply re_match_some. rewrite ends_bol.
  eapply in_ends_seq; [rewrite Hlit; left; reflexivity|].
  eapply in_ends_seq; [exact Hsp|]. unfold digits. rewrite Hl. left. reflexivity.
Qed.

Lemma chapter_none (s : str) :
  startswith s CHAPTER = false -> re_match chapter_re s = None.
Proof.
  intros H. apply re_match_none. unfold chapter_re.
  rewrite ends_bol, ends_seq, (ends_lit_none _ _ _ H). reflexivity.
Qed.

Lemma digit_not_chapter (d : char) (s : str) :
  is_digit d = true -> startswith (d :: s) CHAPTER = false.
Proof.
  intros Hd. unfold CHAPTER. cbn [startswith].
  destruct (N.eqb_spec 3610 d) as [<-|_]; [|reflexivity].
  unfold is_digit in Hd. rewrite bo_baimai_not_decimal in Hd. discriminate.
Qed.
End Chapter.

(** ** Transliteration of the Thai digits *)

Lemma to_arabic_other (c : char) : is_thai_digit c = false -> to_arabic c = c.
Proof.
  intros H. unfold to_arabic, thai_to_arabic, maketrans, THAI_DIGITS, ARABIC_DIGITS.
  cbn [combine table_get].
  repeat match goal with
  | |- context [N.eqb ?k c] =>
      destruct (N.eqb_spec k c) as [<-|?]; [vm_compute in H; discriminate|]
  end.
  reflexivity.
Qed.

Lemma to_arabic_thai (c : char) :
  is_thai_digit c = true -> 0x30 <= to_arabic c <= 0x39.
Proof.
  intros H. unfold is_thai_digit in H. apply andb_prop in H as [H1 H2].
  apply N.leb_le in H1, H2.
  assert (Hc : In c [0x0E50; 0x0E51; 0x0E52; 0x0E53; 0x0E54; 0x0E55; 0x0E56; 0x0E57;
                     0x0E58; 0x0E59]) by (cbn [In]; lia).
  cbn [In] in Hc.
  repeat (destruct Hc as [<-|Hc]; [vm_compute; split; discriminate|]).
  destruct Hc.
Qed.

Lemma to_arabic_space (c : char) : isspace (to_arabic c) = isspace c.
Proof.
  destruct (is_thai_digit c) eqn:H; [|rewrite (to_arabic_other _ H); reflexivity].
  pose proof (to_arabic_thai _ H) as Ha.
  transitivity false; [|symmetry].
  - apply (in_ranges_apart [(0x30, 0x39)] space_ranges); [reflexivity|].
    unfold in_ranges. cbn [existsb fst snd].
    destruct Ha as [Ha1 Ha2]. apply N.leb_le in Ha1, Ha2. rewrite Ha1, Ha2. reflexivity.
  - apply (in_ranges_apart [(0x0E50, 0x0E59)] space_ranges); [reflexivity|].
    unfold in_ranges. cbn [existsb fst snd]. unfold is_thai_digit in H.
    rewrite H. reflexivity.
Qed.

Lemma to_arabic_idem (c : char) : to_arabic (to_arabic c) = to_arabic c.
Proof.
  destruct (is_thai_digit c) eqn:H; [|rewrite !(to_arabic_other _ H); reflexivity].
  apply to_arabic_other. pose proof (to_arabic_thai _ H) as [_ Ha].
  unfold is_thai_digit. apply andb_false_iff. left. apply N.leb_gt. lia.
Qed.

Lemma translate_map (s : str) : translate thai_to_arabic s = map to_arabic s.
Proof. reflexivity. Qed.

Lemma lstrip_map (f : char -> char) (s : str) :
  (forall c, isspace (f c) = isspace c) -> lstrip (map f s) = map f (lstrip s).
Proof.
  intros Hf. induction s as [|x s IH]; [reflexivity|].
  cbn [map lstrip]. rewrite Hf. destruct (isspace x); [exact IH|reflexivity].
Qed.

Lemma rstrip_map (f : char -> char) (s : str) :
  (forall c, isspace (f c) = isspace c) -> rstrip (map f s) = map f (rstrip s).
Proof.
  intros Hf. induction s as [|x s IH]; [reflexivity|].
  cbn [map rstrip]. rewrite IH, Hf.
  destruct (rstrip s); cbn [map]; [destruct (isspace x)|]; reflexivity.
Qed.

Lemma strip_translate (s : str) :
  strip (translate thai_to_arabic s) = translate thai_to_arabic (strip s).
Proof.
  unfold strip. rewrite !translate_map.
  rewrite lstrip_map, rstrip_map by apply to_arabic_space. reflexivity.
Qed.

Lemma translate_idem (s : str) :
  translate thai_to_arabic (translate thai_to_arabic s) = translate thai_to_arabic s.
Proof.
  rewrite !translate_map, map_map. apply map_ext. intros c. apply to_arabic_idem.
Qed.

(** ** The level of a text *)

Section TextLevel.
Context {U : UnicodeDB} {L : UnicodeLaws U}.

Lemma level_of_raw_empty : level_of_raw [] = None.
Proof.
  unfold level_of_raw. rewrite chapter_none by reflexivity.
  rewrite numbered_no_digit by exact I. reflexivity.
Qed.

Lemma heading_level_raw (text : str) :
  _heading_level_from_text (Some text) = level_of_raw (raw_norm text).
Proof.
  destruct text as [|x text]; [|reflexivity].
  symmetry. apply level_of_raw_empty.
Qed.

Lemma level_chapter (ws : str) (d : char) (tail : str) :
  Forall (fun x => isspace x = true) ws -> is_digit d = true ->
  level_of_raw (CHAPTER ++ ws ++ d :: tail) = Some 1%Z.
Proof.
  intros Hws Hd. unfold level_of_raw.
  destruct (chapter_matches ws d tail Hws Hd) as [m ->]. reflexivity.
Qed.

Lemma level_numbered (comps : list str) (t : char) (tail : str) :
  comps <> [] -> Forall component comps -> is_terminator t = true ->
  Forall (fun x => is_digit x = false) (first_word (t :: tail)) ->
  level_of_raw (dotted comps ++ t :: tail) = Some (Z.of_nat (length comps)).
Proof.
  intros Hne Hall Ht Hword. unfold level_of_raw.
  assert (Hhead : exists d s, dotted comps ++ t :: tail = d :: s /\ is_digit d = true).
  { destruct comps as [|c others]; [congruence|]. inversion Hall; subst.
    destruct H1 as [Hc Hd]. destruct c as [|d c]; [congruence|].
    inversion Hd; subst. cbn [dotted app]. eauto. }
  destruct Hhead as (d & s & Hraw & Hd).
  rewrite chapter_none by (rewrite Hraw; apply digit_not_chapter, Hd).
  destruct (numbered_matches comps t tail Hne Hall Ht) as [m ->].
  replace (hd [] (split (dotted comps ++ t :: tail)))
    with (dotted comps ++ first_word (t :: tail)).
  - pose proof (findall_dotted comps (first_word (t :: tail)) Hne Hall Hword) as Hlen.
    cbn zeta. rewrite Hlen.
    destruct (re_findall digits (dotted comps ++ first_word (t :: tail))) as [|p parts].
    + destruct comps; [congruence|discriminate].
    + f_equal. destruct comps; [congruence|]. cbn [length]. lia.
  - rewrite <- (first_word_app _ _ (dotted_no_space comps Hall)).
    rewrite Hraw. symmetry. apply split_hd, digit_not_space, Hd.
Qed.

Lemma level_other (raw : str) :
  no_digit_next raw -> startswith raw CHAPTER = false -> level_of_raw raw = None.
Proof.
  intros Hd Hc. unfold level_of_raw.
  rewrite (chapter_none _ Hc), (numbered_no_digit _ Hd). reflexivity.
Qed.

Lemma level_unterminated (ds tail : str) :
  component ds ->
  match tail with
  | x :: _ => is_digit x = false /\ is_terminator x = false
  | [] => True
  end ->
  level_of_raw (ds ++ tail) = None.
Proof.
  intros Hds Htail. unfold level_of_raw.
  rewrite (numbered_unterminated ds tail Hds Htail).
  destruct Hds as [Hne Hd]. destruct ds as [|d ds]; [congruence|].
  inversion Hd; subst. cbn [app].
  rewrite chapter_none by (apply digit_not_chapter; assumption). reflexivity.
Qed.
End TextLevel.

(** ** The text heuristic as the specification words it *)

Section SpecLevel.
Context {U : UnicodeDB}.

End SpecLevel.

Example spec_level_examples :
  spec_heading_level (py "1.2.3 Something") = Some 3%Z
  /\ spec_heading_level (py "1 Something") = Some 1%Z
  /\ spec_heading_level (py "บทที่ 12 บทนำ") = Some 1%Z
  /\ spec_heading_level (py "๒.๑ ที่มา") = Some 2%Z
  /\ spec_heading_level (py "Something") = None.
Proof. vm_compute. repeat split; reflexivity. Qed.

(** C4 as stated fails: [1abc] begins with the numeric prefix [1], of
    one component, and is no heading for the code, whose pattern wants
    a dot, a closing parenthesis or white space after the number. *)
Lemma heading_level_counterexample :
  spec_heading_level (py "1abc") = Some 1%Z
  /\ _heading_level_from_text (Some (py "1abc")) = None.
Proof. vm_compute. split; reflexivity. Qed.

(** The level counts the numbers of the whole first word, beyond the
    dotted prefix too. *)
Example heading_level_counts_first_word :
  _heading_level_from_text (Some (py "1.a2 Title")) = Some 2%Z
  /\ spec_heading_level (py "1.a2 Title") = Some 1%Z
  /\ _heading_level_from_text (Some (py "3.COVID-19 overview")) = Some 2%Z
  /\ spec_heading_level (py "3.COVID-19 overview") = Some 1%Z.
Proof. vm_compute. repeat split; reflexivity. Qed.

(** C4, amended.  With [raw] the text stripped and its Thai digits
    transliterated: the chapter marker, optional white space and a digit
    at the start of [raw] give level 1 whatever follows; a dotted number
    of [n] components at the start of [raw], followed by a dot, a closing
    parenthesis or white space, gives level [n] when the first word has
    no digit after that number; transliterating the Thai digits of the
    text beforehand changes nothing; and a text is no heading when [raw]
    begins with neither a digit nor the chapter marker, or begins with
    digits that something other than a dot, a closing parenthesis or
    white space follows. *)
Theorem heading_level_from_text_amended {U : UnicodeDB} (L : UnicodeLaws U) (text : str) :
  let raw := translate thai_to_arabic (strip text) in
  (forall ws d tail,
      raw = CHAPTER ++ ws ++ d :: tail ->
      Forall (fun x => isspace x = true) ws -> is_digit d = true ->
      _heading_level_from_text (Some text) = Some 1%Z)
  /\ (forall comps t tail,
      raw = dotted comps ++ t :: tail ->
      comps <> [] -> Forall component comps -> is_terminator t = true ->
      Forall (fun x => is_digit x = false) (first_word (t :: tail)) ->
      _heading_level_from_text (Some text) = Some (Z.of_nat (length comps)))
  /\ _heading_level_from_text (Some (translate thai_to_arabic text))
     = _heading_level_from_text (Some text)
  /\ (no_digit_next raw -> startswith raw CHAPTER = false ->
      _heading_level_from_text (Some text) = None)
  /\ (forall ds tail,
      raw = ds ++ tail -> component ds ->
      match tail with
      | x :: _ => is_digit x = false /\ is_terminator x = false
      | [] => True
      end ->
      _heading_level_from_text (Some text) = None).
Proof.
  intros raw. rewrite !heading_level_raw. unfold raw_norm. fold raw.
  split; [|split; [|split; [|split]]].
  - intros ws d tail -> Hws Hd. apply level_chapter; assumption.
  - intros comps t tail -> Hne Hall Ht Hword. apply level_numbered; assumption.
  - rewrite strip_translate, translate_idem. reflexivity.
  - apply level_other.
  - intros ds tail -> Hds Htail. apply level_unterminated; assumption.
Qed.

Lemma heading_level_from_text_amended_witness :
  _heading_level_from_text (Some (py "1.2.3 Something")) = Some 3%Z
  /\ _heading_level_from_text (Some (py "  ๑.๒.๓ Something")) = Some 3%Z.
Proof.
  destruct (heading_level_from_text_amended basic_laws (py "1.2.3 Something"))
    as (_ & Hnum & _).
  destruct (heading_level_from_text_amended basic_laws (py "  ๑.๒.๓ Something"))
    as (_ & Hthai & _).
  split.
  - apply (Hnum [py "1"; py "2"; py "3"] SPACE (py "Something")).
    + vm_compute. reflexivity.
    + discriminate.
    + repeat constructor; discriminate.
    + reflexivity.
    + vm_compute. repeat constructor.
  - apply (Hthai [py "1"; py "2"; py "3"] SPACE (py "Something")).
    + vm_compute. reflexivity.
    + discriminate.
    + repeat constructor; discriminate.
    + reflexivity.
    + vm_compute. repeat constructor.
Defined.

(** * Further properties of the code *)

(** ** Parsing a document into sections *)

Section Parsing.
Context {U : UnicodeDB}.

Lemma parse_sections_snoc (doc : list Paragraph) (p : Paragraph) :
  parse_sections (doc ++ [p]) = parse_step (parse_sections doc) p.
Proof. unfold parse_sections. rewrite fold_left_app. reflexivity. Qed.

Lemma append_to_current_app (a b : list Sec) (p : Paragraph) :
  b <> [] -> append_to_current (a ++ b) p = a ++ append_to_current b p.
Proof.
  intros Hb. induction a as [|s a IH]; [reflexivity|].
  cbn [app append_to_current]. rewrite IH.
  destruct (a ++ b) eqn:E; [|reflexivity].
  apply app_eq_nil in E as [_ ?]. contradiction.
Qed.

Lemma append_to_current_last (cur : Sec) (p : Paragraph) :
  append_to_current [cur] p = [with_paragraphs cur (paragraphs cur ++ [p])].
Proof. reflexivity. Qed.

Lemma parse_step_app (a b : list Sec) (p : Paragraph) :
  b <> [] -> parse_step (a ++ b) p = a ++ parse_step b p.
Proof.
  intros Hb. unfold parse_step. destruct (get_heading_level p).
  - rewrite app_assoc. reflexivity.
  - apply append_to_current_app, Hb.
Qed.

Lemma append_to_current_nonempty (b : list Sec) (p : Paragraph) :
  b <> [] -> append_to_current b p <> [].
Proof.
  destruct b as [|s [|s' b]]; [congruence| |]; intros _; cbn [append_to_current];
    discriminate.
Qed.

Lemma parse_step_nonempty (b : list Sec) (p : Paragraph) :
  b <> [] -> parse_step b p <> [].
Proof.
  intros Hb. unfold parse_step. destruct (get_heading_level p).
  - intros E. apply app_eq_nil in E as [_ ?]. discriminate.
  - apply append_to_current_nonempty, Hb.
Qed.

(** The sections before the current one are out of the reach of the
    loop. *)
Lemma fold_parse_app (doc : list Paragraph) :
  forall a b, b <> [] ->
  fold_left parse_step doc (a ++ b) = a ++ fold_left parse_step doc b.
Proof.
  induction doc as [|p doc IH]; intros a b Hb; [reflexivity|].
  cbn [fold_left]. rewrite parse_step_app by assumption.
  apply IH, parse_step_nonempty, Hb.
Qed.

Lemma fold_parse_body (body : list Paragraph) :
  forall sec, Forall body_paragraph body ->
  fold_left parse_step body [sec] = [with_paragraphs sec (paragraphs sec ++ body)].
Proof.
  induction body as [|p body IH]; intros sec Hbody.
  - cbn [fold_left]. rewrite app_nil_r. destruct sec; reflexivity.
  - inversion Hbody as [|? ? Hp Hrest]; subst. cbn [fold_left].
    unfold parse_step at 2. unfold body_paragraph in Hp. rewrite Hp.
    rewrite append_to_current_last, IH by assumption.
    unfold with_paragraphs. cbn [title norm_title level paragraphs].
    rewrite <- app_assoc. reflexivity.
Qed.

Lemma fold_parse_preamble (pre : list Paragraph) :
  Forall body_paragraph pre -> fold_left parse_step pre [] = [].
Proof.
  induction 1 as [|p pre Hp _ IH]; [reflexivity|]. cbn [fold_left].
  unfold parse_step at 2. unfold body_paragraph in Hp. rewrite Hp. exact IH.
Qed.

Lemma fold_parse_at_heading (doc : list Paragraph) (secs : list Sec) :
  at_heading doc ->
  fold_left parse_step doc secs = secs ++ parse_sections doc.
Proof.
  destruct doc as [|h doc]; [intros _; cbn; rewrite app_nil_r; reflexivity|].
  unfold at_heading, is_heading, parse_sections. cbn [fold_left].
  unfold parse_step at 2 4. destruct (get_heading_level h) as [lvl|]; [|discriminate].
  intros _. rewrite fold_parse_app by discriminate. reflexivity.
Qed.

Lemma parse_sections_app (doc1 doc2 : list Paragraph) :
  at_heading doc2 ->
  parse_sections (doc1 ++ doc2) = parse_sections doc1 ++ parse_sections doc2.
Proof.
  intros H. unfold parse_sections at 1. rewrite fold_left_app.
  apply fold_parse_at_heading, H.
Qed.

Lemma parse_sections_one (h : Paragraph) (lvl : Z) (body : list Paragraph) :
  get_heading_level h = Some lvl -> Forall body_paragraph body ->
  parse_sections (h :: body) = [section_of h lvl body].
Proof.
  intros Hh Hbody. unfold parse_sections. cbn [fold_left].
  unfold parse_step at 2. rewrite Hh. cbn [app].
  rewrite fold_parse_body by assumption. reflexivity.
Qed.
End Parsing.

(** X1. A heading paragraph followed by paragraphs that are no headings,
    up to the next heading or the end, makes one section, with the
    stripped text of the heading as title, its normalized text as key,
    its level, and those paragraphs as body, whatever stands before and
    after in the document. *)
Theorem parse_sections_block {U : UnicodeDB}
    (pre : list Paragraph) (h : Paragraph) (lvl : Z) (body rest : list Paragraph) :
  get_heading_level h = Some lvl ->
  Forall body_paragraph body ->
  at_heading rest ->
  parse_sections (pre ++ h :: body ++ rest)
  = parse_sections pre
    ++ {| title := strip (par_text h);
          norm_title := normalize_title (Some (par_text h));
          level := lvl;
          paragraphs := body |}
    :: parse_sections rest.
Proof.
  intros Hh Hbody Hrest.
  rewrite parse_sections_app by (unfold at_heading, is_heading; rewrite Hh; reflexivity).
  f_equal. change (h :: body ++ rest) with ((h :: body) ++ rest).
  rewrite parse_sections_app by assumption.
  rewrite (parse_sections_one h lvl) by assumption. reflexivity.
Qed.

(** X2. The paragraphs before the first heading belong to no section:
    they are dropped, and a document without a heading has no section
    at all; conversely a document with a heading has one. *)
Theorem parse_sections_preamble {U : UnicodeDB} (pre doc : list Paragraph) :
  Forall body_paragraph pre ->
  parse_sections (pre ++ doc) = parse_sections doc
  /\ parse_sections pre = []
  /\ (parse_sections doc = [] -> Forall body_paragraph doc).
Proof.
  intros Hpre. split; [|split].
  - unfold parse_sections. rewrite fold_left_app, fold_parse_preamble by assumption.
    reflexivity.
  - apply fold_parse_preamble, Hpre.
  - clear. induction doc as [|p doc IH] using rev_ind; [constructor|].
    rewrite parse_sections_snoc. unfold parse_step.
    destruct (get_heading_level p) eqn:Hp.
    + intros E. apply app_eq_nil in E as [_ ?]. discriminate.
    + intros E. apply Forall_app_2; [|repeat constructor; exact Hp].
      apply IH. destruct (parse_sections doc) as [|s secs]; [reflexivity|].
      exfalso. revert E. apply append_to_current_nonempty. discriminate.
Qed.

Section ParsedSections.
Context {U : UnicodeDB}.

Lemma append_to_current_Forall2 {A} (R : Sec -> A -> Prop)
    (secs : list Sec) (l : list A) (p : Paragraph) :
  (forall s b x, R s x -> R (with_paragraphs s b) x) ->
  Forall2 R secs l -> Forall2 R (append_to_current secs p) l.
Proof.
  intros Hbody. induction 1 as [|s x secs l Hsx Hrest IH]; [constructor|].
  cbn [append_to_current]. destruct secs as [|s' secs].
  - inversion Hrest; subst. constructor; [|constructor].
    apply (Hbody s (paragraphs s ++ [p])), Hsx.
  - constructor; assumption.
Qed.

Lemma parse_sections_Forall2 (doc : list Paragraph) :
  Forall2
    (fun sec p =>
       title sec = strip (par_text p)
       /\ norm_title sec = normalize_title (Some (par_text p))
       /\ get_heading_level p = Some (level sec))
    (parse_sections doc) (List.filter is_heading doc).
Proof.
  induction doc as [|p doc IH] using rev_ind; [constructor|].
  rewrite parse_sections_snoc, List.filter_app. cbn [List.filter].
  unfold parse_step, is_heading. destruct (get_heading_level p) as [lvl|] eqn:Hp.
  - apply Forall2_app; [exact IH|]. constructor; [|constructor].
    cbn [title norm_title level]. auto.
  - rewrite app_nil_r. apply append_to_current_Forall2; [|exact IH].
    intros s b x H. exact H.
Qed.

Lemma append_to_current_bodies (secs : list Sec) (p : Paragraph) :
  secs <> [] ->
  concat (map paragraphs (append_to_current secs p))
  = concat (map paragraphs secs) ++ [p].
Proof.
  induction secs as [|s secs IH]; [congruence|]. intros _.
  cbn [append_to_current]. destruct secs as [|s' secs].
  - cbn. rewrite !app_nil_r. reflexivity.
  - cbn [map concat]. rewrite IH by discriminate.
    cbn [map concat]. rewrite <- !app_assoc. reflexivity.
Qed.

Lemma fold_parse_bodies (doc : list Paragraph) :
  forall secs, secs <> [] ->
  concat (map paragraphs (fold_left parse_step doc secs))
  = concat (map paragraphs secs)
    ++ List.filter (fun p => negb (is_heading p)) doc.
Proof.
  induction doc as [|p doc IH]; intros secs Hsecs.
  - cbn. rewrite app_nil_r. reflexivity.
  - cbn [fold_left List.filter].
    rewrite IH by (apply parse_step_nonempty, Hsecs).
    unfold parse_step, is_heading. destruct (get_heading_level p); cbn [negb].
    + rewrite map_app, concat_app. cbn. rewrite !app_nil_r. reflexivity.
    + rewrite append_to_current_bodies by assumption.
      rewrite <- app_assoc. reflexivity.
Qed.

(** Stripping the text first changes nothing of its normal form. *)
Lemma normalize_title_strip (text : str) :
  normalize_title (Some (strip text)) = normalize_title (Some text).
Proof. cbn [normalize_title]. rewrite strip_strip. reflexivity. Qed.

Lemma parse_sections_key (doc : list Paragraph) (sec : Sec) :
  In sec (parse_sections doc) ->
  normalize_title (Some (title sec)) = norm_title sec.
Proof.
  intros Hin. pose proof (parse_sections_Forall2 doc) as H.
  induction H as [|s p secs l (Ht & Hn & _) _ IH]; [contradiction|].
  destruct Hin as [<-|Hin]; [|auto].
  rewrite Ht, Hn. apply normalize_title_strip.
Qed.
End ParsedSections.

(** X3. The sections are the heading paragraphs of the document, one
    for one and in order: the title is the stripped text of the
    paragraph, the key its normalized text, the level the one the
    classifier gives it. *)
Theorem parse_sections_headings {U : UnicodeDB} (doc : list Paragraph) :
  map title (parse_sections doc)
  = map (fun p => strip (par_text p)) (List.filter is_heading doc)
  /\ map norm_title (parse_sections doc)
     = map (fun p => normalize_title (Some (par_text p))) (List.filter is_heading doc)
  /\ map (fun sec => Some (level sec)) (parse_sections doc)
     = map get_heading_level (List.filter is_heading doc).
Proof.
  pose proof (parse_sections_Forall2 doc) as H.
  induction H as [|s p secs l (Ht & Hn & Hl) _ (IH1 & IH2 & IH3)];
    [repeat split|].
  cbn [map]. rewrite Ht, Hn, Hl, IH1, IH2, IH3. repeat split.
Qed.

(** X4. From the first heading on, every paragraph that is no heading
    is in the body of a section: the bodies, one after the other, are
    those paragraphs in the order of the document, none lost, none
    twice. *)
Theorem parse_sections_bodies {U : UnicodeDB}
    (pre : list Paragraph) (h : Paragraph) (rest : list Paragraph) :
  Forall body_paragraph pre ->
  is_heading h = true ->
  concat (map paragraphs (parse_sections (pre ++ h :: rest)))
  = List.filter (fun p => negb (is_heading p)) rest.
Proof.
  intros Hpre Hh. unfold parse_sections.
  rewrite fold_left_app, fold_parse_preamble by assumption.
  cbn [fold_left]. unfold parse_step at 2. unfold is_heading in Hh.
  destruct (get_heading_level h) as [lvl|]; [|discriminate].
  rewrite fold_parse_bodies by discriminate. reflexivity.
Qed.

(** ** The shape of a normalized title *)

Section Shape.
Context {U : UnicodeDB} {L : UnicodeLaws U}.

Lemma collapsed_middle (u : str) :
  forall a x s, collapsed a (u ++ x :: s) -> collapsed (isspace x) s.
Proof.
  induction u as [|y u IH]; intros a x s H.
  - destruct H as [_ H]. exact H.
  - destruct H as [_ H]. eapply IH, H.
Qed.

Lemma collapsed_Forall (s : str) :
  forall a, collapsed a s -> Forall (fun x => isspace x = true -> x = SPACE) s.
Proof.
  induction s as [|x s IH]; intros a H; [constructor|].
  destruct H as [Hx Hs]. constructor; [|eapply IH, Hs].
  intros Hsp. apply Hx, Hsp.
Qed.

Lemma rstrip_last (s : str) :
  forall u x, rstrip s = u ++ [x] -> isspace x = false.
Proof.
  induction s as [|y s IH]; intros u x; cbn [rstrip].
  - destruct u; discriminate.
  - destruct (rstrip s) as [|z t] eqn:E.
    + destruct (isspace y) eqn:Hy; [destruct u; discriminate|].
      destruct u as [|? [|? ?]]; try discriminate. intros [= <-]. exact Hy.
    + destruct u as [|y' u]; [discriminate|].
      intros [= _ Ht]. eapply IH, Ht.
Qed.

Lemma strip_fixed_ends (r : str) :
  strip r = r ->
  match r with x :: _ => isspace x = false | [] => True end
  /\ forall u x, r = u ++ [x] -> isspace x = false.
Proof.
  intros Hr. assert (Hl : lstrip r = r).
  { rewrite <- Hr at 1. rewrite lstrip_strip. exact Hr. }
  split.
  - pose proof (lstrip_head r) as H. rewrite Hl in H. exact H.
  - intros u x Hux. unfold strip in Hr. rewrite Hl in Hr.
    apply (rstrip_last r u). rewrite Hr. exact Hux.
Qed.

Lemma nbd_middle (u : str) :
  forall b x s, no_boundary_digit b (u ++ x :: s) -> is_digit x = true ->
  match u with
  | [] => is_word_opt b = true
  | _ => exists u' y, u = u' ++ [y] /\ is_word y = true
  end.
Proof.
  induction u as [|y u IH]; intros b x s H Hx.
  - destruct H as [H _]. auto.
  - destruct H as [_ H]. specialize (IH _ _ _ H Hx).
    destruct u as [|z u].
    + exists [], y. split; [reflexivity|exact IH].
    + destruct IH as (u' & w & -> & Hw). exists (y :: u'), w. split; [reflexivity|exact Hw].
Qed.
End Shape.

(** X5. A normalized title holds no character of the punctuation class
    and no Thai digit; its only white space is the single space, never
    at the start or the end and never twice in a row; and lowering it
    again changes nothing. *)
Theorem normalize_title_shape {U : UnicodeDB} (L : UnicodeLaws U) (text : option str) :
  let r := normalize_title text in
  Forall (fun x => is_punct x = false /\ is_thai_digit x = false
                   /\ (isspace x = true -> x = SPACE)) r
  /\ (forall u x y v, r = u ++ x :: y :: v -> isspace x = true -> isspace y = false)
  /\ (forall x v, r = x :: v -> isspace x = false)
  /\ (forall u x, r = u ++ [x] -> isspace x = false)
  /\ lower r = r.
Proof.
  intros r. destruct (normalize_title_normal text) as [Hstrip Hlow Hdig Hthai Hpunct Hsp].
  fold r in Hstrip, Hlow, Hdig, Hthai, Hpunct, Hsp.
  destruct (strip_fixed_ends r Hstrip) as [Hhead Hlast].
  split; [|split; [|split; [|split]]].
  - pose proof (collapsed_Forall r false Hsp) as Hone.
    rewrite List.Forall_forall in *. intros x Hx. auto.
  - intros u x y v Hr Hx. rewrite Hr in Hsp.
    apply collapsed_middle in Hsp. destruct Hsp as [Hy _].
    destruct (isspace y) eqn:E; [|reflexivity].
    destruct (Hy eq_refl) as [_ Hc]. congruence.
  - intros x v Hr. rewrite Hr in Hhead. exact Hhead.
  - exact Hlast.
  - apply lowered_fixed, Hlow.
Qed.

(** X6. The numbers that [normalize_title] leaves are those inside a
    word: every digit of a normalized title comes straight after a
    letter, a digit or an underscore, so no normalized title starts
    with a digit or has one after a space. *)
Theorem normalize_title_digits {U : UnicodeDB} (L : UnicodeLaws U) (text : option str) :
  forall u x v, normalize_title text = u ++ x :: v -> is_digit x = true ->
  exists u' y, u = u' ++ [y] /\ is_word y = true.
Proof.
  intros u x v Hr Hx.
  destruct (normalize_title_normal text) as [_ _ Hdig _ _ _].
  rewrite Hr in Hdig. pose proof (nbd_middle u None x v Hdig Hx) as H.
  destruct u; [discriminate|exact H].
Qed.

(** ** Ties and empty keys in the matcher *)

Module FloatOrderLe.
Import SpecFloat.

Lemma SFltb_leb_trans x y z :
  SFltb x y = true -> SFleb y z = true -> SFltb x z = true.
Proof.
  unfold SFltb, SFleb.
  destruct x as [s1|s1| |s1 m1 e1], y as [s2|s2| |s2 m2 e2], z as [s3|s3| |s3 m3 e3];
    try destruct s1; try destruct s2; try destruct s3; simpl;
    try discriminate; try reflexivity; intros H1 H2; cmp_cases.
Qed.

Lemma SFltb_leb x y : SFltb x y = true -> SFleb x y = true.
Proof.
  unfold SFltb, SFleb.
  destruct x as [s1|s1| |s1 m1 e1], y as [s2|s2| |s2 m2 e2];
    try destruct s1; try destruct s2; simpl;
    try discriminate; try reflexivity; intros H1; cmp_cases.
Qed.

(** Zero divided by anything is a zero or no number. *)
Lemma SFdiv_zero prec emax y :
  SFltb (S754_zero false) (SFdiv prec emax (S754_zero false) y) = false.
Proof. destruct y as [s|s| |s m e]; reflexivity. Qed.
End FloatOrderLe.

Lemma ltb_leb_trans (x y z : float) :
  (x <? y)%float = true -> (y <=? z)%float = true -> (x <? z)%float = true.
Proof.
  rewrite !FloatAxioms.ltb_spec, !FloatAxioms.leb_spec.
  apply FloatOrderLe.SFltb_leb_trans.
Qed.

Lemma ltb_leb (x y : float) : (x <? y)%float = true -> (x <=? y)%float = true.
Proof.
  rewrite !FloatAxioms.ltb_spec, !FloatAxioms.leb_spec. apply FloatOrderLe.SFltb_leb.
Qed.

Lemma zero_div_not_positive (f : float) : (0.0 <? 0.0 / f)%float = false.
Proof.
  rewrite FloatAxioms.ltb_spec, FloatAxioms.div_spec.
  apply FloatOrderLe.SFdiv_zero.
Qed.

Section Ties.
Context {U : UnicodeDB}.
Variable t_key : str.

Lemma first_best_step (seen : dict) (st : option nat * float) (item : str * nat) :
  first_best t_key seen st ->
  first_best t_key (seen ++ [item]) (best_step t_key st item).
Proof.
  destruct st as [bi bs], item as [k2 p2]. unfold first_best, best_step.
  cbn [fst snd]. intros Hinv.
  destruct (bs <? Difflib.ratio t_key k2)%float eqn:Hlt; cbn [fst snd].
  - exists seen, k2, []. split; [reflexivity|]. split; [reflexivity|].
    split; [|intros ? ? []].
    intros k' p' Hin.
    destruct (Difflib.ratio t_key k2 <=? Difflib.ratio t_key k')%float eqn:Hle;
      [|reflexivity].
    pose proof (ltb_leb_trans _ _ _ Hlt Hle) as Hbig.
    destruct bi as [pos|].
    + destruct Hinv as (earlier & k & later & -> & -> & Hearlier & Hlater).
      apply in_app_or in Hin as [Hin|[[= <- <-]|Hin]].
      * pose proof (Hearlier _ _ Hin) as H. rewrite (ltb_leb _ _ Hbig) in H.
        discriminate.
      * rewrite ltb_irrefl in Hbig. discriminate.
      * pose proof (Hlater _ _ Hin) as H. rewrite Hbig in H. discriminate.
    + destruct Hinv as [-> Hzero]. pose proof (Hzero _ _ Hin) as H.
      rewrite Hbig in H. discriminate.
  - destruct bi as [pos|].
    + destruct Hinv as (earlier & k & later & -> & -> & Hearlier & Hlater).
      exists earlier, k, (later ++ [(k2, p2)]).
      split; [rewrite <- app_assoc; reflexivity|]. split; [reflexivity|].
      split; [exact Hearlier|].
      intros k' p' Hin. apply in_app_or in Hin as [Hin|[[= <- <-]|[]]]; eauto.
    + destruct Hinv as [-> Hzero]. split; [reflexivity|].
      intros k' p' Hin. apply in_app_or in Hin as [Hin|[[= <- <-]|[]]]; eauto.
Qed.

Lemma first_best_fold (items seen : dict) (st : option nat * float) :
  first_best t_key seen st ->
  first_best t_key (seen ++ items) (fold_left (best_step t_key) items st).
Proof.
  revert seen st. induction items as [|item items IH]; intros seen st Hinv; simpl.
  - rewrite app_nil_r. assumption.
  - replace (seen ++ item :: items) with ((seen ++ [item]) ++ items)
      by (rewrite <- app_assoc; reflexivity).
    apply IH, first_best_step, Hinv.
Qed.

Lemma first_best_loop (index : dict) :
  first_best t_key index (fold_left (best_step t_key) index (None, 0.0%float)).
Proof.
  apply (first_best_fold index []). split; [reflexivity|intros ? ? []].
Qed.
End Ties.

(** X7. Among the indexed titles, the fuzzy match is the first one with
    the best ratio: no title that comes earlier in the index reaches
    the ratio of the title returned, and no later one exceeds it. *)
Theorem find_best_match_first {U : UnicodeDB}
    (template_title : str) (source_index : dict) (pos : nat) :
  let score := Difflib.ratio (normalize_title (Some template_title)) in
  dict_get source_index (normalize_title (Some template_title)) = None ->
  find_best_match template_title source_index = Some pos ->
  exists earlier s_key later,
    source_index = earlier ++ (s_key, pos) :: later
    /\ (forall k p, In (k, p) earlier -> (score s_key <=? score k)%float = false)
    /\ (forall k p, In (k, p) later -> (score s_key <? score k)%float = false).
Proof.
  intros score. subst score. unfold find_best_match.
  generalize (normalize_title (Some template_title)) as t_key.
  intros t_key Hget. rewrite Hget.
  pose proof (first_best_loop t_key source_index) as Hinv.
  destruct (fold_left _ source_index _) as [bi bs].
  destruct (0.6 <=? bs)%float; [|discriminate].
  intros ->. unfold first_best in Hinv. cbn [fst snd] in Hinv.
  destruct Hinv as (earlier & k & later & Hindex & _ & Hearlier & Hlater).
  exists earlier, k, later. auto.
Qed.

Section EmptyKey.
Context {U : UnicodeDB}.

Lemma matches_empty (b : str) : Difflib.matches [] b = O.
Proof. reflexivity. Qed.

Lemma ratio_empty (x : char) (b : str) :
  (0.0 <? Difflib.ratio [] (x :: b))%float = false.
Proof.
  unfold Difflib.ratio. rewrite matches_empty.
  cbn [length Nat.add Difflib._calculate_ratio].
  change (2.0 * Difflib.float_of_nat 0)%float with 0.0%float.
  apply zero_div_not_positive.
Qed.

Lemma dict_get_None (d : dict) (k : str) (p : nat) :
  dict_get d k = None -> ~ In (k, p) d.
Proof.
  induction d as [|[k0 v0] d IH]; cbn [dict_get]; [intros _ []|].
  destruct (str_eqb k0 k) eqn:E; [discriminate|].
  intros Hd [[= -> ->]|Hin]; [|exact (IH Hd Hin)].
  apply str_eqb_neq in E. congruence.
Qed.

Lemma find_best_match_empty (title : str) (index : dict) :
  normalize_title (Some title) = [] -> dict_get index [] = None ->
  find_best_match title index = None.
Proof.
  intros Hkey Hget. unfold find_best_match. rewrite Hkey, Hget.
  pose proof (best_loop [] index) as Hinv.
  destruct (fold_left _ index _) as [bi bs].
  destruct Hinv as [_ [[Hnone Hzero]|(k & p & _ & Hin & Hbs & Hpos)]];
    cbn [fst snd] in *.
  - subst bi bs. reflexivity.
  - exfalso. destruct k as [|x k].
    + exact (dict_get_None _ _ _ Hget Hin).
    + rewrite Hbs, ratio_empty in Hpos. discriminate.
Qed.
End EmptyKey.

(** X8. A title whose normalized form is empty (only numbering,
    punctuation and white space) matches nothing: not in an index
    without the empty key, and so not in any index that
    [build_title_index] makes. *)
Theorem find_best_match_empty_title {U : UnicodeDB}
    (template_title : str) (source_index : dict) (sections : list Sec) :
  normalize_title (Some template_title) = [] ->
  (dict_get source_index [] = None ->
   find_best_match template_title source_index = None)
  /\ find_best_match template_title (build_title_index sections) = None.
Proof.
  intros Hkey. split.
  - apply find_best_match_empty, Hkey.
  - apply find_best_match_empty; [exact Hkey|].
    destruct (dict_get (build_title_index sections) []) as [i|] eqn:E; [|reflexivity].
    apply build_title_index_get in E as [Hne _]. congruence.
Qed.

(** ** Sections that find themselves *)

(** X9. In the index built from the sections of a document, every
    section of that document with a key finds a section by its title:
    the last one of the document with the same normalized title. *)
Theorem parsed_section_found {U : UnicodeDB}
    (doc : list Paragraph) (i : nat) (sec : Sec) :
  parse_sections doc !! i = Some sec ->
  norm_title sec <> [] ->
  exists j,
    find_best_match (title sec) (build_title_index (parse_sections doc)) = Some j
    /\ last_with (parse_sections doc) (norm_title sec) j.
Proof.
  intros Hi Hkey.
  assert (Hin : In sec (parse_sections doc)).
  { apply list_elem_of_In. eapply list_elem_of_lookup_2, Hi. }
  pose proof (parse_sections_key doc sec Hin) as Hnorm.
  destruct (build_title_index_present (parse_sections doc) (norm_title sec) i sec
              Hkey Hi eq_refl) as [j Hj].
  exists j. split.
  - unfold find_best_match. rewrite Hnorm, Hj. reflexivity.
  - apply build_title_index_get in Hj as [_ Hlast]. exact Hlast.
Qed.

(** ** The loop over the template sections *)

Section LoopFacts.
Context {U : UnicodeDB}.
Variable E : Type.
Variable exn_str : E -> str.
Variable FS : Type.
Variable path_exists : FS -> str -> bool.
Variable Document : FS -> str -> E + list Paragraph.
Variable copy2 : FS -> str -> str -> FS * option E.
Variable save : OutDoc -> str -> FS -> FS * option E.
Variable add_heading : OutDoc -> str -> Z -> option OutDoc.
Variable has_style : str -> bool.
Variable raises : attribute -> Run -> Run -> bool.

Local Abbreviation merge_section' := (merge_section E add_heading has_style raises).
Local Abbreviation merge_sections' := (merge_sections E add_heading has_style raises).
Local Abbreviation merge_chapter' :=
  (merge_chapter E exn_str FS path_exists Document copy2 save add_heading has_style raises).
Local Abbreviation emit_heading' := (emit_heading add_heading has_style).

(** *** Copying the formatting of a run *)

Lemma assign_text (a : attribute) (src_run dst_run d : Run) :
  assign raises a src_run dst_run = Some d -> run_text d = run_text dst_run.
Proof.
  unfold assign. destruct (raises a src_run dst_run); [discriminate|].
  destruct a, (run_font src_run), (run_font dst_run); try discriminate;
    intros [= <-]; reflexivity.
Qed.

(** Whatever raises, the text of the run stays. *)
Lemma copy_run_formatting_text (src_run dst_run : Run) :
  run_text (copy_run_formatting raises src_run dst_run) = run_text dst_run.
Proof.
  unfold copy_run_formatting.
  destruct (assign raises Bold src_run dst_run) as [d1|] eqn:E1; [|reflexivity].
  apply assign_text in E1.
  destruct (assign raises Italic src_run d1) as [d2|] eqn:E2; [|congruence].
  apply assign_text in E2.
  destruct (assign raises Underline src_run d2) as [d3|] eqn:E3; [|congruence].
  apply assign_text in E3.
  destruct (run_font src_run); [|congruence].
  destruct (assign raises FontName src_run d3) as [d4|] eqn:E4; [|congruence].
  apply assign_text in E4.
  destruct (assign raises FontSize src_run d4) as [d5|] eqn:E5; [|congruence].
  apply assign_text in E5. congruence.
Qed.

(** When no assignment raises, a run with a font gets all the
    formatting of the source run. *)
Lemma copy_run_formatting_complete (src_run dst_run : Run) :
  (forall a d, raises a src_run d = false) ->
  run_font dst_run <> None ->
  same_formatting src_run (copy_run_formatting raises src_run dst_run).
Proof.
  intros Hok Hfont. unfold copy_run_formatting, assign. rewrite !Hok.
  destruct (run_font src_run) as [[name size]|] eqn:Hsrc.
  - cbn [set_underline set_italic set_bold run_font].
    destruct (run_font dst_run) as [df|]; [|congruence].
    rewrite !Hok. cbn [set_font run_font font_name font_size].
    unfold same_formatting. rewrite Hsrc. repeat split.
  - unfold same_formatting. rewrite Hsrc. repeat split.
Qed.

Lemma copy_paragraph_copy_of (out_doc : OutDoc) (sp : Paragraph) :
  copy_paragraph has_style raises out_doc sp = out_doc ++ [copy_of has_style raises sp].
Proof. unfold copy_paragraph, copy_of. destruct (par_runs sp); reflexivity. Qed.

Lemma fold_copy_paragraph (ps : list Paragraph) :
  forall out_doc,
  fold_left (copy_paragraph has_style raises) ps out_doc
  = out_doc ++ map (copy_of has_style raises) ps.
Proof.
  induction ps as [|sp ps IH]; intros out_doc; cbn [fold_left map].
  - rewrite app_nil_r. reflexivity.
  - rewrite IH, copy_paragraph_copy_of, <- app_assoc. reflexivity.
Qed.

(** One round of the loop, whichever way it goes. *)
Lemma merge_section_step (source_sections : list Sec) (source_index : dict)
    (out_doc : OutDoc) (matched skipped : nat) (t_sec : Sec)
    (st' : OutDoc * nat * nat) :
  merge_section' source_sections source_index (out_doc, matched, skipped) t_sec
  = inr st' ->
  st' = (emit_heading' out_doc (title t_sec) (level t_sec)
           ++ body_of has_style raises source_sections source_index t_sec,
         if has_match source_index t_sec then S matched else matched,
         if has_match source_index t_sec then skipped else S skipped).
Proof.
  unfold merge_section, body_of, has_match.
  destruct (find_best_match _ _) as [s_idx|].
  - destruct (source_sections !! s_idx) as [s_sec|]; [|discriminate].
    intros [= <-]. rewrite fold_copy_paragraph, Nat.add_1_r. reflexivity.
  - intros [= <-]. rewrite app_nil_r, Nat.add_1_r. reflexivity.
Qed.

Lemma merge_sections_counters (source_sections : list Sec) (source_index : dict)
    (template_sections : list Sec) :
  forall out_doc matched skipped out_doc' matched' skipped',
  merge_sections' source_sections source_index template_sections
    (out_doc, matched, skipped) = inr (out_doc', matched', skipped') ->
  (matched' = matched
     + length (List.filter (has_match source_index) template_sections))%nat
  /\ (skipped' = skipped
        + length (List.filter (fun t => negb (has_match source_index t))
                    template_sections))%nat.
Proof.
  induction template_sections as [|t_sec more IH];
    intros out_doc matched skipped out_doc' matched' skipped'; cbn [merge_sections].
  - intros [= _ <- <-]. cbn. lia.
  - destruct (merge_section' _ _ _ t_sec) as [e|st1] eqn:E1; [discriminate|].
    apply merge_section_step in E1. subst st1. intros H. apply IH in H.
    cbn [List.filter]. destruct (has_match source_index t_sec); cbn [negb length]; lia.
Qed.

(** X10. The lookup [source_sections[s_idx]] never fails: whatever
    the documents hold, [merge_chapter] does not end with an
    [IndexError]. *)
Theorem merge_chapter_no_index_error (template_path source_path target_path : str)
    (fs : FS) :
  result (merge_chapter' template_path source_path target_path fs) <> inl IndexError.
Proof.
  unfold merge_chapter.
  destruct (path_exists fs template_path); [|discriminate].
  destruct (path_exists fs source_path); [|discriminate]. cbn [negb].
  destruct (Document fs template_path) as [e|template_doc]; [discriminate|].
  destruct (Document fs source_path) as [e|source_doc]; [discriminate|].
  destruct (merge_sections_total E add_heading has_style raises
              (parse_sections source_doc) (parse_sections template_doc) ([], O, O))
    as [[[out_doc matched] skipped] Hloop].
  rewrite Hloop. destruct (backup_target _ _ _ _ _ _ _) as [fs1 printed].
  destruct (save out_doc target_path fs1) as [fs2 [e|]]; discriminate.
Qed.

Lemma merge_chapter_stats (template_path source_path target_path : str)
    (fs : FS) (stats : Stats) :
  result (merge_chapter' template_path source_path target_path fs) = inr stats ->
  exists template_doc source_doc,
    Document fs template_path = inr template_doc
    /\ Document fs source_path = inr source_doc
    /\ let index := build_title_index (parse_sections source_doc) in
       matched_sections stats
       = length (List.filter (has_match index) (parse_sections template_doc))
       /\ skipped_sections stats
          = length (List.filter (fun t => negb (has_match index t))
                      (parse_sections template_doc)).
Proof.
  unfold merge_chapter.
  destruct (path_exists fs template_path); [|discriminate].
  destruct (path_exists fs source_path); [|discriminate]. cbn [negb].
  destruct (Document fs template_path) as [e|template_doc]; [discriminate|].
  destruct (Document fs source_path) as [e|source_doc]; [discriminate|].
  destruct (merge_sections' _ _ _ _) as [e|[[out_doc matched] skipped]] eqn:Hloop;
    [discriminate|].
  destruct (backup_target _ _ _ _ _ _ _) as [fs1 printed].
  destruct (save out_doc target_path fs1) as [fs2 [e|]]; [discriminate|].
  cbn [result]. intros [= <-]. cbn [matched_sections skipped_sections].
  apply merge_sections_counters in Hloop. exists template_doc, source_doc.
  cbn zeta. repeat split; [tauto..].
Qed.

(** X11. The two counters say which template sections found a source
    section: matched counts those for which [find_best_match] returns
    a position in the index of the source, skipped the others. *)
Theorem merge_chapter_matched (template_path source_path target_path : str)
    (fs : FS) (stats : Stats) :
  result (merge_chapter' template_path source_path target_path fs) = inr stats ->
  exists template_doc source_doc,
    Document fs template_path = inr template_doc
    /\ Document fs source_path = inr source_doc
    /\ let index := build_title_index (parse_sections source_doc) in
       matched_sections stats
       = length (List.filter (has_match index) (parse_sections template_doc))
       /\ skipped_sections stats
          = length (List.filter (fun t => negb (has_match index t))
                      (parse_sections template_doc)).
Proof. apply merge_chapter_stats. Qed.

Lemma has_match_parsed (doc : list Paragraph) (sec : Sec) :
  In sec (parse_sections doc) ->
  has_match (build_title_index (parse_sections doc)) sec = negb (no_key sec).
Proof.
  intros Hin. unfold has_match, no_key.
  destruct (norm_title sec) as [|c key] eqn:Hkey; cbn [negb].
  - rewrite find_best_match_empty; [reflexivity| |].
    + rewrite (parse_sections_key doc sec Hin). exact Hkey.
    + destruct (dict_get (build_title_index (parse_sections doc)) []) as [i|] eqn:Hget;
        [|reflexivity].
      apply build_title_index_get in Hget as [Hne _]. congruence.
  - apply list_elem_of_In, list_elem_of_lookup_1 in Hin as [i Hi].
    destruct (build_title_index_present (parse_sections doc) (norm_title sec) i sec)
      as [j Hj]; [congruence|assumption|reflexivity|].
    unfold find_best_match. rewrite (parse_sections_key doc sec), Hj; [reflexivity|].
    apply list_elem_of_In. eapply list_elem_of_lookup_2, Hi.
Qed.

(** X12. A document merged with itself: when the template and the
    source hold the same paragraphs, the sections skipped are just
    those whose normalized title is empty, and all others count as
    matched. *)
Theorem merge_chapter_same_document (template_path source_path target_path : str)
    (fs : FS) (doc : list Paragraph) (stats : Stats) :
  Document fs template_path = inr doc ->
  Document fs source_path = inr doc ->
  result (merge_chapter' template_path source_path target_path fs) = inr stats ->
  skipped_sections stats = length (List.filter no_key (parse_sections doc))
  /\ matched_sections stats
     = length (List.filter (fun sec => negb (no_key sec)) (parse_sections doc)).
Proof.
  intros Ht Hs Hrun.
  destruct (merge_chapter_stats _ _ _ _ _ Hrun)
    as (template_doc & source_doc & Ht' & Hs' & Hm & Hsk).
  rewrite Ht in Ht'. rewrite Hs in Hs'. injection Ht' as <-. injection Hs' as <-.
  rewrite Hm, Hsk. split; f_equal; apply List.filter_ext_in; intros sec Hin;
    rewrite (has_match_parsed doc sec Hin); [apply negb_involutive|reflexivity].
Qed.

Lemma copy_of_spec (sp : Paragraph) :
  out_style (copy_of has_style raises sp)
  = match par_style sp with
    | Some (c :: name) => if has_style (c :: name) then Some (c :: name) else None
    | _ => None
    end
  /\ match par_runs sp with
     | [] => out_runs (copy_of has_style raises sp) = [new_run (par_text sp)]
     | rs =>
         Forall2
           (fun r copy =>
              run_text copy = run_text r
              /\ ((forall a d, raises a r d = false) -> same_formatting r copy))
           rs (out_runs (copy_of has_style raises sp))
     end.
Proof.
  split; [reflexivity|]. unfold copy_of. cbn [out_runs].
  destruct (par_runs sp) as [|r0 rs]; [reflexivity|].
  generalize (r0 :: rs) as l. clear. intros l.
  induction l as [|r l IH]; cbn [map]; constructor; [|exact IH].
  split; [rewrite copy_run_formatting_text; reflexivity|].
  intros Hok. apply copy_run_formatting_complete; [exact Hok|discriminate].
Qed.

(** X13. A template section with a match gets its heading, then one
    paragraph for each paragraph in the body of the source section
    found, in the same order, and one more matched section.  A copied
    paragraph keeps its style when the output document has a style of
    that name and has none otherwise; it has one run for each run of
    the source paragraph, with the same text whatever happens while
    the formatting is copied, and with the bold, italic, underline,
    font name and font size of the source run when none of the
    assignments raises; a paragraph without runs gives one plain run
    with its text. *)
Theorem matched_section_copied (source_sections : list Sec) (source_index : dict)
    (out_doc : OutDoc) (matched skipped : nat) (t_sec s_sec : Sec) (s_idx : nat) :
  find_best_match (title t_sec) source_index = Some s_idx ->
  source_sections !! s_idx = Some s_sec ->
  exists copies,
    merge_section' source_sections source_index (out_doc, matched, skipped) t_sec
    = inr (emit_heading' out_doc (title t_sec) (level t_sec) ++ copies,
           S matched, skipped)
    /\ Forall2
         (fun sp np =>
            out_style np
            = match par_style sp with
              | Some (c :: name) =>
                  if has_style (c :: name) then Some (c :: name) else None
              | _ => None
              end
            /\ match par_runs sp with
               | [] => out_runs np = [new_run (par_text sp)]
               | rs =>
                   Forall2
                     (fun r copy =>
                        run_text copy = run_text r
                        /\ ((forall a d, raises a r d = false) ->
                            same_formatting r copy))
                     rs (out_runs np)
               end)
         (paragraphs s_sec) copies.
Proof.
  intros Hm Hs. exists (map (copy_of has_style raises) (paragraphs s_sec)). split.
  - unfold merge_section. rewrite Hm, Hs.
    rewrite fold_copy_paragraph, Nat.add_1_r. reflexivity.
  - induction (paragraphs s_sec) as [|sp ps IH]; cbn [map]; constructor;
      [apply copy_of_spec|exact IH].
Qed.

Lemma merge_sections_output (source_sections : list Sec) (source_index : dict)
    (template_sections : list Sec) :
  (forall d t l d', add_heading d t l = Some d' -> exists p, d' = d ++ [p]) ->
  forall out_doc matched skipped out_doc' matched' skipped',
  merge_sections' source_sections source_index template_sections
    (out_doc, matched, skipped) = inr (out_doc', matched', skipped') ->
  exists headings,
    length headings = length template_sections
    /\ out_doc'
       = out_doc
         ++ concat (zip_with
                      (fun hp t_sec =>
                         hp :: body_of has_style raises source_sections source_index t_sec)
                      headings template_sections).
Proof.
  intros Hadd.
  induction template_sections as [|t_sec more IH];
    intros out_doc matched skipped out_doc' matched' skipped'; cbn [merge_sections].
  - intros [= <- _ _]. exists []. cbn. rewrite app_nil_r. auto.
  - destruct (merge_section' _ _ _ t_sec) as [e|st1] eqn:E1; [discriminate|].
    apply merge_section_step in E1. subst st1. intros H.
    apply IH in H as (headings & Hlen & ->).
    assert (Hh : exists hp, emit_heading' out_doc (title t_sec) (level t_sec)
                            = out_doc ++ [hp]).
    { unfold emit_heading.
      destruct (add_heading out_doc (title t_sec) (level t_sec)) as [d|] eqn:Ea.
      - apply Hadd in Ea. exact Ea.
      - unfold add_paragraph_with_style. eauto. }
    destruct Hh as [hp ->]. exists (hp :: headings).
    split; [cbn [length]; lia|].
    cbn [zip_with concat]. rewrite <- !app_assoc. reflexivity.
Qed.

(** X14. The document saved follows the template: for each section
    of the template, in order, one heading paragraph and after it the
    paragraphs that the copy loop makes of the body of the source
    section it matches, nothing when it matches none.  This holds
    when [add_heading] appends one paragraph to the document, as the
    document library does. *)
Theorem merge_chapter_output (template_path source_path target_path : str)
    (fs : FS) (template_doc source_doc : list Paragraph) :
  (forall d t l d', add_heading d t l = Some d' -> exists p, d' = d ++ [p]) ->
  path_exists fs template_path = true ->
  path_exists fs source_path = true ->
  Document fs template_path = inr template_doc ->
  Document fs source_path = inr source_doc ->
  let source_sections := parse_sections source_doc in
  let template_sections := parse_sections template_doc in
  exists headings,
    length headings = length template_sections
    /\ fs_after (merge_chapter' template_path source_path target_path fs)
       = (save
            (concat (zip_with
                       (fun hp t_sec =>
                          hp :: body_of has_style raises source_sections
                                  (build_title_index source_sections) t_sec)
                       headings template_sections))
            target_path
            (backup_target E exn_str FS path_exists copy2 target_path fs).1).1.
Proof.
  intros Hadd Ht Hs Htd Hsd source_sections template_sections.
  unfold merge_chapter. rewrite Ht, Hs, Htd, Hsd. cbn [negb].
  destruct (merge_sections_total E add_heading has_style raises
              (parse_sections source_doc) (parse_sections template_doc) ([], O, O))
    as [[[out_doc matched] skipped] Hloop].
  rewrite Hloop.
  apply merge_sections_output in Hloop as (headings & Hlen & Hout); [|exact Hadd].
  exists headings. split; [exact Hlen|].
  cbn [app] in Hout. fold source_sections template_sections in Hout. rewrite <- Hout.
  destruct (backup_target _ _ _ _ _ _ _) as [fs1 printed]. cbn [fst].
  destruct (save out_doc target_path fs1) as [fs2 [e|]]; reflexivity.
Qed.
End LoopFacts.

(** ** The backup *)

Section NoBackup.
Context {U : UnicodeDB}.
Variable E : Type.
Variable exn_str : E -> str.
Variable FS : Type.
Variable path_exists : FS -> str -> bool.
Variable Document : FS -> str -> E + list Paragraph.
Variable copy2 copy2' : FS -> str -> str -> FS * option E.
Variable save : OutDoc -> str -> FS -> FS * option E.
Variable add_heading : OutDoc -> str -> Z -> option OutDoc.
Variable has_style : str -> bool.
Variable raises : attribute -> Run -> Run -> bool.

(** X15. Without a file at the target path nothing is copied: the
    run is the same whatever [copy2] would do, and all it can print
    is the line that tells where the document was written. *)
Theorem no_target_no_backup (template_path source_path target_path : str) (fs : FS) :
  path_exists fs target_path = false ->
  merge_chapter E exn_str FS path_exists Document copy2 save add_heading has_style raises
    template_path source_path target_path fs
  = merge_chapter E exn_str FS path_exists Document copy2' save add_heading has_style raises
      template_path source_path target_path fs
  /\ forall line,
       In line
         (output
            (merge_chapter E exn_str FS path_exists Document copy2 save add_heading
               has_style raises template_path source_path target_path fs)) ->
       line = Stdout (py "Wrote merged Chapter 1 to: " ++ target_path).
Proof.
  intros Htarget. unfold merge_chapter, backup_target. rewrite Htarget.
  destruct (negb (path_exists fs template_path)); [split; [reflexivity|intros ? []]|].
  destruct (negb (path_exists fs source_path)); [split; [reflexivity|intros ? []]|].
  destruct (Document fs template_path) as [e|template_doc];
    [split; [reflexivity|intros ? []]|].
  destruct (Document fs source_path) as [e|source_doc];
    [split; [reflexivity|intros ? []]|].
  destruct (merge_sections _ _ _ _ _ _ _) as [e|[[out_doc matched] skipped]];
    [split; [reflexivity|intros ? []]|].
  destruct (save out_doc target_path fs) as [fs2 [e|]]; cbn [output app];
    (split; [reflexivity|]).
  - intros ? [].
  - intros line [<-|[]]. reflexivity.
Qed.
End NoBackup.

Lemma rfind_go_unique (c : char) (p : str) (n : nat) :
  nth_error p n = Some c ->
  Forall (fun x => x <> c) (skipn (S n) p) ->
  forall i found, OsPath.rfind_go p c i found = (i + Z.of_nat n)%Z.
Proof.
  revert n. induction p as [|x p IH]; intros n Hn Hafter i found.
  - destruct n; discriminate.
  - cbn [OsPath.rfind_go]. destruct n as [|n].
    + injection Hn as ->. cbn [skipn] in Hafter.
      destruct (rfind_go_spec c p (i + 1) (if c =? c then i else found))
        as [[Hr _]|(_ & Hnth & _)]; cbn zeta in *.
      * rewrite Hr, N.eqb_refl. lia.
      * exfalso. apply nth_error_In in Hnth.
        rewrite List.Forall_forall in Hafter. exact (Hafter _ Hnth eq_refl).
    + cbn [nth_error skipn] in *. rewrite (IH n Hn Hafter). lia.
Qed.

Lemma rfind_go_absent (c : char) (p : str) :
  Forall (fun x => x <> c) p ->
  forall i found, OsPath.rfind_go p c i found = found.
Proof.
  induction 1 as [|x p Hx _ IH]; intros i found; [reflexivity|].
  cbn [OsPath.rfind_go]. rewrite IH.
  destruct (N.eqb_spec x c); [contradiction|reflexivity].
Qed.

(** The last slash of a path stays the last when the text after it is
    replaced by another without a slash. *)
Lemma directory_tail (dir name name' : str) :
  Forall (fun x => x <> SLASH) name -> Forall (fun x => x <> SLASH) name' ->
  (dir = [] \/ exists d, dir = d ++ [SLASH]) ->
  directory (dir ++ name) = dir /\ directory (dir ++ name') = dir.
Proof.
  assert (H : forall name, Forall (fun x => x <> SLASH) name ->
              (dir = [] \/ exists d, dir = d ++ [SLASH]) ->
              directory (dir ++ name) = dir).
  { clear. intros name Hname [->|[d ->]]; unfold directory, OsPath.rfind.
    - cbn [app]. rewrite rfind_go_absent by assumption. reflexivity.
    - rewrite (rfind_go_unique SLASH _ (length d)).
      + replace (Z.to_nat (0 + Z.of_nat (length d) + 1)) with (length (d ++ [SLASH]))
          by (rewrite length_app; cbn [length]; lia).
        apply take_app_length.
      + rewrite <- app_assoc. cbn [app]. rewrite nth_error_app2 by lia.
        rewrite Nat.sub_diag. reflexivity.
      + rewrite <- app_assoc. cbn [app].
        replace (S (length d)) with (length (d ++ [SLASH]))
          by (rewrite length_app; cbn [length]; lia).
        change (d ++ SLASH :: name) with (d ++ [SLASH] ++ name).
        rewrite app_assoc, drop_app_length. assumption. }
  intros Hname Hname' Hdir. split; apply H; assumption.
Qed.

Lemma path_directory (p : str) :
  exists dir name,
    p = dir ++ name
    /\ (dir = [] \/ exists d, dir = d ++ [SLASH])
    /\ Forall (fun x => x <> SLASH) name.
Proof.
  induction p as [|x p (dir & name & -> & Hdir & Hname)] using rev_ind.
  - exists [], []. repeat split; [left; reflexivity|constructor].
  - destruct (N.eqb_spec x SLASH) as [->|Hx].
    + exists ((dir ++ name) ++ [SLASH]), []. rewrite app_nil_r.
      repeat split; [right; eauto|constructor].
    + exists dir, (name ++ [x]). rewrite app_assoc.
      repeat split; [assumption|]. apply Forall_app_2; [assumption|].
      repeat constructor. assumption.
Qed.

Lemma backup_marker_length : length (py " (backup)") = 9%nat.
Proof. reflexivity. Qed.

Lemma backup_marker_no_slash : Forall (fun x => x <> SLASH) (py " (backup)").
Proof. vm_compute. repeat constructor; discriminate. Qed.

(** X16. The backup path is another path in the directory of the
    target: it is nine characters longer, so the copy never lands on
    the target itself, and it has the same text up to the last slash. *)
Theorem backup_path_sibling (target_path : str) :
  backup_path_of target_path <> target_path
  /\ length (backup_path_of target_path) = (length target_path + 9)%nat
  /\ directory (backup_path_of target_path) = directory target_path.
Proof.
  unfold backup_path_of.
  pose proof (splitext_spec target_path) as (Hcat & Hext & _).
  destruct (OsPath.splitext target_path) as [base ext]. cbn [fst snd] in *.
  assert (Hlen : length (base ++ py " (backup)" ++ ext) = (length target_path + 9)%nat).
  { rewrite <- Hcat, !length_app, backup_marker_length. lia. }
  split; [|split; [exact Hlen|]].
  - intros Heq. rewrite Heq in Hlen. lia.
  - destruct (path_directory target_path) as (dir & name & Hp & Hdir & Hname).
    assert (Hbase : exists l, base = dir ++ l /\ name = l ++ ext).
    { rewrite Hp in Hcat. apply app_eq_app in Hcat as [l [[Hb Hn]|[Hd He]]].
      - exists l. split; assumption.
      - destruct l as [|y l _] using rev_ind.
        + exists []. rewrite app_nil_r in Hd. subst. split; [rewrite app_nil_r|]; reflexivity.
        + exfalso. destruct Hdir as [->|[d Hd']].
          * symmetry in Hd. apply app_eq_nil in Hd as [_ Hd].
            apply app_eq_nil in Hd as [_ Hd]. discriminate.
          * rewrite Hd', app_assoc in Hd. apply app_inj_tail in Hd as [_ <-].
            subst ext. rewrite <- app_assoc in Hext.
            apply Forall_app in Hext as [_ Hext]. cbn [app] in Hext.
            inversion Hext; subst. congruence. }
    destruct Hbase as (l & -> & ->).
    apply Forall_app in Hname as [Hl _].
    rewrite Hp, <- !app_assoc.
    destruct (directory_tail dir (l ++ py " (backup)" ++ ext) (l ++ ext)) as [H1 H2];
      [|apply Forall_app_2; assumption|assumption|congruence].
    apply Forall_app_2; [assumption|].
    apply Forall_app_2; [apply backup_marker_no_slash|assumption].
Qed.

(** ** Numbering in front of a title *)

Section Leading.
Context {U : UnicodeDB} {L : UnicodeLaws U}.

Lemma skip_app (p : char -> bool) (ds t : str) :
  forall b, ds <> [] -> Forall (fun x => p x = true) ds ->
  match t with x :: _ => p x = false | [] => True end ->
  exists x, skip p b (ds ++ t) = Cursor (Some x) t /\ p x = true.
Proof.
  induction ds as [|x ds IH]; intros b Hne H Ht; [congruence|].
  inversion H as [|? ? Hx Hds]; subst. cbn [app skip]. rewrite Hx.
  destruct ds as [|y ds].
  - exists x. split; [|assumption]. cbn [app].
    destruct t as [|z t]; [reflexivity|]. cbn [skip]. rewrite Ht. reflexivity.
  - apply IH; [discriminate|assumption|assumption].
Qed.

Lemma first_star_groups (others : list str) :
  Forall component others ->
  forall b s, no_digit_next s ->
  (forall b', first group_re (Cursor b' s) = None) ->
  exists b', first (Star group_re) (Cursor b (dotted_tail others ++ s))
             = Some (Cursor b' s).
Proof.
  induction 1 as [|d others [Hne Hd] Hothers IH]; intros b s Hs Hstop.
  - cbn [dotted_tail map concat app].
    rewrite first_star_progress by (intros c1; apply group_progress).
    rewrite Hstop. eauto.
  - unfold dotted_tail. cbn [map concat]. fold (dotted_tail others).
    rewrite <- !app_assoc. cbn [app].
    rewrite first_star_progress by (intros c1; apply group_progress).
    rewrite first_group. cbn [rest].
    change (dot_or_hyphen DOT) with true. cbv iota.
    rewrite first_digits.
    destruct d as [|x d]; [congruence|]. cbn [app].
    inversion Hd as [|? ? Hx Hd']; subst. rewrite Hx.
    destruct (skip_app is_digit (x :: d) (dotted_tail others ++ s) (Some DOT))
      as (y & Hskip & _);
      [discriminate|assumption|apply (dotted_tail_next others s Hs)|].
    cbn [app] in Hskip. rewrite Hskip. apply IH; assumption.
Qed.

Lemma dot_or_hyphen_space (x : char) : isspace x = true -> dot_or_hyphen x = false.
Proof.
  intros Hx. unfold dot_or_hyphen.
  destruct (N.eqb_spec x DOT) as [->|_]; [vm_compute in Hx; discriminate|].
  destruct (N.eqb_spec x HYPHEN) as [->|_]; [vm_compute in Hx; discriminate|].
  reflexivity.
Qed.

(** What separates the numbering from the title: a dot or none, then
    white space. *)
Lemma first_separator (dot : bool) (w : char) (ws t : str) (b : option char) :
  isspace w = true -> Forall (fun x => isspace x = true) ws ->
  match t with x :: _ => isspace x = false | [] => True end ->
  let s := (if dot then [DOT] else []) ++ (w :: ws) ++ t in
  no_digit_next s
  /\ (forall b', first group_re (Cursor b' s) = None)
  /\ exists x, first (Opt (Chr DOT) @@ Star (Cls isspace)) (Cursor b s)
               = Some (Cursor (Some x) t)
               /\ isspace x = true.
Proof.
  intros Hw Hws Ht s.
  assert (Hskip : forall b', exists x,
             skip isspace b' ((w :: ws) ++ t) = Cursor (Some x) t /\ isspace x = true).
  { intros b'. apply skip_app; [discriminate|constructor; assumption|assumption]. }
  assert (Hwd : is_digit w = false) by (apply space_not_digit, Hw).
  assert (Hwdot : (DOT =? w) = false).
  { apply N.eqb_neq. intros <-. vm_compute in Hw. discriminate. }
  subst s. destruct dot; cbn [app].
  - split; [apply dot_not_digit|]. split.
    + intros b'. rewrite first_group. cbn [rest].
      change (dot_or_hyphen DOT) with true. cbv iota.
      rewrite first_digits, Hwd. reflexivity.
    + rewrite first_seq_total by (intros; apply ends_star_nonempty).
      rewrite first_opt. unfold Chr. rewrite first_cls. cbn [rest].
      rewrite N.eqb_refl. rewrite first_star_cls. destruct (Hskip (Some DOT)) as (x & Hx & Hsp).
      cbn [app] in Hx. rewrite Hx. eauto.
  - split; [exact Hwd|]. split.
    + intros b'. rewrite first_group. cbn [rest].
      rewrite (dot_or_hyphen_space w Hw). reflexivity.
    + rewrite first_seq_total by (intros; apply ends_star_nonempty).
      rewrite first_opt. unfold Chr. rewrite first_cls. cbn [rest].
      rewrite Hwdot. rewrite first_star_cls. destruct (Hskip b) as (x & Hx & Hsp).
      cbn [app] in Hx. rewrite Hx. eauto.
Qed.

Lemma first_numbering_prefix (comps : list str) (dot : bool) (w : char) (ws t : str) :
  comps <> [] -> Forall component comps ->
  isspace w = true -> Forall (fun x => isspace x = true) ws ->
  match t with x :: _ => isspace x = false | [] => True end ->
  exists x,
    first numbering_re
      (Cursor None (dotted comps ++ (if dot then [DOT] else []) ++ (w :: ws) ++ t))
    = Some (Cursor (Some x) t)
    /\ isspace x = true.
Proof.
  intros Hne Hcomps Hw Hws Ht.
  destruct comps as [|d others]; [congruence|].
  inversion Hcomps as [|? ? [Hdne Hd] Hothers]; subst.
  destruct (first_separator dot w ws t None Hw Hws Ht) as (Hnext & Hstop & _).
  set (s := (if dot then [DOT] else []) ++ (w :: ws) ++ t) in *.
  cbn [dotted]. rewrite <- app_assoc.
  rewrite first_numbering. unfold digit_at_boundary, at_boundary. cbn [before rest].
  destruct d as [|x d]; [congruence|]. cbn [app head is_word_opt].
  inversion Hd as [|? ? Hx Hd']; subst.
  rewrite (digit_word x Hx), Hx. cbn [xorb andb].
  destruct (skip_app is_digit (x :: d) (dotted_tail others ++ s) None)
    as (y & Hskip & _);
    [discriminate|assumption|apply (dotted_tail_next others s Hnext)|].
  cbn [app] in Hskip. rewrite Hskip.
  unfold tail_re. rewrite first_seq_total.
  2:{ intros c1. apply ends_seq_nonempty;
        [apply ends_opt_nonempty|apply ends_star_nonempty]. }
  destruct (first_star_groups others Hothers (Some y) s Hnext Hstop) as [b' ->].
  destruct (first_separator dot w ws t b' Hw Hws Ht) as (_ & _ & Hsep).
  exact Hsep.
Qed.
End Leading.

Section Substitution.
Context {U : UnicodeDB} {L : UnicodeLaws U}.

(** The scan needs no more fuel than the text is long. *)
Lemma sub_go_fuel (r : regex) (repl : str) (n : nat) :
  forall n' c, (length (rest c) < n)%nat -> (length (rest c) < n')%nat ->
  sub_go r repl n c = sub_go r repl n' c.
Proof.
  induction n as [|n IH]; intros n' c Hn Hn'; [lia|].
  destruct n' as [|n']; [lia|]. rewrite !sub_go_S.
  assert (Hskip : skipped r repl n c = skipped r repl n' c).
  { unfold skipped. destruct (rest c) as [|x s] eqn:R; [reflexivity|].
    f_equal. apply IH; cbn [rest length] in *; lia. }
  destruct (match_at r c) as [[[|y m] c']|] eqn:Hm.
  - rewrite Hskip. reflexivity.
  - f_equal. pose proof (match_at_length r c c' (y :: m) Hm) as Hlen.
    apply IH; (assert ((y :: m) <> []) by discriminate); intuition lia.
  - exact Hskip.
Qed.

(** A character before the text that is no word character is as good
    as the start of the text. *)
Lemma match_at_numbering_before (w : char) (t : str) :
  is_word w = false ->
  match_at numbering_re (Cursor (Some w) t) = match_at numbering_re (Cursor None t).
Proof.
  intros Hw. rewrite !match_at_first, !first_numbering.
  unfold digit_at_boundary, at_boundary. cbn [before rest is_word_opt].
  rewrite Hw. destruct t as [|x t]; [reflexivity|].
  cbn [head is_word_opt skip].
  destruct (is_digit x) eqn:Hx; [reflexivity|].
  rewrite !andb_false_r. reflexivity.
Qed.

Lemma sub_numbering_before (w : char) (t : str) (n : nat) :
  is_word w = false ->
  sub_go numbering_re [] n (Cursor (Some w) t) = sub_go numbering_re [] n (Cursor None t).
Proof.
  intros Hw. destruct n as [|n]; [reflexivity|].
  rewrite !sub_go_S, (match_at_numbering_before w t Hw). reflexivity.
Qed.

Lemma rstrip_app (a t : str) : rstrip t <> [] -> rstrip (a ++ t) = a ++ rstrip t.
Proof.
  intros Ht. induction a as [|x a IH]; [reflexivity|].
  cbn [app rstrip]. rewrite IH.
  destruct (a ++ rstrip t) eqn:E; [|reflexivity].
  apply app_eq_nil in E as [_ ?]. contradiction.
Qed.

Lemma strip_fixed_rstrip (t : str) : strip t = t -> rstrip t = t.
Proof.
  intros Ht. assert (Hl : lstrip t = t).
  { rewrite <- Ht at 1. rewrite lstrip_strip. exact Ht. }
  unfold strip in Ht. rewrite Hl in Ht. exact Ht.
Qed.

Lemma strip_prefixed (x : char) (a t : str) :
  isspace x = false -> t <> [] -> strip t = t ->
  strip ((x :: a) ++ t) = (x :: a) ++ t.
Proof.
  intros Hx Hne Ht. unfold strip. cbn [app lstrip]. rewrite Hx.
  change (x :: a ++ t) with ((x :: a) ++ t).
  pose proof (strip_fixed_rstrip t Ht) as Hr.
  rewrite rstrip_app by (rewrite Hr; exact Hne). rewrite Hr. reflexivity.
Qed.

Lemma sub_numbering_prefix (comps : list str) (dot : bool) (ws t : str) :
  comps <> [] -> Forall component comps ->
  ws <> [] -> Forall (fun x => isspace x = true) ws ->
  match t with x :: _ => isspace x = false | [] => True end ->
  re_sub numbering_re [] (dotted comps ++ (if dot then [DOT] else []) ++ ws ++ t)
  = re_sub numbering_re [] t.
Proof.
  intros Hne Hcomps Hwne Hws Ht.
  destruct ws as [|w ws]; [congruence|]. inversion Hws as [|? ? Hw Hws']; subst.
  destruct (first_numbering_prefix comps dot w ws t Hne Hcomps Hw Hws' Ht)
    as (x & Hfirst & Hx).
  set (s := dotted comps ++ (if dot then [DOT] else []) ++ (w :: ws) ++ t) in *.
  assert (Hlen : (length t < length s)%nat).
  { unfold s. rewrite !length_app. cbn [length]. lia. }
  unfold re_sub. rewrite sub_go_S, match_at_first, Hfirst. cbn [option_map rest].
  destruct (firstn (length s - length t) s) as [|y m] eqn:Hm.
  - apply (f_equal length) in Hm. rewrite length_firstn in Hm. cbn [length] in Hm. lia.
  - cbn [app]. rewrite (sub_numbering_before x t) by (apply space_not_word, Hx).
    apply sub_go_fuel; cbn [rest]; lia.
Qed.
End Substitution.

(** X17. Numbering in front of a title plays no part in its key: a
    lower-case title behind a dotted number, an optional dot and white
    space normalizes to what the title alone normalizes to. *)
Theorem normalize_title_numbering {U : UnicodeDB} (L : UnicodeLaws U)
    (comps : list str) (dot : bool) (ws t : str) :
  comps <> [] -> Forall component comps ->
  ws <> [] -> Forall (fun x => isspace x = true) ws ->
  t <> [] -> strip t = t ->
  let text := dotted comps ++ (if dot then [DOT] else []) ++ ws ++ t in
  forallb lowered text = true ->
  normalize_title (Some text) = normalize_title (Some t).
Proof.
  intros Hne Hcomps Hwne Hws Htne Ht text Hlow.
  assert (Hhead : match t with x :: _ => isspace x = false | [] => True end)
    by (apply strip_fixed_ends, Ht).
  assert (Hlow_t : forallb lowered t = true).
  { apply forallb_Forall. apply forallb_Forall in Hlow. unfold text in Hlow.
    rewrite !Forall_app in Hlow. tauto. }
  assert (Hstrip : strip text = text).
  { destruct comps as [|d others]; [congruence|].
    inversion Hcomps as [|? ? [Hdne Hd] _]; subst.
    destruct d as [|x d]; [congruence|]. inversion Hd as [|? ? Hx _]; subst.
    unfold text. cbn [dotted]. rewrite <- !app_assoc. cbn [app].
    rewrite !app_assoc.
    apply (strip_prefixed x _ t); [|assumption..].
    destruct (isspace x) eqn:Hsp; [|reflexivity].
    rewrite (space_not_digit x Hsp) in Hx. discriminate. }
  cbn [normalize_title]. rewrite Hstrip, Ht.
  rewrite (lowered_fixed _ Hlow), (lowered_fixed _ Hlow_t).
  unfold text. rewrite sub_numbering_prefix by assumption. reflexivity.
Qed.

(** ** The command line *)

Section MainFacts.
Context {U : UnicodeDB}.
Variable E : Type.
Variable exn_str : E -> str.
Variable FS : Type.
Variable path_exists : FS -> str -> bool.
Variable Document : FS -> str -> E + list Paragraph.
Variable copy2 : FS -> str -> str -> FS * option E.
Variable save : OutDoc -> str -> FS -> FS * option E.
Variable add_heading : OutDoc -> str -> Z -> option OutDoc.
Variable has_style : str -> bool.
Variable raises : attribute -> Run -> Run -> bool.

Local Abbreviation merge_chapter' :=
  (merge_chapter E exn_str FS path_exists Document copy2 save add_heading has_style raises).
Local Abbreviation main' :=
  (main E exn_str FS path_exists Document copy2 save add_heading has_style raises).


(** X18. [main] reads at most three arguments after the name of the
    script: whatever follows them on the command line changes
    nothing. *)
Theorem main_extra_arguments (argv extra : list str) (fs : FS) :
  (4 <= length argv)%nat ->
  main' (argv ++ extra) fs = main' argv fs.
Proof.
  intros Hlen.
  destruct argv as [|a0 [|a1 [|a2 [|a3 more]]]]; cbn [length] in Hlen; try lia.
  unfold main. cbn [app length Nat.leb nth]. reflexivity.
Qed.


(** X21. The total in the statistics is the number of heading
    paragraphs of the template document. *)
Theorem merge_chapter_total_headings (template_path source_path target_path : str)
    (fs : FS) (stats : Stats) :
  result (merge_chapter' template_path source_path target_path fs) = inr stats ->
  exists template_doc,
    Document fs template_path = inr template_doc
    /\ total_template_sections stats = length (List.filter is_heading template_doc).
Proof.
  unfold merge_chapter.
  destruct (path_exists fs template_path); [|discriminate].
  destruct (path_exists fs source_path); [|discriminate]. cbn [negb].
  destruct (Document fs template_path) as [e|template_doc]; [discriminate|].
  destruct (Document fs source_path) as [e|source_doc]; [discriminate|].
  destruct (merge_sections _ _ _ _ _ _ _) as [e|[[out_doc matched] skipped]];
    [discriminate|].
  destruct (backup_target _ _ _ _ _ _ _) as [fs1 lines].
  destruct (save out_doc target_path fs1) as [fs2 [e|]]; [discriminate|].
  cbn [result]. intros [= <-]. cbn [total_template_sections].
  exists template_doc. split; [reflexivity|].
  eapply Forall2_length, parse_sections_Forall2.
Qed.

End MainFacts.

(** ** The keys of the index *)

(** X23. The keys of the index are the normalized titles of the
    sections that are not empty, each of them once. *)
Theorem build_title_index_keys {U : UnicodeDB} (sections : list Sec) :
  List.NoDup (map fst (build_title_index sections))
  /\ forall key,
       In key (map fst (build_title_index sections))
       <-> key <> [] /\ exists sec, In sec sections /\ norm_title sec = key.
Proof.
  split; [apply build_title_index_NoDup|]. intros key. split.
  - intros Hin. apply in_map_iff in Hin as ([k pos] & <- & Hin). cbn [fst].
    apply build_title_index_In in Hin as (Hne & (sec & Hsec & Hkey) & _).
    split; [exact Hne|]. exists sec. split; [|exact Hkey].
    apply list_elem_of_In. eapply list_elem_of_lookup_2, Hsec.
  - intros (Hne & sec & Hin & Hkey).
    apply list_elem_of_In, list_elem_of_lookup_1 in Hin as [i Hi].
    destruct (build_title_index_present sections key i sec Hne Hi Hkey) as [pos Hpos].
    apply dict_get_In in Hpos. apply in_map_iff. exists (key, pos). auto.
Qed.

(** ** Bounds of the heading level *)

(** X20. A heading level is never negative, and a level that the text
    heuristic gives is at least 1. *)
Theorem heading_level_bounds {U : UnicodeDB} :
  (forall paragraph n, get_heading_level paragraph = Some n -> (0 <= n)%Z)
  /\ (forall text n, _heading_level_from_text text = Some n -> (1 <= n)%Z).
Proof.
  assert (Hint : forall g n, py_int g = Some n -> (0 <= n)%Z).
  { intros g n. unfold py_int. destruct g as [|c g]; [discriminate|].
    destruct (int_digits (c :: g) 0) as [m|]; [|discriminate].
    intros [= <-]. lia. }
  assert (Htext : forall text n, _heading_level_from_text text = Some n -> (1 <= n)%Z).
  { intros text n. unfold _heading_level_from_text.
    destruct text as [[|c text]|]; try discriminate.
    destruct (Re.re_match chapter_re _); [intros [= <-]; lia|].
    destruct (Re.re_match numbered_re _); [|discriminate].
    destruct (Re.re_findall digits _); [discriminate|].
    intros [= <-]. lia. }
  split; [|exact Htext].
  intros paragraph n. unfold get_heading_level.
  destruct (if startswith _ HEADING then _ else None) as [g|]; [apply Hint|].
  destruct (if contains _ THAI_HEADING then _ else None) as [g|]; [apply Hint|].
  destruct (_heading_level_from_text _) as [lvl|] eqn:Hlvl; [|discriminate].
  intros [= <-]. apply Htext in Hlvl. lia.
Qed.

(** ** The further properties at work *)

Lemma parse_sections_block_witness :
  parse_sections
    (Demo.cover ++ Demo.introduction :: Demo.introduction_body ++ Demo.background)
  = parse_sections Demo.cover
    ++ {| title := strip (par_text Demo.introduction);
          norm_title := normalize_title (Some (par_text Demo.introduction));
          level := 1;
          paragraphs := Demo.introduction_body |}
    :: parse_sections Demo.background.
Proof.
  apply (parse_sections_block Demo.cover Demo.introduction 1 Demo.introduction_body
           Demo.background).
  - vm_compute. reflexivity.
  - repeat constructor.
  - vm_compute. reflexivity.
Defined.

Lemma parse_sections_preamble_witness :
  parse_sections (Demo.cover ++ Demo.introduction :: Demo.background)
  = parse_sections (Demo.introduction :: Demo.background)
  /\ parse_sections Demo.cover = [].
Proof.
  destruct (parse_sections_preamble Demo.cover (Demo.introduction :: Demo.background))
    as (Hdrop & Hnone & _).
  - repeat constructor.
  - split; assumption.
Defined.

Lemma parse_sections_bodies_witness :
  concat (map paragraphs
            (parse_sections (Demo.cover ++ Demo.introduction
                               :: Demo.introduction_body ++ Demo.background)))
  = List.filter (fun p => negb (is_heading p))
      (Demo.introduction_body ++ Demo.background).
Proof.
  apply (parse_sections_bodies Demo.cover Demo.introduction).
  - repeat constructor.
  - vm_compute. reflexivity.
Defined.

Lemma normalize_title_shape_witness :
  lower (normalize_title (Some (py "1.2 Hello, World (๑)")))
  = normalize_title (Some (py "1.2 Hello, World (๑)")).
Proof.
  destruct (normalize_title_shape basic_laws (Some (py "1.2 Hello, World (๑)")))
    as (_ & _ & _ & _ & Hlower).
  exact Hlower.
Defined.

Lemma normalize_title_digits_witness :
  exists u' y, py "covid" = u' ++ [y] /\ is_word y = true.
Proof.
  apply (normalize_title_digits basic_laws (Some (py "COVID19 update"))
           (py "covid") 0x31 (py "9 update")).
  - vm_compute. reflexivity.
  - vm_compute. reflexivity.
Defined.

Lemma find_best_match_first_witness :
  exists earlier s_key later,
    Demo.tied_index = earlier ++ (s_key, 7%nat) :: later
    /\ (forall k p, In (k, p) earlier ->
          (Difflib.ratio (normalize_title (Some (py "abcde"))) s_key
           <=? Difflib.ratio (normalize_title (Some (py "abcde"))) k)%float = false)
    /\ (forall k p, In (k, p) later ->
          (Difflib.ratio (normalize_title (Some (py "abcde"))) s_key
           <? Difflib.ratio (normalize_title (Some (py "abcde"))) k)%float = false).
Proof.
  apply (find_best_match_first (py "abcde") Demo.tied_index 7%nat).
  - vm_compute. reflexivity.
  - vm_compute. reflexivity.
Defined.

Lemma find_best_match_empty_title_witness :
  (dict_get decoy_index [] = None -> find_best_match (py "1.2.") decoy_index = None)
  /\ find_best_match (py "1.2.") (build_title_index (parse_sections Demo.source_doc))
     = None.
Proof.
  apply (find_best_match_empty_title (py "1.2.") decoy_index
           (parse_sections Demo.source_doc)).
  vm_compute. reflexivity.
Defined.

Lemma parsed_section_found_witness :
  exists j,
    find_best_match (py "1. Introduction")
      (build_title_index (parse_sections Demo.source_doc)) = Some j
    /\ last_with (parse_sections Demo.source_doc) (py "introduction") j.
Proof.
  apply (parsed_section_found Demo.source_doc 0%nat
           {| title := py "1. Introduction"; norm_title := py "introduction";
              level := 1; paragraphs := Demo.introduction_body |}).
  - vm_compute. reflexivity.
  - vm_compute. discriminate.
Defined.

Lemma merge_chapter_matched_witness :
  exists template_doc source_doc,
    Mem.Document Demo.fs0 Demo.template_path = inr template_doc
    /\ Mem.Document Demo.fs0 Demo.source_path = inr source_doc
    /\ 2%nat
       = length (List.filter (has_match (build_title_index (parse_sections source_doc)))
                   (parse_sections template_doc))
    /\ 0%nat
       = length (List.filter
                   (fun t => negb (has_match
                                     (build_title_index (parse_sections source_doc)) t))
                   (parse_sections template_doc)).
Proof.
  apply (merge_chapter_matched Mem.exn Mem.exn_str Mem.fs Mem.path_exists Mem.Document
           Mem.copy2 Mem.save Mem.add_heading Mem.has_style Mem.raises
           Demo.template_path Demo.source_path Demo.target_path Demo.fs0
           {| matched_sections := 2; skipped_sections := 0;
              total_template_sections := 2 |}).
  vm_compute. reflexivity.
Defined.

Lemma merge_chapter_same_document_witness :
  0%nat = length (List.filter no_key (parse_sections Demo.source_doc))
  /\ 2%nat
     = length (List.filter (fun sec => negb (no_key sec)) (parse_sections Demo.source_doc)).
Proof.
  apply (merge_chapter_same_document Mem.exn Mem.exn_str Mem.fs Mem.path_exists
           Mem.Document Mem.copy2 Mem.save Mem.add_heading Mem.has_style Mem.raises
           Demo.source_path Demo.source_path Demo.target_path Demo.fs0 Demo.source_doc
           {| matched_sections := 2; skipped_sections := 0;
              total_template_sections := 2 |}).
  - vm_compute. reflexivity.
  - vm_compute. reflexivity.
  - vm_compute. reflexivity.
Defined.

Lemma matched_section_copied_witness :
  exists copies,
    merge_section Mem.exn Mem.add_heading Mem.has_style Mem.raises
      Demo.formatted_sections [(py "introduction", 0%nat)]
      ([], 0%nat, 0%nat)
      {| title := py "Introduction"; norm_title := py "introduction"; level := 1;
         paragraphs := [] |}
    = inr (emit_heading Mem.add_heading Mem.has_style [] (py "Introduction") 1
             ++ copies,
           1%nat, 0%nat)
    /\ Forall2
         (fun sp np =>
            out_style np
            = match par_style sp with
              | Some (c :: name) =>
                  if Mem.has_style (c :: name) then Some (c :: name) else None
              | _ => None
              end
            /\ match par_runs sp with
               | [] => out_runs np = [new_run (par_text sp)]
               | rs =>
                   Forall2
                     (fun r copy =>
                        run_text copy = run_text r
                        /\ ((forall a d, Mem.raises a r d = false) ->
                            same_formatting r copy))
                     rs (out_runs np)
               end)
         [{| par_style := Some (py "Normal"); par_text := py "ImportantOdd";
             par_runs := [Demo.bold_run; Demo.odd_run] |}]
         copies.
Proof.
  apply (matched_section_copied Mem.exn Mem.add_heading Mem.has_style Mem.raises
           Demo.formatted_sections [(py "introduction", 0%nat)]
           [] 0%nat 0%nat
           {| title := py "Introduction"; norm_title := py "introduction"; level := 1;
              paragraphs := [] |}
           {| title := py "1. Introduction"; norm_title := py "introduction";
              level := 1;
              paragraphs :=
                [{| par_style := Some (py "Normal"); par_text := py "ImportantOdd";
                    par_runs := [Demo.bold_run; Demo.odd_run] |}] |}
           0%nat).
  - vm_compute. reflexivity.
  - vm_compute. reflexivity.
Defined.

(** The copy is as good as the assignments allow: a run keeps all its
    formatting, and a run whose font size the library refuses keeps
    what was assigned before the size. *)
Example copy_is_best_effort :
  copy_run_formatting Mem.raises Demo.bold_run (new_run (py "Important"))
  = Demo.bold_run
  /\ copy_run_formatting Mem.raises Demo.odd_run (new_run (py "Odd"))
     = {| run_text := py "Odd"; run_bold := Some true; run_italic := Some true;
          run_underline := None;
          run_font := Some {| font_name := Some (py "Sarabun"); font_size := None |} |}.
Proof. vm_compute. split; reflexivity. Qed.

Lemma merge_chapter_output_witness :
  exists headings,
    length headings = length (parse_sections Demo.template_doc)
    /\ fs_after Demo.first_run
       = (Mem.save
            (concat (zip_with
                       (fun hp t_sec =>
                          hp :: body_of Mem.has_style Mem.raises (parse_sections Demo.source_doc)
                                  (build_title_index (parse_sections Demo.source_doc))
                                  t_sec)
                       headings (parse_sections Demo.template_doc)))
            Demo.target_path
            (backup_target Mem.exn Mem.exn_str Mem.fs Mem.path_exists Mem.copy2
               Demo.target_path Demo.fs0).1).1.
Proof.
  apply (merge_chapter_output Mem.exn Mem.exn_str Mem.fs Mem.path_exists Mem.Document
           Mem.copy2 Mem.save Mem.add_heading Mem.has_style Mem.raises
           Demo.template_path Demo.source_path Demo.target_path Demo.fs0
           Demo.template_doc Demo.source_doc).
  - intros d t l d'. unfold Mem.add_heading.
    destruct ((0 <=? l)%Z && (l <=? 9)%Z); [|discriminate].
    intros [= <-]. eexists. reflexivity.
  - vm_compute. reflexivity.
  - vm_compute. reflexivity.
  - vm_compute. reflexivity.
  - vm_compute. reflexivity.
Defined.

Lemma no_target_no_backup_witness :
  merge_chapter Mem.exn Mem.exn_str Mem.fs Mem.path_exists Mem.Document Mem.copy2
    Mem.save Mem.add_heading Mem.has_style Mem.raises
    Demo.template_path Demo.source_path Demo.target_path Demo.fs0
  = merge_chapter Mem.exn Mem.exn_str Mem.fs Mem.path_exists Mem.Document
      (fun fs _ _ => (fs, Some Mem.PermissionError))
      Mem.save Mem.add_heading Mem.has_style Mem.raises
      Demo.template_path Demo.source_path Demo.target_path Demo.fs0.
Proof.
  apply (no_target_no_backup Mem.exn Mem.exn_str Mem.fs Mem.path_exists Mem.Document
           Mem.copy2 (fun fs _ _ => (fs, Some Mem.PermissionError))
           Mem.save Mem.add_heading Mem.has_style Mem.raises
           Demo.template_path Demo.source_path Demo.target_path Demo.fs0).
  vm_compute. reflexivity.
Defined.

Lemma normalize_title_numbering_witness :
  normalize_title
    (Some (dotted [py "1"; py "2"] ++ [DOT] ++ [SPACE] ++ py "background of the study"))
  = normalize_title (Some (py "background of the study")).
Proof.
  apply (normalize_title_numbering basic_laws [py "1"; py "2"] true [SPACE]
           (py "background of the study")).
  - discriminate.
  - repeat constructor; try discriminate; vm_compute; reflexivity.
  - discriminate.
  - repeat constructor.
  - vm_compute. discriminate.
  - vm_compute. reflexivity.
  - vm_compute. reflexivity.
Defined.

Lemma main_extra_arguments_witness :
  main Mem.exn Mem.exn_str Mem.fs Mem.path_exists Mem.Document Mem.copy2 Mem.save
    Mem.add_heading Mem.has_style Mem.raises (Demo.argv ++ [py "--verbose"]) Demo.fs0
  = main Mem.exn Mem.exn_str Mem.fs Mem.path_exists Mem.Document Mem.copy2 Mem.save
      Mem.add_heading Mem.has_style Mem.raises Demo.argv Demo.fs0.
Proof.
  apply (main_extra_arguments Mem.exn Mem.exn_str Mem.fs Mem.path_exists Mem.Document
           Mem.copy2 Mem.save Mem.add_heading Mem.has_style Mem.raises
           Demo.argv [py "--verbose"] Demo.fs0).
  vm_compute. lia.
Defined.


Lemma merge_chapter_total_headings_witness :
  exists template_doc,
    Mem.Document Demo.fs0 Demo.template_path = inr template_doc
    /\ 2%nat = length (List.filter is_heading template_doc).
Proof.
  apply (merge_chapter_total_headings Mem.exn Mem.exn_str Mem.fs Mem.path_exists
           Mem.Document Mem.copy2 Mem.save Mem.add_heading Mem.has_style Mem.raises
           Demo.template_path Demo.source_path Demo.target_path Demo.fs0
           {| matched_sections := 2; skipped_sections := 0;
              total_template_sections := 2 |}).
  vm_compute. reflexivity.
Defined.


(** What [main] prints for the two documents. *)
Example main_output :
  printed (main Mem.exn Mem.exn_str Mem.fs Mem.path_exists Mem.Document Mem.copy2
             Mem.save Mem.add_heading Mem.has_style Mem.raises Demo.argv Demo.fs0)
  = [Stdout (py "Wrote merged Chapter 1 to: /w/out/chapter 1.docx");
     Stdout (py "Stats: {'matched_sections': 2, 'skipped_sections': 0, 'total_template_sections': 2}")].
Proof. vm_compute. reflexivity. Qed.
